(** * Persistence layer of the link service: record log, staging log, tail scan

    A shallow embedding of package [filesystem] (type [Storage] and its six
    methods) over an explicit model of the two files it works on.  The JSON
    library and [bufio.Scanner] are Go's standard library: the former is
    described by its operations and contract (classes [JSON] and
    [JSONLaws], with a reference codec as instance), the latter by a model
    of its line splitting and token limit.  Concurrent callers are a step
    relation over goroutines that take the mutex as the methods do. *)

From Stdlib Require Import ZArith List Bool Lia Strings.Byte String DecimalString DecimalZ.
From stdpp Require Import base option list gmap strings sorting relations.

Local Open Scope Z_scope.

(** ** Bytes *)

Abbreviation bytes := (list byte).

Definition LF : byte := Byte.x0a.
Definition CR : byte := Byte.x0d.

Definition is_LF (b : byte) : bool := Byte.eqb b LF.
Definition is_CR (b : byte) : bool := Byte.eqb b CR.

(** ** Records *)

(** The range of Go's [int64]. *)
Definition int64 (z : Z) : Prop := - 2 ^ 63 <= z < 2 ^ 63.

Definition int64b (z : Z) : bool := (- 2 ^ 63 <=? z) && (z <? 2 ^ 63).

(** Modelled from the spec: [domain.Record] is declared in package [domain],
    which is not among the sources.  The spec gives it an identifier (a
    64-bit integer) and a link map from URL string to status string, written
    as [{"id": <integer>, "links": {<url>: <status>, ...}}]. *)
Record domain_Record := mkRecord {
  ID : Z;
  Links : gmap string string
}.

(** ** Files *)

(** A file as the storage sees it: its bytes, and the failures the operating
    system may answer with.  [open_err]: opening fails.  [stat_err]: [Stat]
    fails.  [read_err = Some k]: the byte at offset [k] is the first that
    cannot be read; [read_err_later pos] then says whether the byte at a
    later offset [pos] cannot be read either, so that reads may fail at any
    offsets.  [write_room = Some k]: only [k] more bytes can be written. *)
Record File := mkFile {
  data : bytes;
  open_err : bool;
  stat_err : bool;
  read_err : option nat;
  read_err_later : nat -> bool;
  write_room : option nat
}.

(** A file with the given bytes and no failure. *)
Definition plain_file (d : bytes) : File :=
  {| data := d; open_err := false; stat_err := false;
     read_err := None; read_err_later := fun _ => false;
     write_room := None |}.

Definition with_data (f : File) (d : bytes) (room : option nat) : File :=
  {| data := d; open_err := open_err f; stat_err := stat_err f;
     read_err := read_err f; read_err_later := read_err_later f;
     write_room := room |}.

(** The file system: path to file. *)
Abbreviation FS := (gmap string File).

(** [os.Open] and [os.OpenFile] without [O_CREATE]: the file must exist. *)
Definition os_Open (fs : FS) (name : string) : option File :=
  match fs !! name with
  | Some f => if open_err f then None else Some f
  | None => None
  end.

(** [file.Stat().Size()]. *)
Definition file_Size (f : File) : option Z :=
  if stat_err f then None else Some (Z.of_nat (length (data f))).

(** Does a read of the byte at offset [pos] fail? *)
Definition read_fails_at (f : File) (pos : nat) : bool :=
  match read_err f with
  | Some k => (k =? pos)%nat || ((k <? pos)%nat && read_err_later f pos)
  | None => false
  end.

(** [file.ReadAt(buf, pos)] with a one-byte buffer. *)
Definition file_ReadAt (f : File) (pos : Z) : option byte :=
  if pos <? 0 then None
  else if read_fails_at f (Z.to_nat pos) then None
  else data f !! Z.to_nat pos.

(** What a sequential reader gets before end of file or the read failure. *)
Definition stream (f : File) : bytes :=
  match read_err f with
  | Some k => take k (data f)
  | None => data f
  end.

(** Does the sequential reader end in a read failure, not in end of file? *)
Definition stream_fails (f : File) : bool :=
  match read_err f with
  | Some k => (k <? length (data f))%nat
  | None => false
  end.

(** [file.Write(d)] on a file opened with [O_APPEND]: the file after the
    call, and whether the call succeeded. *)
Definition file_Write (f : File) (d : bytes) : File * bool :=
  match write_room f with
  | None => (with_data f (data f ++ d) None, true)
  | Some k =>
      if (length d <=? k)%nat
      then (with_data f (data f ++ d) (Some (k - length d)%nat), true)
      else (with_data f (data f ++ take k d) (Some 0%nat), false)
  end.

(** [os.WriteFile(name, []byte{}, 0644)]: opens with
    [O_WRONLY|O_CREATE|O_TRUNC], so the file is created when absent and
    emptied when present; nothing is written. *)
Definition os_WriteFile_empty (fs : FS) (name : string) : option FS :=
  match fs !! name with
  | Some f =>
      if open_err f then None
      else Some (<[name := with_data f [] (write_room f)]> fs)
  | None => Some (<[name := plain_file []]> fs)
  end.

(** ** [bufio.Scanner] with [bufio.ScanLines]

    The scanner as [bufio.NewScanner] sets it up and [GetRecord] uses it.
    The split function [ScanLines] returns the bytes before the first
    newline of the buffered data, less one trailing carriage return, and at
    the end of the input the remaining bytes if there are any.  When it
    finds no token [Scan] reads more input, doubling its buffer up to
    [MaxScanTokenSize]; with a full buffer of that size and still no token
    it stops with [ErrTooLong].  So a line is delivered when it is shorter
    than [MaxScanTokenSize] bytes (the buffer holds its newline too), and a
    longer one ends the scan.  [GetRecord] does not call [scanner.Buffer],
    so this is the limit in force. *)

Definition MaxScanTokenSize : Z := 65536.

(** [dropCR]: one trailing carriage return is dropped. *)
Fixpoint dropCR (d : bytes) : bytes :=
  match d with
  | [] => []
  | [b] => if is_CR b then [] else [b]
  | b :: rest => b :: dropCR rest
  end.

(** The segments of [s] between newlines; the last one is what follows the
    last newline (empty when [s] is empty or ends in a newline). *)
Fixpoint split_lines (s : bytes) : list bytes :=
  match s with
  | [] => [[]]
  | b :: s' =>
      if is_LF b then [] :: split_lines s'
      else match split_lines s' with
           | seg :: segs => (b :: seg) :: segs
           | [] => [[b]]
           end
  end.

(** A segment fits when it and its newline fit in the scanner's buffer,
    which never grows beyond [MaxScanTokenSize]. *)
Definition fits (seg : bytes) : bool :=
  Z.of_nat (length seg) <? MaxScanTokenSize.

(** The tokens the successive calls of [Scan] deliver, and whether scanning
    stopped with [ErrTooLong].  A newline-terminated segment is a token; the
    data after the last newline is a token when it is not empty. *)
Fixpoint scan_tokens (segs : list bytes) : list bytes * bool :=
  match segs with
  | [] => ([], false)
  | [seg] =>
      match seg with
      | [] => ([], false)
      | _ => if fits seg then ([dropCR seg], false) else ([], true)
      end
  | seg :: rest =>
      if fits seg
      then let '(toks, long) := scan_tokens rest in (dropCR seg :: toks, long)
      else ([], true)
  end.

Definition Scanner (s : bytes) : list bytes * bool :=
  scan_tokens (split_lines s).

(** ** Lines of a log *)

Definition no_LF (l : bytes) : Prop := Forall (fun b => b <> LF) l.

(** The content of a log whose lines are [ls], each closed by a newline. *)
Definition join_lines (ls : list bytes) : bytes :=
  flat_map (fun l => l ++ [LF]) ls.

(** The tokens of closed lines up to the first that does not fit. *)
Fixpoint scan_closed (ls : list bytes) : list bytes * bool :=
  match ls with
  | [] => ([], false)
  | l :: ls' =>
      if fits l
      then let '(toks, long) := scan_closed ls' in (dropCR l :: toks, long)
      else ([], true)
  end.

(** The lines of a log: the closed ones and, when it is not empty, the
    unterminated one after them. *)
Definition log_lines (ls : list bytes) (last : bytes) : list bytes :=
  ls ++ match last with [] => [] | _ => [last] end.

(** *** The last line, in the words of the specification

    Going backward from the final byte, the bytes up to the first newline
    that is not the final byte, or up to the start of the file. *)

Fixpoint until_LF (l : bytes) : bytes :=
  match l with
  | [] => []
  | c :: l' => if is_LF c then [] else c :: until_LF l'
  end.

Definition last_line (d : bytes) : bytes :=
  match reverse d with
  | [] => []
  | b :: rbody => reverse (until_LF rbody) ++ [b]
  end.

(** ** Errors of the storage *)

Inductive StorageError :=
| ErrOpen       (* "failed to open file" *)
| ErrMarshal    (* "failed to marshal record" *)
| ErrWrite      (* "failed to write record" *)
| ErrDecode     (* "failed to decode temp record" *)
| ErrScan       (* "failed to scan file" *)
| ErrNotFound   (* "record with ID %d not found" *)
| ErrClear.     (* the error of os.WriteFile *)

(** ** The JSON library *)

(** One call of [Decode] of a [json.Decoder] on what is left of the stream. *)
Inductive DecodeResult :=
| DecodeOk (rec : domain_Record) (rest : bytes)
| DecodeEOF
| DecodeErr.

(** [encoding/json] at type [domain.Record]: [json.Marshal],
    [json.Unmarshal] into a zero record, and one [Decode] of a
    [json.Decoder]. *)
Class JSON := {
  Marshal : domain_Record -> option bytes;
  Unmarshal : bytes -> option domain_Record;
  Decode : bytes -> DecodeResult
}.

(** The part of the library's contract that the properties rest on. *)
Class JSONLaws (J : JSON) : Prop := {
  (* a record of integers and strings always encodes *)
  Marshal_total : forall r, is_Some (Marshal r);
  (* the encoding is compact: no raw newline or carriage return *)
  Marshal_one_line : forall r d,
    Marshal r = Some d -> Forall (fun b => b <> LF /\ b <> CR) d;
  (* the identifier survives encoding and decoding *)
  Unmarshal_Marshal_ID : forall r d,
    int64 (ID r) -> Marshal r = Some d ->
    exists r', Unmarshal d = Some r' /\ ID r' = ID r;
  (* white space after the value is accepted *)
  Unmarshal_Marshal_LF : forall r d,
    Marshal r = Some d -> Unmarshal (d ++ [LF]) = Unmarshal d;
  (* the field is an int64 *)
  Unmarshal_int64 : forall s r, Unmarshal s = Some r -> int64 (ID r);
  (* an exhausted stream is io.EOF *)
  Decode_nil : Decode [] = DecodeEOF;
  (* white space before a value is skipped *)
  Decode_LF : forall s, Decode (LF :: s) = Decode s;
  (* a decoded value was read from the stream *)
  Decode_shrinks : forall s r rest,
    Decode s = DecodeOk r rest -> (length rest < length s)%nat;
  (* an encoded record at the head of the stream is decoded as by Unmarshal,
     and the decoder stops after it *)
  Decode_Marshal : forall r d r' rest,
    Marshal r = Some d -> Unmarshal d = Some r' ->
    Decode (d ++ LF :: rest) = DecodeOk r' (LF :: rest)
}.

(** ** The storage *)

(** [Storage]: the two paths.  The mutex and the logger carry no data. *)
Record Storage := mkStorage {
  path : string;
  tempPath : string
}.

Section Storage.
Context `{JSON}.

(** The body shared by [SaveRecord] and [SaveTempRecord]: open for append,
    marshal, add the newline, write. *)
Definition append_record (name : string) (record : domain_Record) (fs : FS)
  : FS * option StorageError :=
  match os_Open fs name with
  | None => (fs, Some ErrOpen)
  | Some file =>
      match Marshal record with
      | None => (fs, Some ErrMarshal)
      | Some d =>
          let d := d ++ [LF] in
          let '(file', ok) := file_Write file d in
          (<[name := file']> fs, if ok then None else Some ErrWrite)
      end
  end.

Definition SaveRecord (s : Storage) (record : domain_Record) (fs : FS)
  : FS * option StorageError :=
  append_record (path s) record fs.

Definition SaveTempRecord (s : Storage) (record : domain_Record) (fs : FS)
  : FS * option StorageError :=
  append_record (tempPath s) record fs.

(** The loop of [LoadTempRecords]: decode until [io.EOF]; any other error
    gives up the records read so far.  [failing] says that the stream ends
    in a read failure, which the decoder reports where it would have
    reported end of file.  [None]: out of fuel. *)
Fixpoint decode_loop (fuel : nat) (st : bytes) (failing : bool)
  (records : list domain_Record)
  : option (StorageError + list domain_Record) :=
  match fuel with
  | O => None
  | S fuel' =>
      match Decode st with
      | DecodeEOF =>
          if failing then Some (inl ErrDecode) else Some (inr records)
      | DecodeErr => Some (inl ErrDecode)
      | DecodeOk rec rest => decode_loop fuel' rest failing (records ++ [rec])
      end
  end.

Definition LoadTempRecords (s : Storage) (fs : FS)
  : FS * (StorageError + list domain_Record) :=
  match os_Open fs (tempPath s) with
  | None => (fs, inl ErrOpen)
  | Some tempFile =>
      let st := stream tempFile in
      match decode_loop (S (length st)) st (stream_fails tempFile) [] with
      | Some res => (fs, res)
      | None => (fs, inl ErrDecode)
      end
  end.

(** The loop of [GetRecord] over the scanner's tokens. *)
Fixpoint scan_loop (tokens : list bytes) (id : Z) : option domain_Record :=
  match tokens with
  | [] => None
  | tok :: tokens' =>
      match Unmarshal tok with
      | None => scan_loop tokens' id
      | Some rec => if ID rec =? id then Some rec else scan_loop tokens' id
      end
  end.

Definition GetRecord (s : Storage) (id : Z) (fs : FS)
  : FS * (StorageError + domain_Record) :=
  match os_Open fs (path s) with
  | None => (fs, inl ErrOpen)
  | Some file =>
      let '(tokens, long) := Scanner (stream file) in
      match scan_loop tokens id with
      | Some rec => (fs, inr rec)
      | None =>
          if long || stream_fails file then (fs, inl ErrScan)
          else (fs, inl ErrNotFound)
      end
  end.

Definition ClearTempFile (s : Storage) (fs : FS) : FS * option StorageError :=
  match os_WriteFile_empty fs (tempPath s) with
  | Some fs' => (fs', None)
  | None => (fs, Some ErrClear)
  end.

(** The backward loop of [LoadLastLinksNum].  [n] is [pos + 1]; the result
    is the accumulated line ([None] after a failed read) and the number of
    [ReadAt] calls made. *)
Fixpoint tail_loop (file : File) (size : Z) (n : nat) (lastLine : bytes)
  (reads : nat) : option bytes * nat :=
  match n with
  | O => (Some lastLine, reads)
  | S n' =>
      let pos := Z.of_nat n' in
      match file_ReadAt file pos with
      | None => (None, S reads)
      | Some b =>
          if is_LF b && negb (pos =? size - 1)
          then (Some lastLine, S reads)
          else tail_loop file size n' (b :: lastLine) (S reads)
      end
  end.

(** [LoadLastLinksNum] with the number of [ReadAt] calls it made. *)
Definition LoadLastLinksNum_cost (s : Storage) (fs : FS) : Z * nat :=
  match os_Open fs (path s) with
  | None => (0, O)
  | Some file =>
      match file_Size file with
      | None => (0, O)
      | Some size =>
          if size =? 0 then (0, O)
          else
            match tail_loop file size (Z.to_nat size) [] O with
            | (None, reads) => (0, reads)
            | (Some lastLine, reads) =>
                match Unmarshal lastLine with
                | None => (0, reads)
                | Some rec => (ID rec, reads)
                end
            end
      end
  end.

Definition LoadLastLinksNum (s : Storage) (fs : FS) : FS * Z :=
  (fs, fst (LoadLastLinksNum_cost s fs)).

(** The backward loop once more, counting as well the bytes that
    [lastLine = append([]byte{buf[0]}, lastLine...)] writes: the new slice
    holds the byte read and a copy of the line accumulated so far. *)
Fixpoint tail_loop_work (file : File) (size : Z) (n : nat) (lastLine : bytes)
  (reads copied : nat) : option bytes * nat * nat :=
  match n with
  | O => (Some lastLine, reads, copied)
  | S n' =>
      let pos := Z.of_nat n' in
      match file_ReadAt file pos with
      | None => (None, S reads, copied)
      | Some b =>
          if is_LF b && negb (pos =? size - 1)
          then (Some lastLine, S reads, copied)
          else tail_loop_work file size n' (b :: lastLine) (S reads)
                 (copied + S (length lastLine))
      end
  end.

(** The bytes [LoadLastLinksNum] copies while it builds the last line. *)
Definition LoadLastLinksNum_copied (s : Storage) (fs : FS) : nat :=
  match os_Open fs (path s) with
  | None => O
  | Some file =>
      match file_Size file with
      | None => O
      | Some size =>
          if size =? 0 then O
          else (tail_loop_work file size (Z.to_nat size) [] O O).2
      end
  end.

(** *** Notions used to state the properties *)

(** The identifier decoded from a line, 0 when it does not decode. *)
Definition decode_ID (line : bytes) : Z :=
  match Unmarshal line with
  | Some rec => ID rec
  | None => 0
  end.

(** A record that JSON represents exactly: encoding then decoding gives it
    back. *)
Definition json_faithful (r : domain_Record) : Prop :=
  exists d, Marshal r = Some d /\ Unmarshal d = Some r.

(** The first record in token order that decodes and has the identifier, in
    the words of the specification. *)
Definition first_match (tokens : list bytes) (id : Z) : option domain_Record :=
  head (filter (fun r => ID r = id) (omap Unmarshal tokens)).

(** The stream holds an entry that the decoder rejects. *)
Inductive hits_unparsable : bytes -> Prop :=
| unparsable_here st :
    Decode st = DecodeErr -> hits_unparsable st
| unparsable_later st rec rest :
    Decode st = DecodeOk rec rest -> hits_unparsable rest ->
    hits_unparsable st.

(** Runs of saves and lookups, and of stagings. *)
Inductive Op :=
| OpSave (r : domain_Record)
| OpGet (id : Z).

Definition run_op (s : Storage) (fs : FS) (op : Op) : FS :=
  match op with
  | OpSave r => (SaveRecord s r fs).1
  | OpGet id => (GetRecord s id fs).1
  end.

Definition run_ops (s : Storage) (ops : list Op) (fs : FS) : FS :=
  foldl (run_op s) fs ops.

(** The records saved by a run, in order. *)
Definition saved (ops : list Op) : list domain_Record :=
  omap (fun op => match op with OpSave r => Some r | OpGet _ => None end) ops.

Definition stage_all (s : Storage) (rs : list domain_Record) (fs : FS) : FS :=
  foldl (fun fs r => (SaveTempRecord s r fs).1) fs rs.

(** *** Concurrent callers

    Goroutines calling the methods of one [Storage].  Every method starts
    with [s.mu.Lock()] and [defer s.mu.Unlock()]: a call waits at the lock,
    runs its body holding it, and unlocks as it returns.  [file.Write] may
    reach the file in several pieces; everything else a body does to the
    files is done in one step. *)

Inductive Call :=
| CallSaveRecord (record : domain_Record)
| CallSaveTempRecord (record : domain_Record)
| CallLoadTempRecords
| CallGetRecord (id : Z)
| CallClearTempFile
| CallLoadLastLinksNum.

Inductive Result :=
| RetError (e : option StorageError)
| RetRecords (res : StorageError + list domain_Record)
| RetRecord (res : StorageError + domain_Record)
| RetID (id : Z).

Inductive Pc :=
| AtLock                                   (* at s.mu.Lock() *)
| AtBody                                   (* the lock is held *)
| AtWrite (name : string) (pending : bytes) (* inside file.Write *)
| AtUnlock (res : Result)                  (* at the deferred Unlock *)
| Returned (res : Result).

Record Goroutine := mkGoroutine {
  call : Call;
  pc : Pc
}.

Definition holds_lock (g : Goroutine) : bool :=
  match pc g with
  | AtBody | AtWrite _ _ | AtUnlock _ => true
  | AtLock | Returned _ => false
  end.

Record Config := mkConfig {
  files : FS;
  locked : bool;
  goroutines : list Goroutine
}.

(** The body of [SaveRecord] and [SaveTempRecord] up to [file.Write]. *)
Definition begin_append (name : string) (record : domain_Record) (fs : FS)
  : Pc :=
  match os_Open fs name with
  | None => AtUnlock (RetError (Some ErrOpen))
  | Some _ =>
      match Marshal record with
      | None => AtUnlock (RetError (Some ErrMarshal))
      | Some d => AtWrite name (d ++ [LF])
      end
  end.

Definition run_body (s : Storage) (c : Call) (fs : FS) : FS * Pc :=
  match c with
  | CallSaveRecord r => (fs, begin_append (path s) r fs)
  | CallSaveTempRecord r => (fs, begin_append (tempPath s) r fs)
  | CallLoadTempRecords =>
      let '(fs', res) := LoadTempRecords s fs in (fs', AtUnlock (RetRecords res))
  | CallGetRecord id =>
      let '(fs', res) := GetRecord s id fs in (fs', AtUnlock (RetRecord res))
  | CallClearTempFile =>
      let '(fs', res) := ClearTempFile s fs in (fs', AtUnlock (RetError res))
  | CallLoadLastLinksNum =>
      let '(fs', res) := LoadLastLinksNum s fs in (fs', AtUnlock (RetID res))
  end.

(** One step of one goroutine on the files and the mutex. *)
Inductive goroutine_step (s : Storage)
  : FS * bool * Goroutine -> FS * bool * Goroutine -> Prop :=
| step_Lock fs c :
    goroutine_step s (fs, false, mkGoroutine c AtLock)
                     (fs, true, mkGoroutine c AtBody)
| step_body fs c fs' pc' :
    run_body s c fs = (fs', pc') ->
    goroutine_step s (fs, true, mkGoroutine c AtBody)
                     (fs', true, mkGoroutine c pc')
| step_Write (fs : FS) c name chunk rest f f' ok :
    chunk <> [] -> fs !! name = Some f -> file_Write f chunk = (f', ok) ->
    goroutine_step s
      (fs, true, mkGoroutine c (AtWrite name (chunk ++ rest)))
      (<[name := f']> fs, true,
       mkGoroutine c (if ok then AtWrite name rest
                      else AtUnlock (RetError (Some ErrWrite))))
| step_Write_end fs c name :
    goroutine_step s (fs, true, mkGoroutine c (AtWrite name []))
                     (fs, true, mkGoroutine c (AtUnlock (RetError None)))
| step_Unlock fs c res :
    goroutine_step s (fs, true, mkGoroutine c (AtUnlock res))
                     (fs, false, mkGoroutine c (Returned res)).

(** One step of the program: some goroutine takes a step. *)
Inductive step (s : Storage) : Config -> Config -> Prop :=
| step_goroutine c i g fs' l' g' :
    goroutines c !! i = Some g ->
    goroutine_step s (files c, locked c, g) (fs', l', g') ->
    step s c (mkConfig fs' l' (<[i := g']> (goroutines c))).

(** The calls are made, none has begun. *)
Definition start (fs : FS) (calls : list Call) : Config :=
  mkConfig fs false (map (fun c => mkGoroutine c AtLock) calls).

Definition has_returned (g : Goroutine) : Prop :=
  exists res, pc g = Returned res.

Definition all_returned (c : Config) : Prop :=
  Forall has_returned (goroutines c).

(** The number of goroutines that hold the lock. *)
Fixpoint holders (gs : list Goroutine) : nat :=
  match gs with
  | [] => O
  | g :: gs' => ((if holds_lock g then 1 else 0) + holders gs')%nat
  end.

(** The line a goroutine saves, and whether it has written it. *)
Definition line_of (g : Goroutine) : option bytes :=
  match call g with
  | CallSaveRecord r => Marshal r
  | _ => None
  end.

Definition wrote (g : Goroutine) : bool :=
  match pc g with
  | AtUnlock (RetError None) | Returned (RetError None) => true
  | _ => false
  end.

Definition written (gs : list Goroutine) : list bytes :=
  omap (fun g => if wrote g then line_of g else None) gs.

(** The step a goroutine takes next, if it can take one; a write moves
    [k + 1] bytes. *)
Definition goroutine_next (s : Storage) (k : nat)
  (x : FS * bool * Goroutine) : option (FS * bool * Goroutine) :=
  let '(fs, l, g) := x in
  match pc g with
  | AtLock =>
      if l then None else Some (fs, true, mkGoroutine (call g) AtBody)
  | AtBody =>
      if l then
        let '(fs', pc') := run_body s (call g) fs in
        Some (fs', true, mkGoroutine (call g) pc')
      else None
  | AtWrite name pending =>
      if l then
        match pending with
        | [] => Some (fs, true, mkGoroutine (call g) (AtUnlock (RetError None)))
        | _ =>
            match fs !! name with
            | Some f =>
                let '(f', ok) := file_Write f (take (S k) pending) in
                Some (<[name := f']> fs, true,
                      mkGoroutine (call g)
                        (if ok then AtWrite name (drop (S k) pending)
                         else AtUnlock (RetError (Some ErrWrite))))
            | None => None
            end
        end
      else None
  | AtUnlock res =>
      if l then Some (fs, false, mkGoroutine (call g) (Returned res)) else None
  | Returned _ => None
  end.

(** A schedule names, step by step, the goroutine that runs and the size of
    the piece it writes if it is writing. *)
Fixpoint run_schedule (s : Storage) (sched : list (nat * nat)) (c : Config)
  : option Config :=
  match sched with
  | [] => Some c
  | (i, k) :: sched' =>
      match goroutines c !! i with
      | Some g =>
          match goroutine_next s k (files c, locked c, g) with
          | Some (fs', l', g') =>
              run_schedule s sched'
                (mkConfig fs' l' (<[i := g']> (goroutines c)))
          | None => None
          end
      | None => None
      end
  end.

Definition writing (g : Goroutine) : Prop :=
  exists name pending, pc g = AtWrite name pending.

(** The mutex is locked exactly when one goroutine holds it. *)
Definition mutex_inv (c : Config) : Prop :=
  holders (goroutines c) = Nat.b2n (locked c).

(** A goroutine of a program of saves, when [partial] is what has reached
    the log of the line being written. *)
Definition good (s : Storage) (partial : bytes) (g : Goroutine) : Prop :=
  (exists r, call g = CallSaveRecord r) /\
  match pc g with
  | AtLock | AtBody => True
  | AtWrite name pending =>
      name = path s /\
      exists d, line_of g = Some d /\ partial ++ pending = d ++ [LF]
  | AtUnlock res | Returned res => res = RetError None
  end.

(** The log of a program of saves: the lines of the goroutines that have
    written, in some order, then the part written of the line in progress. *)
Definition saves_inv (s : Storage) (c : Config) : Prop :=
  mutex_inv c /\
  exists ds partial,
    files c !! path s = Some (plain_file (join_lines ds ++ partial)) /\
    ds ≡ₚ written (goroutines c) /\
    Forall (good s partial) (goroutines c) /\
    (partial = [] \/ Exists writing (goroutines c)).

End Storage.

(** ** The constructor [New] *)

(** [Config] of package [filesystem]. *)
Record filesystem_Config := mkFilesystemConfig {
  DirPath : string;
  FileName : string;
  TempFileName : string
}.

Inductive NewError :=
| ErrCreateDir        (* "failed to create dir" *)
| ErrCreateFile       (* "failed to create file" *)
| ErrCreateTempFile.  (* "failed to create temp file" *)

(** [os.OpenFile(name, O_CREATE|O_WRONLY|O_APPEND, 0644)] followed by the
    deferred [Close]: an existing file is opened and left as it is, a missing
    one is created empty unless the system refuses ([create_fails]). *)
Definition os_OpenFile_create (create_fails : bool) (fs : FS) (name : string)
  : option FS :=
  match fs !! name with
  | Some f => if open_err f then None else Some fs
  | None => if create_fails then None else Some (<[name := plain_file []]> fs)
  end.

Section New.

(** [filepath.Join] of the standard library. *)
Variable Join : string -> string -> string.

(** [New].  Directories are not part of the file system modelled here:
    [mkdir_fails] says whether [os.MkdirAll] fails, [create_fails] at which
    paths a file cannot be created. *)
Definition New (cfg : filesystem_Config) (mkdir_fails : bool)
  (create_fails : string -> bool) (fs : FS) : FS * (NewError + Storage) :=
  if mkdir_fails then (fs, inl ErrCreateDir)
  else
    let filePath := Join (DirPath cfg) (FileName cfg) in
    let tempFilePath := Join (DirPath cfg) (TempFileName cfg) in
    match os_OpenFile_create (create_fails filePath) fs filePath with
    | None => (fs, inl ErrCreateFile)
    | Some fs1 =>
        match os_OpenFile_create (create_fails tempFilePath) fs1 tempFilePath
        with
        | None => (fs1, inl ErrCreateTempFile)
        | Some fs2 => (fs2, inr (mkStorage filePath tempFilePath))
        end
    end.

End New.

(** ** The handler [GetLinks] *)

(** The calls the handler makes on the PDF document, in order. *)
Inductive PdfCmd :=
| PdfAddPage
| PdfSetFont (family style : string) (size : Z)
| PdfCellFormat (w h : Z) (txt : string) (ln : Z)
| PdfLn (h : Z).

(** [strconv.FormatInt(i, 10)]. *)
Definition FormatInt (i : Z) : string :=
  NilZero.string_of_int (Z.to_int i).

Definition record_title (rec : domain_Record) : PdfCmd :=
  PdfCellFormat 0 8 ("Record: " +:+ FormatInt (ID rec)) 1.

Definition link_cell (kv : string * string) : PdfCmd :=
  PdfCellFormat 0 6 (kv.1 +:+ ": " +:+ kv.2) 1.

(** [for link, status := range rec.Links]: Go ranges over a map in an order
    of its own choosing. *)
Inductive links_cells (m : gmap string string) : list PdfCmd -> Prop :=
| links_cells_intro kvs :
    kvs ≡ₚ map_to_list m -> links_cells m (map link_cell kvs).

Inductive Response :=
| RespError (code : Z) (msg : string)
| RespPdf (headers : list (string * string)) (doc : list PdfCmd).

Definition pdf_headers : list (string * string) :=
  [("Content-Type", "application/pdf");
   ("Content-Disposition", "attachment; filename=records.pdf")]%string.

(** The texts of the record titles of a document. *)
Definition titles (doc : list PdfCmd) : list string :=
  omap (fun c => match c with
                 | PdfCellFormat 0 8 txt _ => Some txt
                 | _ => None
                 end) doc.

Section GetLinks.

(** The handler is given a [repository.Repository] and uses its [GetRecord]
    only: a repository in state [R] whose lookups return a record or fail
    with an error of type [E], as [GetRecord] of the storage does.  The
    handler reads the record whenever the error is nil, so a repository that
    returned neither is not one it can be given. *)
Context {R E : Type}.
Variable repo_GetRecord : Z -> R -> R * (E + domain_Record).

(** [json.NewDecoder(r.Body).Decode(&reqLinks)]: the field [links_list] of
    the decoded request, or an error. *)
Variable DecodeRequest : bytes -> option (list Z).

(** The loop over the requested identifiers: a record that cannot be got is
    passed over. *)
Inductive render_records : R -> list Z -> list PdfCmd -> R -> Prop :=
| render_nil st : render_records st [] [] st
| render_skip st id ids e st1 doc st2 :
    repo_GetRecord id st = (st1, inl e) ->
    render_records st1 ids doc st2 ->
    render_records st (id :: ids) doc st2
| render_record st id ids rec st1 cells doc st2 :
    repo_GetRecord id st = (st1, inr rec) ->
    links_cells (Links rec) cells ->
    render_records st1 ids doc st2 ->
    render_records st (id :: ids)
      (record_title rec :: cells ++ PdfLn 4 :: doc) st2.

(** The same loop with the links of each record in the order of
    [map_to_list]. *)
Fixpoint render_in_order (st : R) (ids : list Z) : list PdfCmd * R :=
  match ids with
  | [] => ([], st)
  | id :: ids' =>
      match repo_GetRecord id st with
      | (st1, inl _) => render_in_order st1 ids'
      | (st1, inr rec) =>
          let '(doc, st2) := render_in_order st1 ids' in
          (record_title rec :: map link_cell (map_to_list (Links rec)) ++
           PdfLn 4 :: doc, st2)
      end
  end.

(** The records the lookups of a request return, in the order of the
    request. *)
Fixpoint found_records (st : R) (ids : list Z) : list domain_Record :=
  match ids with
  | [] => []
  | id :: ids' =>
      match repo_GetRecord id st with
      | (st1, inl _) => found_records st1 ids'
      | (st1, inr rec) => rec :: found_records st1 ids'
      end
  end.

(** The handler: the response to a request with the given body. *)
Inductive GetLinks (st : R) (body : bytes) : Response -> R -> Prop :=
| GetLinks_bad_body :
    DecodeRequest body = None ->
    GetLinks st body (RespError 400 "cannot decode body") st
| GetLinks_pdf ids doc st' :
    DecodeRequest body = Some ids ->
    render_records st ids doc st' ->
    GetLinks st body
      (RespPdf pdf_headers (PdfAddPage :: PdfSetFont "Arial" "" 12 :: doc))
      st'.

End GetLinks.

(** The identifiers that a lookup in the storage finds. *)
Definition is_found `{JSON} (s : Storage) (fs : FS) (id : Z) : bool :=
  match (GetRecord s id fs).2 with
  | inr _ => true
  | inl _ => false
  end.

(** ** A reference JSON codec

    An encoder and a decoder for the line format
    [{"id":<integer>,"links":{<url>:<status>,...}}], used to instantiate the
    class [JSON]: keys sorted, strings quoted with control bytes, the quote
    and the backslash written as [\u00XY], no white space. *)

Module RefJSON.

Definition DQ : byte := Byte.x22.
Definition BS : byte := Byte.x5c.

Definition lit_id : bytes := [x7b; DQ; x69; x64; DQ; x3a].
Definition lit_links : bytes := [x2c; DQ; x6c; x69; x6e; x6b; x73; DQ; x3a].
Definition COLON : byte := Byte.x3a.
Definition COMMA : byte := Byte.x2c.
Definition LBRACE : byte := Byte.x7b.
Definition RBRACE : byte := Byte.x7d.
Definition MINUS : byte := Byte.x2d.

Definition printable (b : byte) : bool := (32 <=? Byte.to_N b)%N.

Definition plain (b : byte) : bool :=
  printable b && negb (Byte.eqb b DQ) && negb (Byte.eqb b BS).

Definition hex_digit (n : N) : byte :=
  match n with
  | 0 => x30 | 1 => x31 | 2 => x32 | 3 => x33 | 4 => x34 | 5 => x35
  | 6 => x36 | 7 => x37 | 8 => x38 | 9 => x39 | 10 => x61 | 11 => x62
  | 12 => x63 | 13 => x64 | 14 => x65 | _ => x66
  end%N.

Definition unhex (b : byte) : option N :=
  match b with
  | x30 => Some 0 | x31 => Some 1 | x32 => Some 2 | x33 => Some 3
  | x34 => Some 4 | x35 => Some 5 | x36 => Some 6 | x37 => Some 7
  | x38 => Some 8 | x39 => Some 9 | x61 => Some 10 | x62 => Some 11
  | x63 => Some 12 | x64 => Some 13 | x65 => Some 14 | x66 => Some 15
  | _ => None
  end%N.

Definition escape_byte (b : byte) : bytes :=
  if plain b then [b]
  else [BS; x75; x30; x30;
        hex_digit (Byte.to_N b / 16); hex_digit (Byte.to_N b mod 16)].

Definition unescape (h l : byte) : option byte :=
  match unhex h, unhex l with
  | Some a, Some c => Byte.of_N (16 * a + c)
  | _, _ => None
  end.

Definition encode_string (s : string) : bytes :=
  DQ :: flat_map escape_byte (list_byte_of_string s) ++ [DQ].

(** The bytes of a string literal after its opening quote, and the rest. *)
Fixpoint parse_chars (s : bytes) : option (bytes * bytes) :=
  match s with
  | [] => None
  | b :: s' =>
      if Byte.eqb b DQ then Some ([], s')
      else if Byte.eqb b BS then
        match s' with
        | u :: z1 :: z2 :: h :: l :: s'' =>
            if Byte.eqb u x75 && Byte.eqb z1 x30 && Byte.eqb z2 x30 then
              match unescape h l, parse_chars s'' with
              | Some c, Some (cs, rest) => Some (c :: cs, rest)
              | _, _ => None
              end
            else None
        | _ => None
        end
      else if printable b then
        match parse_chars s' with
        | Some (cs, rest) => Some (b :: cs, rest)
        | None => None
        end
      else None
  end.

Definition parse_string (s : bytes) : option (string * bytes) :=
  match s with
  | b :: s' =>
      if Byte.eqb b DQ then
        match parse_chars s' with
        | Some (cs, rest) => Some (string_of_list_byte cs, rest)
        | None => None
        end
      else None
  | [] => None
  end.

Definition encode_int (z : Z) : bytes :=
  list_byte_of_string (NilZero.string_of_int (Z.to_int z)).

Definition is_digit (b : byte) : bool :=
  (48 <=? Byte.to_N b)%N && (Byte.to_N b <=? 57)%N.

Fixpoint span_digits (s : bytes) : bytes * bytes :=
  match s with
  | b :: s' =>
      if is_digit b
      then let '(ds, rest) := span_digits s' in (b :: ds, rest)
      else ([], s)
  | [] => ([], [])
  end.

Definition parse_int (s : bytes) : option (Z * bytes) :=
  let '(sign, s1) :=
    match s with
    | b :: s' => if Byte.eqb b MINUS then ([b], s') else ([], s)
    | [] => ([], s)
    end in
  let '(ds, rest) := span_digits s1 in
  match NilZero.int_of_string (string_of_list_byte (sign ++ ds)) with
  | Some d => let z := Z.of_int d in if int64b z then Some (z, rest) else None
  | None => None
  end.

Definition encode_entry (kv : string * string) : bytes :=
  encode_string kv.1 ++ COLON :: encode_string kv.2.

Fixpoint encode_entries (kvs : list (string * string)) : bytes :=
  match kvs with
  | [] => []
  | [kv] => encode_entry kv
  | kv :: rest => encode_entry kv ++ COMMA :: encode_entries rest
  end.

(** The entries of an object from its first key to its closing brace. *)
Fixpoint parse_entries (fuel : nat) (s : bytes)
  : option (list (string * string) * bytes) :=
  match fuel with
  | O => None
  | S fuel' =>
      match parse_string s with
      | Some (k, c :: s2) =>
          if Byte.eqb c COLON then
            match parse_string s2 with
            | Some (v, d :: s4) =>
                if Byte.eqb d COMMA then
                  match parse_entries fuel' s4 with
                  | Some (kvs, rest) => Some ((k, v) :: kvs, rest)
                  | None => None
                  end
                else if Byte.eqb d RBRACE then Some ([(k, v)], s4)
                else None
            | _ => None
            end
          else None
      | _ => None
      end
  end.

Definition parse_object (s : bytes) : option (list (string * string) * bytes) :=
  match s with
  | b :: (c :: s'') as s' =>
      if Byte.eqb b LBRACE then
        if Byte.eqb c RBRACE then Some ([], s'')
        else parse_entries (length s') s'
      else None
  | _ => None
  end.

Fixpoint expect (lit s : bytes) : option bytes :=
  match lit with
  | [] => Some s
  | c :: lit' =>
      match s with
      | b :: s' => if Byte.eqb b c then expect lit' s' else None
      | [] => None
      end
  end.

(** Keys in increasing order, as [json.Marshal] writes a map. *)
Definition key_le (a b : string * string) : Prop :=
  String.leb a.1 b.1 = true.

Global Instance key_le_dec a b : Decision (key_le a b).
Proof. unfold key_le. apply _. Defined.

Definition sorted_entries (m : gmap string string) : list (string * string) :=
  merge_sort key_le (map_to_list m).

Definition encode_record (r : domain_Record) : bytes :=
  lit_id ++ encode_int (ID r) ++ lit_links ++
  LBRACE :: encode_entries (sorted_entries (Links r)) ++ [RBRACE; RBRACE].

(** A later duplicate of a key wins, as in [json.Unmarshal]. *)
Definition parse_record (s : bytes) : option (domain_Record * bytes) :=
  match expect lit_id s with
  | None => None
  | Some s1 =>
      match parse_int s1 with
      | None => None
      | Some (id, s2) =>
          match expect lit_links s2 with
          | None => None
          | Some s3 =>
              match parse_object s3 with
              | None => None
              | Some (kvs, s4) =>
                  match expect [RBRACE] s4 with
                  | None => None
                  | Some rest =>
                      Some (mkRecord id (list_to_map (reverse kvs)), rest)
                  end
              end
          end
      end
  end.

Definition is_ws (b : byte) : bool :=
  Byte.eqb b x20 || Byte.eqb b x09 || Byte.eqb b LF || Byte.eqb b CR.

Fixpoint skip_ws (s : bytes) : bytes :=
  match s with
  | b :: s' => if is_ws b then skip_ws s' else s
  | [] => []
  end.

Definition marshal (r : domain_Record) : option bytes :=
  Some (encode_record r).

Definition unmarshal (s : bytes) : option domain_Record :=
  match parse_record (skip_ws s) with
  | Some (r, rest) => if forallb is_ws rest then Some r else None
  | None => None
  end.

Definition decode (s : bytes) : DecodeResult :=
  match skip_ws s with
  | [] => DecodeEOF
  | s' =>
      match parse_record s' with
      | Some (r, rest) => DecodeOk r rest
      | None => DecodeErr
      end
  end.

End RefJSON.

(** The reference codec as the JSON library. *)
#[export] Instance RefCodec : JSON := {|
  Marshal := RefJSON.marshal;
  Unmarshal := RefJSON.unmarshal;
  Decode := RefJSON.decode
|}.

(** ** Scenarios on the reference codec *)

Module Scenario.
Import RefJSON.

Definition st : Storage := mkStorage "links.log" "links.tmp".

Definition rec1 : domain_Record :=
  mkRecord 1 {[ "http://a"%string := "ok"%string ]}.

Definition rec2 : domain_Record := mkRecord 2 ∅.

Definition rec3 : domain_Record :=
  mkRecord (-7) {[ "b"%string := "x<y"%string; "a"%string := "404"%string ]}.

(** A record whose URL is not ASCII (UTF-8 bytes of a Cyrillic host). *)
Definition rec4 : domain_Record :=
  mkRecord 4 {[ string_of_list_byte
                  [x68; x74; x74; x70; x3a; x2f; x2f; xd0; xbf; xd1; x80;
                   xd0; xb8; xd0; xbc; xd0; xb5; xd1; x80]
                := "200"%string ]}.

(** The state after [New]: both files exist and are empty. *)
Definition fs0 : FS :=
  {[ "links.log"%string := plain_file []; "links.tmp"%string := plain_file [] ]}.

Definition log_fs (d : bytes) : FS :=
  {[ "links.log"%string := plain_file d; "links.tmp"%string := plain_file [] ]}.

Definition temp_fs (d : bytes) : FS :=
  {[ "links.log"%string := plain_file []; "links.tmp"%string := plain_file d ]}.

(** A record with one link whose URL is 65536 bytes long. *)
Definition long_url : string :=
  string_of_list_byte (repeat x61 (Z.to_nat 65536)).

Definition long_rec : domain_Record :=
  mkRecord 1 {[ long_url := "ok"%string ]}.

(** The log after saving [long_rec], and after saving [rec2] as well. *)
Definition fs_long : FS := (SaveRecord st long_rec fs0).1.
Definition fs_long2 : FS := (SaveRecord st rec2 fs_long).1.

(** A line that is not JSON. *)
Definition garbage : bytes := [x7b; x22; x69; x64; x22; x3a; x31; x2c].

(** A staging file that holds garbage and fails at [Stat], at reads beyond its
    first byte, and at writes. *)
Definition bad_temp : File :=
  {| data := garbage; open_err := false; stat_err := true;
     read_err := Some 1%nat; read_err_later := fun _ => true;
     write_room := Some 0%nat |}.

Definition fs_bad_temp : FS :=
  {[ "links.log"%string := plain_file []; "links.tmp"%string := bad_temp ]}.

Definition two_lines : bytes :=
  join_lines [encode_record rec1; encode_record rec2].

Definition mixed_log : bytes :=
  join_lines [encode_record rec1] ++ garbage ++ LF :: join_lines [encode_record rec2].

Definition clean_log : bytes :=
  join_lines [encode_record rec1] ++ join_lines [encode_record rec2].

(** Two goroutines save [rec1] and [rec2].  The second takes the lock first
    and writes its line in three pieces; the first follows. *)
Definition two_saves : list Call := map CallSaveRecord [rec1; rec2].

Definition sched2 : list (nat * nat) :=
  [(1, 0); (1, 0); (1, 4); (1, 9); (1, 1000); (1, 0); (1, 0);
   (0, 0); (0, 0); (0, 1000); (0, 0); (0, 0)]%nat.

Definition after_two_saves : Config :=
  default (start fs0 two_saves)
    (run_schedule st sched2 (start fs0 two_saves)).

(** A log with room for five more bytes, and the log a retried save of
    [rec2] is appended to once there is room again. *)
Definition full_log : File :=
  {| data := join_lines [encode_record rec1]; open_err := false;
     stat_err := false; read_err := None; read_err_later := fun _ => false;
     write_room := Some 5%nat |}.

Definition fs_full : FS :=
  {[ "links.log"%string := full_log; "links.tmp"%string := plain_file [] ]}.

Definition torn_log : bytes :=
  join_lines [encode_record rec1] ++ take 5 (encode_record rec2).

(** A staging file with two records of which only the first can be read. *)
Definition unreadable_temp : File :=
  {| data := two_lines; open_err := false; stat_err := false;
     read_err := Some (length (join_lines [encode_record rec1]));
     read_err_later := fun _ => true; write_room := None |}.

Definition fs_unreadable_temp : FS :=
  {[ "links.log"%string := plain_file [];
     "links.tmp"%string := unreadable_temp ]}.

(** A log whose second line is as long as the scanner's limit. *)
Definition long_line : bytes := repeat x61 (Z.to_nat 65536).

Definition hidden_log : bytes :=
  join_lines [encode_record rec1] ++ long_line ++
  LF :: join_lines [encode_record rec2].

(** A log of two records in whose last line one byte cannot be read; the
    final byte and all the others can. *)
Definition unreadable_log : File :=
  {| data := two_lines; open_err := false; stat_err := false;
     read_err := Some (length two_lines - 3)%nat;
     read_err_later := fun _ => false; write_room := None |}.

Definition fs_unreadable_log : FS :=
  {[ "links.log"%string := unreadable_log;
     "links.tmp"%string := plain_file [] ]}.

(** A log of two records where a byte of the first cannot be read. *)
Definition scratched_log : File :=
  {| data := two_lines; open_err := false; stat_err := false;
     read_err := Some 3%nat; read_err_later := fun _ => false;
     write_room := None |}.

Definition fs_scratched_log : FS :=
  {[ "links.log"%string := scratched_log;
     "links.tmp"%string := plain_file [] ]}.

(** Two logs of one line that is not JSON, of 10 and of 100 bytes. *)
Definition line10 : bytes := repeat x61 9 ++ [LF].
Definition line100 : bytes := repeat x61 99 ++ [LF].

(** The staging log is missing. *)
Definition fs_no_temp : FS := {[ "links.log"%string := plain_file two_lines ]}.

(** Another record with the identifier of [rec1]. *)
Definition rec1b : domain_Record :=
  mkRecord 1 {[ "http://b"%string := "down"%string ]}.

(** The record log is missing; one goroutine clears the staging log, then
    another saves. *)
Definition fs_no_log : FS := {[ "links.tmp"%string := plain_file two_lines ]}.

Definition clear_and_save : list Call := [CallClearTempFile; CallSaveRecord rec1].

Definition sched3 : list (nat * nat) :=
  [(0, 0); (0, 0); (0, 0); (1, 0); (1, 0); (1, 0)]%nat.

Definition after_clear_and_save : Config :=
  default (start fs_no_log clear_and_save)
    (run_schedule st sched3 (start fs_no_log clear_and_save)).

(** The two saves of [sched2] on a log that holds a line already. *)
Definition log3 : bytes := join_lines [encode_record rec3].

Definition after_two_more : Config :=
  default (start (log_fs log3) two_saves)
    (run_schedule st sched2 (start (log_fs log3) two_saves)).

(** [filepath.Join] on a directory and a file name that need no cleaning. *)
Definition Join (dir name : string) : string := dir +:+ "/" +:+ name.

Definition cfg0 : filesystem_Config :=
  mkFilesystemConfig "data" "links.log" "links.tmp".

Definition st0 : Storage := mkStorage "data/links.log" "data/links.tmp".

(** A disk with a file of its own, and one on which both logs exist. *)
Definition fs_other : FS := {[ "notes.txt"%string := plain_file garbage ]}.

Definition fs_used : FS :=
  {[ "data/links.log"%string := plain_file two_lines;
     "data/links.tmp"%string := plain_file log3 ]}.

(** A decoder of request bodies in their compact form,
    [{links_list:[2,9,1,2]}] with the key quoted. *)
Definition lit_links_list : bytes :=
  [x7b; DQ; x6c; x69; x6e; x6b; x73; x5f; x6c; x69; x73; x74; DQ; x3a; x5b].

Definition RBRACKET : byte := Byte.x5d.

Fixpoint parse_ids (fuel : nat) (s : bytes) : option (list Z) :=
  match fuel with
  | O => None
  | S fuel' =>
      match parse_int s with
      | Some (z, c :: rest) =>
          if Byte.eqb c COMMA then
            match parse_ids fuel' rest with
            | Some zs => Some (z :: zs)
            | None => None
            end
          else if Byte.eqb c RBRACKET then
            match rest with
            | [b] => if Byte.eqb b RBRACE then Some [z] else None
            | _ => None
            end
          else None
      | _ => None
      end
  end.

Definition request_ids (body : bytes) : option (list Z) :=
  match expect lit_links_list body with
  | Some s =>
      match expect [RBRACKET; RBRACE] s with
      | Some [] => Some []
      | _ => parse_ids (length s) s
      end
  | None => None
  end.

Definition request_body : bytes :=
  lit_links_list ++ list_byte_of_string "2,9,1,2]}".

End Scenario.

(** * Properties *)

(** ** Bytes and lines *)

Lemma is_LF_true b : is_LF b = true <-> b = LF.
Proof.
  unfold is_LF. split; [apply Byte.byte_dec_bl | apply Byte.byte_dec_lb].
Qed.

Lemma is_LF_false b : is_LF b = false <-> b <> LF.
Proof.
  rewrite <- is_LF_true. destruct (is_LF b); split; congruence.
Qed.

Lemma is_CR_true b : is_CR b = true <-> b = CR.
Proof.
  unfold is_CR. split; [apply Byte.byte_dec_bl | apply Byte.byte_dec_lb].
Qed.

Lemma join_lines_app ls1 ls2 :
  join_lines (ls1 ++ ls2) = join_lines ls1 ++ join_lines ls2.
Proof. unfold join_lines. apply flat_map_app. Qed.

Lemma join_lines_snoc ls l :
  join_lines (ls ++ [l]) = join_lines ls ++ l ++ [LF].
Proof. rewrite join_lines_app. simpl. by rewrite app_nil_r. Qed.

Lemma join_lines_cons l ls :
  join_lines (l :: ls) = l ++ LF :: join_lines ls.
Proof. unfold join_lines. simpl. by rewrite <- app_assoc. Qed.

(** A log of closed lines is empty or ends in a newline. *)
Lemma join_lines_end ls :
  join_lines ls = [] \/ exists pre, join_lines ls = pre ++ [LF].
Proof.
  destruct ls as [|l ls _] using rev_ind; [by left | right].
  rewrite join_lines_snoc. exists (join_lines ls ++ l).
  by rewrite app_assoc.
Qed.

Lemma dropCR_no_CR l :
  Forall (fun b => b <> LF /\ b <> CR) l -> dropCR l = l.
Proof.
  induction 1 as [|b l [_ Hb] Hl IH]; [done |].
  simpl. destruct l as [|c l].
  - destruct (is_CR b) eqn:E; [by apply is_CR_true in E | done].
  - by rewrite IH.
Qed.

Lemma dropCR_length l : (length (dropCR l) <= length l)%nat.
Proof.
  induction l as [|b [|c l] IH]; simpl in *; [lia | | lia].
  destruct (is_CR b); simpl; lia.
Qed.

(** ** The scanner *)

Lemma split_lines_not_nil s : split_lines s <> [].
Proof.
  destruct s as [|b s]; simpl; [done |].
  destruct (is_LF b); [done |]. by destruct (split_lines s).
Qed.

Lemma split_lines_line l rest :
  no_LF l -> split_lines (l ++ LF :: rest) = l :: split_lines rest.
Proof.
  induction 1 as [|b l Hb Hl IH]; simpl.
  - done.
  - rewrite (proj2 (is_LF_false b) Hb), IH. done.
Qed.

Lemma split_lines_last l : no_LF l -> split_lines l = [l].
Proof.
  induction 1 as [|b l Hb Hl IH]; simpl; [done |].
  by rewrite (proj2 (is_LF_false b) Hb), IH.
Qed.

Lemma scan_tokens_cons seg segs :
  segs <> [] ->
  scan_tokens (seg :: segs) =
    if fits seg
    then let '(toks, long) := scan_tokens segs in (dropCR seg :: toks, long)
    else ([], true).
Proof. destruct segs; [done |]. reflexivity. Qed.

Lemma Scanner_nil : Scanner [] = ([], false).
Proof. reflexivity. Qed.

(** One call of [Scan] on a stream that starts with a line that fits. *)
Lemma Scanner_line l rest :
  no_LF l -> fits l = true ->
  Scanner (l ++ LF :: rest) = (dropCR l :: (Scanner rest).1, (Scanner rest).2).
Proof.
  intros Hl Hfit. unfold Scanner. rewrite split_lines_line by done.
  rewrite scan_tokens_cons by apply split_lines_not_nil.
  rewrite Hfit. by destruct (scan_tokens (split_lines rest)).
Qed.

(** A line that does not fit ends the scan with [ErrTooLong]. *)
Lemma Scanner_too_long l rest :
  no_LF l -> fits l = false -> Scanner (l ++ LF :: rest) = ([], true).
Proof.
  intros Hl Hfit. unfold Scanner. rewrite split_lines_line by done.
  rewrite scan_tokens_cons by apply split_lines_not_nil.
  by rewrite Hfit.
Qed.

Lemma Scanner_join ls rest :
  Forall no_LF ls -> Forall (fun l => fits l = true) ls ->
  Scanner (join_lines ls ++ rest) =
    (map dropCR ls ++ (Scanner rest).1, (Scanner rest).2).
Proof.
  intros Hls Hfit. induction Hls as [|l ls Hl Hls IH]; simpl.
  - by destruct (Scanner rest).
  - apply Forall_cons in Hfit as [Hf Hfit].
    rewrite <- !app_assoc. simpl.
    rewrite Scanner_line by done. rewrite IH by done. done.
Qed.

Lemma Scanner_join_nil ls :
  Forall no_LF ls -> Forall (fun l => fits l = true) ls ->
  Scanner (join_lines ls) = (map dropCR ls, false).
Proof.
  intros Hls Hfit.
  rewrite <- (app_nil_r (join_lines ls)), Scanner_join by done.
  simpl. by rewrite app_nil_r.
Qed.

Lemma until_LF_split l :
  exists rem, l = until_LF l ++ rem /\ no_LF (until_LF l) /\
              (rem = [] \/ exists rem', rem = LF :: rem').
Proof.
  induction l as [|c l (rem & Hl & Hno & Hrem)]; simpl.
  - exists []. repeat split; [constructor | by left].
  - destruct (is_LF c) eqn:E.
    + apply is_LF_true in E as ->. exists (LF :: l).
      repeat split; [constructor | right; by exists l].
    + apply is_LF_false in E. exists rem. repeat split.
      * simpl. by rewrite <- Hl.
      * by constructor.
      * done.
Qed.

(** [last_line d] is the end of [d], holds no newline before its final byte,
    and is preceded by nothing or by a newline. *)
Lemma last_line_split d :
  d <> [] ->
  exists pre body b,
    d = pre ++ body ++ [b] /\ last_line d = body ++ [b] /\ no_LF body /\
    (pre = [] \/ exists pre', pre = pre' ++ [LF]).
Proof.
  intros Hd. unfold last_line.
  destruct (reverse d) as [|b rbody] eqn:E.
  - apply (f_equal reverse) in E. rewrite reverse_involutive in E. done.
  - destruct (until_LF_split rbody) as (rem & Hl & Hno & Hrem).
    exists (reverse rem), (reverse (until_LF rbody)), b.
    repeat split.
    + apply (f_equal reverse) in E. rewrite reverse_involutive in E.
      rewrite E, reverse_cons, Hl at 1. rewrite reverse_app.
      by rewrite <- app_assoc.
    + unfold no_LF. rewrite Forall_reverse. done.
    + destruct Hrem as [-> | [rem' ->]]; [by left | right].
      exists (reverse rem'). by rewrite reverse_cons.
Qed.

Lemma last_line_nil : last_line [] = [].
Proof. reflexivity. Qed.

(** The decomposition determines the last line. *)
Lemma last_line_unique pre body b :
  no_LF body -> (pre = [] \/ exists pre', pre = pre' ++ [LF]) ->
  last_line (pre ++ body ++ [b]) = body ++ [b].
Proof.
  intros Hno Hpre. unfold last_line.
  rewrite app_assoc, reverse_app. simpl.
  rewrite reverse_app. f_equal.
  assert (Hu : forall l rest,
    no_LF l -> (rest = [] \/ exists r', rest = LF :: r') ->
    until_LF (l ++ rest) = l).
  { clear. intros l rest Hl Hr. induction Hl as [|c l Hc Hl IH]; simpl.
    - destruct Hr as [-> | [r' ->]]; [done |]. simpl. done.
    - by rewrite (proj2 (is_LF_false c) Hc), IH. }
  rewrite Hu.
  - by rewrite reverse_involutive.
  - unfold no_LF. by rewrite Forall_reverse.
  - destruct Hpre as [-> | [pre' ->]]; [by left | right].
    exists (reverse pre'). by rewrite reverse_app.
Qed.

(** ** The backward loop *)

Lemma file_ReadAt_ok f (n : nat) :
  read_fails_at f n = false -> file_ReadAt f (Z.of_nat n) = data f !! n.
Proof.
  unfold file_ReadAt. intros Hok.
  destruct (Z.ltb_spec (Z.of_nat n) 0); [lia |]. by rewrite Nat2Z.id, Hok.
Qed.

Lemma read_fails_at_None f n : read_err f = None -> read_fails_at f n = false.
Proof. unfold read_fails_at. by intros ->. Qed.

Lemma file_ReadAt_plain f (n : nat) :
  read_err f = None -> file_ReadAt f (Z.of_nat n) = data f !! n.
Proof. intros Hr. by apply file_ReadAt_ok, read_fails_at_None. Qed.

Lemma file_ReadAt_data f (n : nat) b :
  file_ReadAt f (Z.of_nat n) = Some b -> data f !! n = Some b.
Proof.
  unfold file_ReadAt. destruct (Z.of_nat n <? 0); [done |].
  destruct (read_fails_at f _); [done |]. by rewrite Nat2Z.id.
Qed.

Lemma file_ReadAt_is_Some f (n : nat) :
  read_fails_at f n = false -> (n < length (data f))%nat ->
  is_Some (file_ReadAt f (Z.of_nat n)).
Proof.
  intros Hok Hn. rewrite file_ReadAt_ok by done. by apply lookup_lt_is_Some.
Qed.

(** The loop with its counters runs as the loop without them. *)
Lemma tail_loop_work_loop f size n :
  forall acc k c,
    (tail_loop_work f size n acc k c).1 = tail_loop f size n acc k.
Proof.
  induction n as [|n IH]; intros acc k c; cbn [tail_loop_work tail_loop];
    [done |].
  destruct (file_ReadAt f (Z.of_nat n)) as [b|]; [| done].
  destruct (is_LF b && negb (Z.of_nat n =? size - 1)); [done |].
  apply IH.
Qed.

(** The loop walks backward over every byte that is not a newline, and over
    the final byte whatever it is, when it can read them; each step copies
    the line accumulated so far and one byte more. *)
Lemma tail_loop_work_run f size mid :
  forall pre acc k c,
    (forall i, (length pre <= i < length pre + length mid)%nat ->
       read_fails_at f i = false) ->
    data f = pre ++ mid ++ acc ->
    (forall i b, mid !! i = Some b ->
       b <> LF \/ Z.of_nat (length pre + i) = size - 1) ->
    exists c',
      tail_loop_work f size (length pre + length mid) acc k c =
        tail_loop_work f size (length pre) (mid ++ acc) (k + length mid) c' /\
      (2 * c' =
       2 * c + length mid * (2 * length acc + length mid + 1))%nat.
Proof.
  induction mid as [|b mid IH] using rev_ind; intros pre acc k c Hr Hd Hmid.
  - exists c. cbn [length app]. rewrite !Nat.add_0_r. split; [done | lia].
  - rewrite length_app. cbn [length].
    replace (length pre + (length mid + 1))%nat
      with (S (length pre + length mid)) by lia.
    cbn [tail_loop_work].
    rewrite file_ReadAt_ok by (apply Hr; rewrite length_app; cbn; lia).
    assert (Hb : data f !! (length pre + length mid)%nat = Some b).
    { rewrite Hd. rewrite <- app_assoc. simpl. rewrite app_assoc.
      apply list_lookup_middle. by rewrite length_app. }
    rewrite Hb.
    assert (Hc : is_LF b &&
                 negb (Z.of_nat (length pre + length mid) =? size - 1) = false).
    { destruct (Hmid (length mid) b) as [Hne | He].
      - by rewrite lookup_app_r, Nat.sub_diag by lia.
      - by rewrite (proj2 (is_LF_false b) Hne).
      - rewrite He, Z.eqb_refl. apply andb_false_r. }
    rewrite Hc.
    destruct (IH pre (b :: acc) (S k) (c + S (length acc))%nat)
      as (c' & Hrun & Hc').
    + intros i Hi. apply Hr. rewrite length_app. cbn. lia.
    + by rewrite Hd, <- !app_assoc.
    + intros i c0 Hi. apply Hmid. by apply lookup_app_l_Some.
    + exists c'. split.
      * rewrite Hrun, <- !app_assoc. cbn [app]. f_equal. lia.
      * cbn [length] in Hc'. nia.
Qed.

(** The loop stops at a newline that is not the final byte. *)
Lemma tail_loop_work_stop f size pre acc k c :
  read_fails_at f (length pre) = false ->
  data f = pre ++ LF :: acc ->
  Z.of_nat (length pre) <> size - 1 ->
  tail_loop_work f size (S (length pre)) acc k c = (Some acc, S k, c).
Proof.
  intros Hr Hd Hne. cbn [tail_loop_work]. rewrite file_ReadAt_ok by done.
  rewrite Hd, lookup_app_r, Nat.sub_diag by lia. simpl.
  destruct (Z.eqb_spec (Z.of_nat (length pre)) (size - 1)); [done |].
  reflexivity.
Qed.

(** What the loop accumulates when it can read the last line and the
    newline before it, in how many reads, and with how many bytes copied. *)
Lemma tail_loop_work_last_line f pre body b :
  (forall i, (length pre - 1 <= i < length (data f))%nat ->
     read_fails_at f i = false) ->
  no_LF body ->
  data f = pre ++ body ++ [b] ->
  (pre = [] \/ exists pre', pre = pre' ++ [LF]) ->
  exists c,
    tail_loop_work f (Z.of_nat (length (data f))) (length (data f)) [] O O =
      (Some (body ++ [b]),
       (length (body ++ [b]) + if decide (pre = []) then 0 else 1)%nat, c) /\
    (2 * c = length (body ++ [b]) * (length (body ++ [b]) + 1))%nat.
Proof.
  intros Hr Hno Hd Hpre.
  assert (Hlen : length (data f) = (length pre + length (body ++ [b]))%nat).
  { by rewrite Hd, length_app. }
  destruct (tail_loop_work_run f (Z.of_nat (length (data f))) (body ++ [b])
              pre [] O O) as (c & Hrun & Hc).
  - intros i Hi. apply Hr. lia.
  - by rewrite app_nil_r.
  - intros i c Hi. destruct (decide (i = length body)) as [-> | Hne].
    + right. rewrite Hlen, length_app. simpl. lia.
    + left. apply lookup_app_Some in Hi as [Hi | [Hge Hi]].
      * unfold no_LF in Hno. rewrite Forall_lookup in Hno. eauto.
      * apply list_lookup_singleton_Some in Hi as [Hi _]. lia.
  - exists c. split; [| cbn [length] in Hc; lia].
    rewrite Hlen at 2. rewrite Hrun, app_nil_r.
    destruct Hpre as [-> | [pre' ->]].
    + simpl. f_equal. f_equal. lia.
    + destruct (decide (pre' ++ [LF] = [])) as [E | _]; [by destruct pre' |].
      rewrite length_app. simpl.
      replace (length pre' + 1)%nat with (S (length pre')) by lia.
      rewrite (tail_loop_work_stop f _ pre' (body ++ [b])).
      * f_equal. f_equal. lia.
      * apply Hr. rewrite Hlen, !length_app. simpl. lia.
      * by rewrite Hd, <- !app_assoc.
      * rewrite Hlen, !length_app. simpl. lia.
Qed.

Lemma tail_loop_last_line f pre body b :
  (forall i, (length pre - 1 <= i < length (data f))%nat ->
     read_fails_at f i = false) ->
  no_LF body ->
  data f = pre ++ body ++ [b] ->
  (pre = [] \/ exists pre', pre = pre' ++ [LF]) ->
  tail_loop f (Z.of_nat (length (data f))) (length (data f)) [] O =
    (Some (body ++ [b]),
     (length (body ++ [b]) + if decide (pre = []) then 0 else 1)%nat).
Proof.
  intros Hr Hno Hd Hpre.
  destruct (tail_loop_work_last_line f pre body b Hr Hno Hd Hpre)
    as (c & Hrun & _).
  rewrite <- (tail_loop_work_loop f _ _ [] O O). by rewrite Hrun.
Qed.

(** A read that fails while the loop is still in the last line, or at the
    newline before it, ends the loop with nothing. *)
Lemma tail_loop_fails f size n :
  forall acc k pos,
    (pos < n)%nat -> file_ReadAt f (Z.of_nat pos) = None ->
    (forall i b, (pos < i < n)%nat -> data f !! i = Some b ->
       b <> LF \/ Z.of_nat i = size - 1) ->
    (tail_loop f size n acc k).1 = None.
Proof.
  induction n as [|n IH]; intros acc k pos Hpos Hfail Hline; [lia |].
  cbn [tail_loop]. destruct (decide (pos = n)) as [-> | Hne].
  - by rewrite Hfail.
  - destruct (file_ReadAt f (Z.of_nat n)) as [b|] eqn:Hread; [| done].
    apply file_ReadAt_data in Hread.
    assert (Hc : is_LF b && negb (Z.of_nat n =? size - 1) = false).
    { destruct (Hline n b) as [Hb | He]; [lia | done | |].
      - by rewrite (proj2 (is_LF_false b) Hb).
      - rewrite He, Z.eqb_refl. apply andb_false_r. }
    rewrite Hc. apply (IH _ _ pos); [lia | done |].
    intros i c Hi. apply Hline. lia.
Qed.

(** Each step copies at most the bytes met so far and one more. *)
Lemma tail_loop_work_copied_le f size n :
  forall acc k c,
    (2 * (tail_loop_work f size n acc k c).2 <=
     2 * c + n * (2 * length acc + n + 1))%nat.
Proof.
  induction n as [|n IH]; intros acc k c; cbn [tail_loop_work snd]; [lia |].
  destruct (file_ReadAt f (Z.of_nat n)) as [b|]; cbn [snd]; [| lia].
  destruct (is_LF b && negb (Z.of_nat n =? size - 1)); cbn [snd]; [lia |].
  specialize (IH (b :: acc) (S k) (c + S (length acc))%nat).
  cbn [length] in IH. nia.
Qed.

(** Whatever fails, nothing beyond a newline that is not the final byte is
    copied. *)
Lemma tail_loop_work_copied_stop f size pre rest :
  data f = pre ++ LF :: rest ->
  Z.of_nat (length pre) <> size - 1 ->
  forall j acc k c,
    (2 * (tail_loop_work f size (S (length pre) + j) acc k c).2 <=
     2 * c + j * (2 * length acc + j + 1))%nat.
Proof.
  intros Hd Hne. induction j as [|j IH]; intros acc k c.
  - rewrite Nat.add_0_r. cbn [tail_loop_work].
    destruct (file_ReadAt f (Z.of_nat (length pre))) as [b|] eqn:E;
      cbn [snd]; [| lia].
    apply file_ReadAt_data in E.
    rewrite Hd, lookup_app_r, Nat.sub_diag in E by lia.
    simpl in E. injection E as <-.
    destruct (Z.eqb_spec (Z.of_nat (length pre)) (size - 1)); [done |].
    simpl. lia.
  - replace (S (length pre) + S j)%nat with (S (S (length pre) + j)) by lia.
    remember (S (length pre) + j)%nat as n eqn:En.
    cbn [tail_loop_work].
    destruct (file_ReadAt f _) as [b|]; cbn [snd]; [| lia].
    destruct (is_LF b && negb _); cbn [snd]; [lia |].
    specialize (IH (b :: acc) (S k) (c + S (length acc))%nat).
    cbn [length] in IH. nia.
Qed.

(** Reads are counted one per iteration. *)
Lemma tail_loop_reads_le f size n :
  forall acc k, ((tail_loop f size n acc k).2 <= k + n)%nat.
Proof.
  induction n as [|n IH]; intros acc k; simpl; [lia |].
  destruct (file_ReadAt f (Z.of_nat n)) as [b|]; simpl; [| lia].
  destruct (is_LF b && negb (Z.of_nat n =? size - 1)); simpl; [lia |].
  specialize (IH (b :: acc) (S k)). lia.
Qed.

(** Whatever fails, the loop never reads beyond a newline that is not the
    final byte. *)
Lemma tail_loop_reads_stop f size pre rest :
  data f = pre ++ LF :: rest ->
  Z.of_nat (length pre) <> size - 1 ->
  forall j acc k,
    ((tail_loop f size (S (length pre) + j) acc k).2 <= k + j + 1)%nat.
Proof.
  intros Hd Hne. induction j as [|j IH]; intros acc k.
  - rewrite Nat.add_0_r. simpl.
    destruct (file_ReadAt f (Z.of_nat (length pre))) as [b|] eqn:E;
      simpl; [| lia].
    apply file_ReadAt_data in E.
    rewrite Hd, lookup_app_r, Nat.sub_diag in E by lia.
    simpl in E. injection E as <-. simpl.
    destruct (Z.eqb_spec (Z.of_nat (length pre)) (size - 1)); [done |].
    simpl. lia.
  - replace (S (length pre) + S j)%nat with (S (S (length pre) + j)) by lia.
    remember (S (length pre) + j)%nat as n eqn:En.
    cbn [tail_loop].
    destruct (file_ReadAt f _) as [b|]; cbn [snd]; [| lia].
    destruct (is_LF b && negb _); cbn [snd]; [lia |].
    specialize (IH (b :: acc) (S k)). lia.
Qed.

(** ** The operations *)

Section StorageProperties.
Context {J : JSON} {L : JSONLaws J}.

Lemma scan_loop_first_match tokens id :
  scan_loop tokens id = first_match tokens id.
Proof.
  unfold first_match. induction tokens as [|tok tokens IH]; simpl; [done |].
  destruct (Unmarshal tok) as [r|]; simpl; [| done].
  rewrite filter_cons. destruct (Z.eqb_spec (ID r) id) as [E | E].
  - by rewrite decide_True.
  - by rewrite decide_False.
Qed.

Lemma scan_loop_app tokens1 tokens2 id :
  scan_loop (tokens1 ++ tokens2) id =
    match scan_loop tokens1 id with
    | Some r => Some r
    | None => scan_loop tokens2 id
    end.
Proof.
  induction tokens1 as [|tok tokens1 IH]; simpl; [done |].
  destruct (Unmarshal tok) as [r|]; [| done].
  by destruct (ID r =? id).
Qed.

(** A token that does not decode is passed over. *)
Lemma scan_loop_skip tokens1 bad tokens2 id :
  Unmarshal bad = None ->
  scan_loop (tokens1 ++ bad :: tokens2) id = scan_loop (tokens1 ++ tokens2) id.
Proof. intros Hbad. rewrite !scan_loop_app. simpl. by rewrite Hbad. Qed.

Lemma scan_loop_Some tokens id r :
  scan_loop tokens id = Some r ->
  ID r = id /\ exists tok, tok ∈ tokens /\ Unmarshal tok = Some r.
Proof.
  induction tokens as [|tok tokens IH]; simpl; [done |].
  destruct (Unmarshal tok) as [r0|] eqn:E.
  - destruct (Z.eqb_spec (ID r0) id) as [Hid | Hid].
    + intros [= <-]. split; [done |]. exists tok. split; [left | done].
    + intros Hr. destruct (IH Hr) as (? & tok' & ? & ?).
      split; [done |]. exists tok'. split; [by right | done].
  - intros Hr. destruct (IH Hr) as (? & tok' & ? & ?).
    split; [done |]. exists tok'. split; [by right | done].
Qed.

Lemma scan_loop_None tokens id :
  (forall tok r, tok ∈ tokens -> Unmarshal tok = Some r -> ID r <> id) ->
  scan_loop tokens id = None.
Proof.
  induction tokens as [|tok tokens IH]; simpl; [done |]. intros Hno.
  destruct (Unmarshal tok) as [r0|] eqn:E.
  - destruct (Z.eqb_spec (ID r0) id) as [Hid | Hid].
    + exfalso. eapply Hno; [left | done | done].
    + apply IH. intros tok' r' Hin. apply Hno. by right.
  - apply IH. intros tok' r' Hin. apply Hno. by right.
Qed.

(** *** Reading leaves the files as they are *)

Lemma GetRecord_fs s id fs : (GetRecord s id fs).1 = fs.
Proof.
  unfold GetRecord. destruct (os_Open fs (path s)) as [f|]; [| done].
  destruct (Scanner (stream f)) as [tokens long].
  destruct (scan_loop tokens id); [done |].
  by destruct (long || stream_fails f).
Qed.

Lemma LoadTempRecords_fs s fs : (LoadTempRecords s fs).1 = fs.
Proof.
  unfold LoadTempRecords. destruct (os_Open fs (tempPath s)) as [f|]; [| done].
  by destruct (decode_loop _ _ _ _).
Qed.

Lemma LoadLastLinksNum_fs s fs : (LoadLastLinksNum s fs).1 = fs.
Proof. reflexivity. Qed.

(** *** Files without failures *)

Lemma os_Open_plain (fs : FS) name c :
  fs !! name = Some (plain_file c) -> os_Open fs name = Some (plain_file c).
Proof. unfold os_Open. by intros ->. Qed.

Lemma append_record_plain name r (fs : FS) c d :
  fs !! name = Some (plain_file c) -> Marshal r = Some d ->
  append_record name r fs = (<[name := plain_file (c ++ d ++ [LF])]> fs, None).
Proof.
  intros Hf Hd. unfold append_record.
  rewrite (os_Open_plain _ _ _ Hf), Hd. reflexivity.
Qed.

Lemma GetRecord_plain s id (fs : FS) c :
  fs !! path s = Some (plain_file c) ->
  GetRecord s id fs =
    (fs, match scan_loop (Scanner c).1 id with
         | Some r => inr r
         | None => if (Scanner c).2 then inl ErrScan else inl ErrNotFound
         end).
Proof.
  intros Hf. unfold GetRecord. rewrite (os_Open_plain _ _ _ Hf).
  change (stream (plain_file c)) with c.
  change (stream_fails (plain_file c)) with false.
  destruct (Scanner c) as [tokens long]. cbn [fst snd].
  destruct (scan_loop tokens id); [done |].
  rewrite orb_false_r. by destruct long.
Qed.

(** *** Saving, then looking up *)

(** X5. A saved record is found again when its line and the lines before it
    fit the scanner and no earlier line decodes to its identifier. *)
Lemma save_get_fits s (fs : FS) ls r d :
  fs !! path s = Some (plain_file (join_lines ls)) ->
  Forall no_LF ls -> Forall (fun l => fits l = true) ls ->
  (forall l r0, l ∈ ls -> Unmarshal (dropCR l) = Some r0 -> ID r0 <> ID r) ->
  Marshal r = Some d -> Unmarshal d = Some r -> fits d = true ->
  (SaveRecord s r fs).2 = None /\
  (GetRecord s (ID r) (SaveRecord s r fs).1).2 = inr r.
Proof.
  intros Hf Hno Hfit Huniq Hd Hu Hfd. unfold SaveRecord.
  rewrite (append_record_plain _ _ _ _ _ Hf Hd). split; [done |].
  cbn [fst].
  rewrite (GetRecord_plain s (ID r) _ (join_lines ls ++ d ++ [LF]))
    by apply lookup_insert_eq.
  pose proof (Marshal_one_line r d Hd) as Hline.
  assert (Hnod : no_LF d) by (eapply Forall_impl; [done | by intros ? []]).
  replace (join_lines ls ++ d ++ [LF]) with (join_lines (ls ++ [d]) ++ [])
    by (by rewrite join_lines_snoc, app_nil_r).
  rewrite Scanner_join.
  - cbn [fst snd Scanner split_lines scan_tokens]. rewrite app_nil_r.
    rewrite map_app, scan_loop_app. cbn [map].
    rewrite scan_loop_None.
    + cbn [scan_loop]. rewrite (dropCR_no_CR d Hline), Hu, Z.eqb_refl. done.
    + intros tok r0 Hin. apply list_elem_of_fmap in Hin as (l & -> & Hin).
      by apply Huniq.
  - apply Forall_app. split; [done | by constructor].
  - apply Forall_app. split; [done | by constructor].
Qed.

(** A saved record whose line does not fit the scanner cannot be looked up:
    the scan fails. *)
Lemma save_get_too_long s (fs : FS) ls r d :
  fs !! path s = Some (plain_file (join_lines ls)) ->
  Forall no_LF ls -> Forall (fun l => fits l = true) ls ->
  (forall l r0, l ∈ ls -> Unmarshal (dropCR l) = Some r0 -> ID r0 <> ID r) ->
  Marshal r = Some d -> fits d = false ->
  (SaveRecord s r fs).2 = None /\
  (GetRecord s (ID r) (SaveRecord s r fs).1).2 = inl ErrScan.
Proof.
  intros Hf Hno Hfit Huniq Hd Hfd. unfold SaveRecord.
  rewrite (append_record_plain _ _ _ _ _ Hf Hd). split; [done |].
  cbn [fst].
  rewrite (GetRecord_plain s (ID r) _ (join_lines ls ++ d ++ [LF]))
    by apply lookup_insert_eq.
  pose proof (Marshal_one_line r d Hd) as Hline.
  assert (Hnod : no_LF d) by (eapply Forall_impl; [done | by intros ? []]).
  rewrite Scanner_join by done.
  rewrite (Scanner_too_long d []) by done.
  cbn [fst snd]. rewrite app_nil_r, scan_loop_None; [done |].
  intros tok r0 Hin. apply list_elem_of_fmap in Hin as (l & -> & Hin).
  by apply Huniq.
Qed.

(** *** The tail scan *)

Lemma file_ReadAt_Some_ok f (n : nat) :
  is_Some (file_ReadAt f (Z.of_nat n)) -> read_fails_at f n = false.
Proof.
  unfold file_ReadAt. destruct (Z.ltb_spec (Z.of_nat n) 0); [lia |].
  rewrite Nat2Z.id. destruct (read_fails_at f n); [by intros [? ?] | done].
Qed.

(** When the last line and the newline before it can be read,
    [LoadLastLinksNum] decodes the last line; it reads that line and at most
    one byte more, and copies one byte for the first byte it reads, two for
    the second, and so on to the length of the line. *)
Lemma LoadLastLinksNum_work_last_line s (fs : FS) f :
  os_Open fs (path s) = Some f -> stat_err f = false -> data f <> [] ->
  (forall pos,
     (length (data f) - length (last_line (data f)) - 1 <= pos
      < length (data f))%nat ->
     read_fails_at f pos = false) ->
  LoadLastLinksNum_cost s fs =
    (decode_ID (last_line (data f)),
     (length (last_line (data f)) +
      Nat.min 1 (length (data f) - length (last_line (data f))))%nat) /\
  (2 * LoadLastLinksNum_copied s fs =
   length (last_line (data f)) * (length (last_line (data f)) + 1))%nat.
Proof.
  intros Hf Hstat Hdata Hread.
  unfold LoadLastLinksNum_cost, LoadLastLinksNum_copied, file_Size.
  rewrite Hf, Hstat.
  destruct (Z.eqb_spec (Z.of_nat (length (data f))) 0) as [E | _].
  { destruct (data f); [done | simpl in E; lia]. }
  rewrite Nat2Z.id.
  destruct (last_line_split (data f) Hdata)
    as (pre & body & b & Hd & Hll & Hno & Hpre).
  rewrite Hll in *.
  assert (Hlen : length (data f) = (length pre + length (body ++ [b]))%nat).
  { by rewrite Hd, length_app. }
  destruct (tail_loop_work_last_line f pre body b) as (c & Hrun & Hc);
    [| done | done | done |].
  { intros i Hi. apply Hread. lia. }
  rewrite <- (tail_loop_work_loop f _ _ [] O O), Hrun. cbn [fst snd].
  split; [| done]. unfold decode_ID.
  assert (Hn : (length (body ++ [b]) + (if decide (pre = []) then 0 else 1) =
                length (body ++ [b]) +
                Nat.min 1 (length (data f) - length (body ++ [b])))%nat).
  { rewrite Hlen. destruct (decide (pre = [])) as [-> | Hne]; cbn [length].
    - replace (0 + length (body ++ [b]) - length (body ++ [b]))%nat
        with O by lia.
      done.
    - destruct pre as [|c0 pre]; [done |]. cbn [length].
      replace (S (length pre) + length (body ++ [b]) - length (body ++ [b]))%nat
        with (S (length pre)) by lia.
      done. }
  rewrite <- Hn. by destruct (Unmarshal (body ++ [b])).
Qed.

(** On a file that can be opened, measured and read, [LoadLastLinksNum]
    decodes the last line, and reads that line and at most one byte more. *)
Lemma LoadLastLinksNum_cost_readable s (fs : FS) f :
  fs !! path s = Some f ->
  open_err f = false -> stat_err f = false -> read_err f = None ->
  data f <> [] ->
  LoadLastLinksNum_cost s fs =
    (decode_ID (last_line (data f)),
     (length (last_line (data f)) +
      Nat.min 1 (length (data f) - length (last_line (data f))))%nat).
Proof.
  intros Hf Hopen Hstat Hread Hdata.
  apply (LoadLastLinksNum_work_last_line s fs f); [| done | done |].
  - unfold os_Open. by rewrite Hf, Hopen.
  - intros pos _. by apply read_fails_at_None.
Qed.

(** A read that fails in the last line, or at the newline before it, makes
    the result 0. *)
Lemma LoadLastLinksNum_read_fails s (fs : FS) f pos :
  os_Open fs (path s) = Some f ->
  (length (data f) - length (last_line (data f)) - 1 <= pos
   < length (data f))%nat ->
  file_ReadAt f (Z.of_nat pos) = None ->
  (LoadLastLinksNum s fs).2 = 0.
Proof.
  intros Hf Hpos Hfail.
  unfold LoadLastLinksNum, LoadLastLinksNum_cost, file_Size. cbn [snd].
  rewrite Hf. destruct (stat_err f); [done |].
  destruct (Z.eqb_spec (Z.of_nat (length (data f))) 0) as [E | E]; [done |].
  rewrite Nat2Z.id.
  assert (Hdata : data f <> []) by (intros E'; by rewrite E' in E).
  destruct (last_line_split (data f) Hdata)
    as (pre & body & b & Hd & Hll & Hno & Hpre).
  rewrite Hll in Hpos.
  assert (Hlen : length (data f) = (length pre + length (body ++ [b]))%nat).
  { by rewrite Hd, length_app. }
  pose proof (tail_loop_fails f (Z.of_nat (length (data f)))
                (length (data f)) [] O pos) as Hloop.
  destruct (tail_loop f _ _ _ _) as [[line|] reads]; [| done].
  cbn [fst] in Hloop. discriminate Hloop; [lia | done |].
  intros i c Hi Hc. rewrite Hd in Hc.
  rewrite lookup_app_r in Hc by lia.
  apply lookup_app_Some in Hc as [Hc | [Hge Hc]].
  - left. unfold no_LF in Hno. rewrite Forall_lookup in Hno. eauto.
  - right. apply list_lookup_singleton_Some in Hc as [Hc _].
    rewrite Hlen, length_app. cbn [length]. lia.
Qed.

(** Whatever the state of the file, the bytes copied are bounded by the
    length of the last line, not by the size of the file. *)
Lemma LoadLastLinksNum_copied_bound s (fs : FS) f :
  fs !! path s = Some f ->
  (2 * LoadLastLinksNum_copied s fs <=
   length (last_line (data f)) * (length (last_line (data f)) + 1))%nat.
Proof.
  intros Hf. unfold LoadLastLinksNum_copied, os_Open, file_Size. rewrite Hf.
  destruct (open_err f); [lia |].
  destruct (stat_err f); [lia |].
  destruct (Z.eqb_spec (Z.of_nat (length (data f))) 0) as [E | E]; [lia |].
  rewrite Nat2Z.id.
  assert (Hdata : data f <> []) by (intros E'; by rewrite E' in E).
  destruct (last_line_split (data f) Hdata)
    as (pre & body & b & Hd & Hll & Hno & Hpre).
  rewrite Hll. destruct Hpre as [-> | [pre' ->]].
  - pose proof (tail_loop_work_copied_le f (Z.of_nat (length (data f)))
                  (length (data f)) [] O O) as Hle.
    rewrite Hd in Hle at 3 4. cbn [app length] in Hle. lia.
  - pose proof (tail_loop_work_copied_stop f (Z.of_nat (length (data f)))
                  pre' (body ++ [b])) as Hle.
    assert (Hlen : length (data f) =
                   (S (length pre') + length (body ++ [b]))%nat).
    { rewrite Hd, !length_app. simpl. lia. }
    rewrite Hlen at 2.
    specialize (Hle ltac:(by rewrite Hd, <- app_assoc)).
    specialize (Hle ltac:(rewrite Hlen, length_app; simpl; lia)).
    specialize (Hle (length (body ++ [b])) [] O O). cbn [length] in Hle. lia.
Qed.

(** Whatever the state of the file, the number of reads is bounded by the
    length of the last line, not by the size of the file. *)
Lemma LoadLastLinksNum_cost_bound s (fs : FS) f :
  fs !! path s = Some f ->
  ((LoadLastLinksNum_cost s fs).2 <= length (last_line (data f)) + 1)%nat.
Proof.
  intros Hf. unfold LoadLastLinksNum_cost, os_Open, file_Size. rewrite Hf.
  destruct (open_err f); [simpl; lia |].
  destruct (stat_err f); [simpl; lia |].
  destruct (Z.eqb_spec (Z.of_nat (length (data f))) 0) as [E | E];
    [simpl; lia |].
  rewrite Nat2Z.id.
  assert (Hdata : data f <> []) by (intros E'; by rewrite E' in E).
  destruct (last_line_split (data f) Hdata)
    as (pre & body & b & Hd & Hll & Hno & Hpre).
  assert (Hreads :
    ((tail_loop f (Z.of_nat (length (data f))) (length (data f)) [] O).2
     <= length (last_line (data f)) + 1)%nat).
  { rewrite Hll. destruct Hpre as [-> | [pre' ->]].
    - pose proof (tail_loop_reads_le f (Z.of_nat (length (data f)))
                    (length (data f)) [] O) as Hle.
      rewrite Hd in Hle at 3. simpl in Hle. simpl. lia.
    - pose proof (tail_loop_reads_stop f (Z.of_nat (length (data f)))
                    pre' (body ++ [b])) as Hle.
      assert (Hlen : length (data f) =
                     (S (length pre') + length (body ++ [b]))%nat).
      { rewrite Hd, !length_app. simpl. lia. }
      rewrite Hlen at 2.
      specialize (Hle ltac:(by rewrite Hd, <- app_assoc)).
      specialize (Hle ltac:(rewrite Hlen, length_app; simpl; lia)).
      specialize (Hle (length (body ++ [b])) [] O). lia. }
  destruct (tail_loop f _ _ _ _) as [[line|] reads]; simpl in *; [| done].
  by destruct (Unmarshal line).
Qed.

(** The result is always an int64. *)
Lemma LoadLastLinksNum_int64 s fs : int64 (LoadLastLinksNum s fs).2.
Proof.
  assert (H0 : int64 0) by (unfold int64; lia).
  unfold LoadLastLinksNum, LoadLastLinksNum_cost. simpl.
  destruct (os_Open fs (path s)) as [f|]; [| done].
  destruct (file_Size f) as [size|]; [| done].
  destruct (size =? 0); [done |].
  destruct (tail_loop f size _ _ _) as [[line|] reads]; [| done].
  destruct (Unmarshal line) as [rec|] eqn:E; [| done].
  simpl. by apply Unmarshal_int64 in E.
Qed.

(** *** The decoder loop *)

(** Fuel beyond the length of the stream is never used up. *)
Lemma decode_loop_fuel fuel :
  forall st failing acc fuel',
    (length st < fuel)%nat -> (length st < fuel')%nat ->
    is_Some (decode_loop fuel st failing acc) /\
    decode_loop fuel st failing acc = decode_loop fuel' st failing acc.
Proof.
  induction fuel as [|fuel IH]; intros st failing acc fuel' Hf Hf'; [lia |].
  destruct fuel' as [|fuel']; [lia |]. simpl.
  destruct (Decode st) as [rec rest | |] eqn:E.
  - apply Decode_shrinks in E. apply IH; lia.
  - by destruct failing.
  - done.
Qed.

Lemma decode_loop_LF fuel st failing acc :
  decode_loop fuel (LF :: st) failing acc = decode_loop fuel st failing acc.
Proof. destruct fuel; [done |]. simpl. by rewrite Decode_LF. Qed.

Lemma LoadTempRecords_loop s (fs : FS) f fuel res :
  os_Open fs (tempPath s) = Some f ->
  (length (stream f) < fuel)%nat ->
  decode_loop fuel (stream f) (stream_fails f) [] = Some res ->
  LoadTempRecords s fs = (fs, res).
Proof.
  intros Hf Hfuel Hres. unfold LoadTempRecords. rewrite Hf.
  destruct (decode_loop_fuel (S (length (stream f))) (stream f)
              (stream_fails f) [] fuel) as [_ ->]; [lia | lia |].
  by rewrite Hres.
Qed.

(** The fall-back of [LoadTempRecords] for an exhausted loop is dead. *)
Lemma LoadTempRecords_returns s (fs : FS) f :
  os_Open fs (tempPath s) = Some f ->
  exists res,
    decode_loop (S (length (stream f))) (stream f) (stream_fails f) []
      = Some res /\
    LoadTempRecords s fs = (fs, res).
Proof.
  intros Hf.
  destruct (decode_loop_fuel (S (length (stream f))) (stream f)
              (stream_fails f) [] (S (length (stream f))))
    as [[res Hres] _]; [lia | lia |].
  exists res. split; [done |]. eapply LoadTempRecords_loop; [done | | done].
  lia.
Qed.

Lemma decode_loop_unparsable st :
  hits_unparsable st ->
  forall fuel failing acc,
    (length st < fuel)%nat ->
    decode_loop fuel st failing acc = Some (inl ErrDecode).
Proof.
  induction 1 as [st E | st rec rest E Hrest IH]; intros fuel failing acc Hf.
  - destruct fuel; [lia |]. simpl. by rewrite E.
  - destruct fuel; [lia |]. simpl. rewrite E.
    apply IH. apply Decode_shrinks in E. lia.
Qed.

(** Lines written by staging are decoded one by one, in file order. *)
Lemma decode_loop_lines rs ds :
  Forall2 (fun r d => Marshal r = Some d /\ Unmarshal d = Some r) rs ds ->
  forall fuel acc,
    (length (join_lines ds) < fuel)%nat ->
    decode_loop fuel (join_lines ds) false acc = Some (inr (acc ++ rs)).
Proof.
  induction 1 as [|r d rs ds [Hm Hu] Hrest IH]; intros fuel acc Hf.
  - destruct fuel; [lia |]. simpl. rewrite Decode_nil. by rewrite app_nil_r.
  - destruct fuel; [lia |]. rewrite join_lines_cons in *. simpl.
    rewrite (Decode_Marshal r d r _ Hm Hu), decode_loop_LF.
    rewrite IH.
    + by rewrite <- app_assoc.
    + rewrite length_app in Hf. simpl in Hf. lia.
Qed.

(** *** Each operation writes to its own path only *)

Lemma append_record_frame name r (fs : FS) p :
  p <> name -> (append_record name r fs).1 !! p = fs !! p.
Proof.
  intros Hp. unfold append_record.
  destruct (os_Open fs name) as [f|]; [| done].
  destruct (Marshal r) as [d|]; [| done].
  destruct (file_Write f (d ++ [LF])) as [f' ok]. simpl.
  by rewrite lookup_insert_ne.
Qed.

Lemma ClearTempFile_frame s (fs : FS) p :
  p <> tempPath s -> (ClearTempFile s fs).1 !! p = fs !! p.
Proof.
  intros Hp. unfold ClearTempFile, os_WriteFile_empty.
  destruct (fs !! tempPath s) as [f|]; simpl.
  - destruct (open_err f); [done |]. simpl. by rewrite lookup_insert_ne.
  - by rewrite lookup_insert_ne.
Qed.

(** *** Runs of saves and lookups *)

(** After a run on a log without failures, the log holds the saved records'
    lines after what it held before; lookups add nothing. *)
Lemma run_ops_log s ops :
  forall (fs : FS) c,
    fs !! path s = Some (plain_file c) ->
    exists ds,
      Forall2 (fun r d => Marshal r = Some d) (saved ops) ds /\
      run_ops s ops fs !! path s = Some (plain_file (c ++ join_lines ds)).
Proof.
  induction ops as [|op ops IH]; intros fs c Hf.
  - exists []. split; [constructor |]. simpl. by rewrite app_nil_r.
  - destruct op as [r | id].
    + destruct (Marshal_total r) as [d Hd].
      destruct (IH (SaveRecord s r fs).1 (c ++ d ++ [LF])) as (ds & Hds & Hlog).
      { unfold SaveRecord. rewrite (append_record_plain _ _ _ _ _ Hf Hd).
        apply lookup_insert_eq. }
      exists (d :: ds). split; [by constructor |].
      unfold run_ops in *. cbn [foldl run_op]. rewrite Hlog, join_lines_cons.
      by rewrite <- !app_assoc.
    + destruct (IH fs c Hf) as (ds & Hds & Hlog).
      exists ds. split; [done |].
      unfold run_ops in *. cbn [foldl run_op]. by rewrite GetRecord_fs.
Qed.

Lemma stage_all_log s rs :
  forall (fs : FS) c,
    fs !! tempPath s = Some (plain_file c) ->
    Forall json_faithful rs ->
    exists ds,
      Forall2 (fun r d => Marshal r = Some d /\ Unmarshal d = Some r) rs ds /\
      stage_all s rs fs !! tempPath s = Some (plain_file (c ++ join_lines ds)).
Proof.
  induction rs as [|r rs IH]; intros fs c Hf Hrs.
  - exists []. split; [constructor |]. simpl. by rewrite app_nil_r.
  - apply Forall_cons in Hrs as [(d & Hd & Hu) Hrs].
    destruct (IH (SaveTempRecord s r fs).1 (c ++ d ++ [LF])) as (ds & Hds & Hlog).
    { unfold SaveTempRecord. rewrite (append_record_plain _ _ _ _ _ Hf Hd).
      apply lookup_insert_eq. }
    { done. }
    exists (d :: ds). split; [by constructor |].
    unfold stage_all in *. cbn [foldl]. rewrite Hlog, join_lines_cons.
    by rewrite <- !app_assoc.
Qed.

(** Run one after the other in any order, saves leave a log in which every
    line is the encoding of a saved record and decodes to its identifier. *)
Lemma run_ops_lines s (fs : FS) ops :
  fs !! path s = Some (plain_file []) ->
  Forall (fun r => int64 (ID r)) (saved ops) ->
  exists ds,
    run_ops s ops fs !! path s = Some (plain_file (join_lines ds)) /\
    Forall2 (fun r d => Marshal r = Some d /\ no_LF d /\
                        exists r', Unmarshal d = Some r' /\ ID r' = ID r)
      (saved ops) ds.
Proof.
  intros Hf Hids.
  destruct (run_ops_log s ops fs [] Hf) as (ds & Hds & Hlog).
  exists ds. split; [done |].
  clear Hlog. induction Hds as [|r d rs ds Hd Hds IH]; [constructor |].
  apply Forall_cons in Hids as [Hid Hids].
  constructor; [| by apply IH].
  split; [done |]. split.
  - eapply Forall_impl; [by apply (Marshal_one_line r) | by intros ? []].
  - by apply Unmarshal_Marshal_ID.
Qed.

(** Records staged on an empty staging log are loaded back, in order. *)
Lemma stage_then_load s (fs : FS) rs :
  fs !! tempPath s = Some (plain_file []) ->
  Forall json_faithful rs ->
  LoadTempRecords s (stage_all s rs fs) = (stage_all s rs fs, inr rs).
Proof.
  intros Hf Hrs.
  destruct (stage_all_log s rs fs [] Hf Hrs) as (ds & Hds & Hlog).
  simpl in Hlog.
  eapply (LoadTempRecords_loop s _ _ (S (length (join_lines ds)))).
  - by apply os_Open_plain.
  - change (stream (plain_file (join_lines ds))) with (join_lines ds). lia.
  - change (stream (plain_file (join_lines ds))) with (join_lines ds).
    change (stream_fails (plain_file (join_lines ds))) with false.
    rewrite (decode_loop_lines _ _ Hds) by lia. done.
Qed.

(** The last saved record's identifier is recovered, whatever the order of
    the identifiers. *)
Lemma recover_after_saves s (fs : FS) ops rs r :
  fs !! path s = Some (plain_file []) ->
  saved ops = rs ++ [r] ->
  int64 (ID r) ->
  (LoadLastLinksNum s (run_ops s ops fs)).2 = ID r.
Proof.
  intros Hf Hsaved Hid.
  destruct (run_ops_log s ops fs [] Hf) as (ds & Hds & Hlog).
  rewrite Hsaved in Hds.
  apply Forall2_app_inv_l in Hds as (ds0 & ds1 & Hds0 & Hds1 & ->).
  apply Forall2_cons_inv_l in Hds1 as (d & ds2 & Hd & Hnil & ->).
  apply Forall2_nil_inv_l in Hnil as ->.
  simpl in Hlog. rewrite join_lines_snoc in Hlog.
  unfold LoadLastLinksNum. cbn [snd].
  rewrite (LoadLastLinksNum_cost_readable s _ _ Hlog); [| done | done | done |].
  2: { cbn [data plain_file]. intros E.
       apply app_eq_nil in E as [_ E]. by apply app_eq_nil in E as [_ E]. }
  cbn [fst data plain_file].
  pose proof (Marshal_one_line r d Hd) as Hline.
  rewrite last_line_unique.
  - unfold decode_ID. rewrite (Unmarshal_Marshal_LF r d Hd).
    destruct (Unmarshal_Marshal_ID r d Hid Hd) as (r' & -> & Hr'). done.
  - eapply Forall_impl; [done | by intros ? []].
  - destruct (join_lines_end ds0) as [-> | [pre ->]]; [by left | right; eauto].
Qed.

(** *** The scan of closed lines, fitting or not *)

Lemma Scanner_closed ls rest :
  Forall no_LF ls ->
  Scanner (join_lines ls ++ rest) =
    if (scan_closed ls).2 then ((scan_closed ls).1, true)
    else ((scan_closed ls).1 ++ (Scanner rest).1, (Scanner rest).2).
Proof.
  induction 1 as [|l ls Hl Hls IH].
  - simpl. by destruct (Scanner rest).
  - rewrite join_lines_cons, <- app_assoc. cbn [app scan_closed].
    destruct (fits l) eqn:Hfit.
    + rewrite Scanner_line, IH by done.
      destruct (scan_closed ls) as [toks [|]]; done.
    + by rewrite Scanner_too_long.
Qed.

(** A lookup that scans the whole log returns the first match or reports
    that there is none. *)
Lemma GetRecord_complete_scan s id (fs : FS) f :
  os_Open fs (path s) = Some f ->
  (Scanner (stream f)).2 = false -> stream_fails f = false ->
  (GetRecord s id fs).2 =
    match first_match (Scanner (stream f)).1 id with
    | Some r => inr r
    | None => inl ErrNotFound
    end.
Proof.
  intros Hf Hlong Hfail. unfold GetRecord. rewrite Hf.
  rewrite <- scan_loop_first_match.
  destruct (Scanner (stream f)) as [tokens long]. simpl in *. subst long.
  rewrite Hfail. by destruct (scan_loop tokens id).
Qed.

(** A lookup never reports an error of decoding, marshalling or writing. *)
Lemma GetRecord_errors s id fs e :
  (GetRecord s id fs).2 = inl e ->
  e = ErrOpen \/ e = ErrScan \/ e = ErrNotFound.
Proof.
  unfold GetRecord. destruct (os_Open fs (path s)) as [f|].
  - destruct (Scanner (stream f)) as [tokens long].
    destruct (scan_loop tokens id); [done |].
    destruct (long || stream_fails f); intros [= <-]; auto.
  - intros [= <-]. auto.
Qed.

(** ** Main theorems *)

(** C1. After saves with strictly increasing identifiers on an empty log,
    with lookups anywhere in between, [LoadLastLinksNum] returns the
    identifier of the last saved record. *)
Theorem C1_monotonic_recovery s (fs : FS) ops rs r :
  fs !! path s = Some (plain_file []) ->
  saved ops = rs ++ [r] ->
  Forall (fun r0 => int64 (ID r0)) (rs ++ [r]) ->
  StronglySorted Z.lt (map ID (rs ++ [r])) ->
  (LoadLastLinksNum s (run_ops s ops fs)).2 = ID r.
Proof.
  intros Hf Hsaved Hids _.
  apply (recover_after_saves s fs ops rs r Hf Hsaved).
  apply Forall_app in Hids as [_ Hr]. by inversion Hr.
Qed.

(** C3. [LoadLastLinksNum] returns an int64 and leaves the files alone in
    every state; it returns 0 when the log cannot be opened, when [Stat]
    fails, when the log is empty, when a read fails, be it at the final byte,
    at any other byte of the last line or at the newline before it, and
    when the last line has been read and does not decode. *)
Theorem C3_recover_collapses_failures s (fs : FS) :
  (LoadLastLinksNum s fs).1 = fs /\
  int64 (LoadLastLinksNum s fs).2 /\
  (os_Open fs (path s) = None -> (LoadLastLinksNum s fs).2 = 0) /\
  (forall f, os_Open fs (path s) = Some f ->
     (stat_err f = true -> (LoadLastLinksNum s fs).2 = 0) /\
     (data f = [] -> (LoadLastLinksNum s fs).2 = 0) /\
     (forall pos,
        (length (data f) - length (last_line (data f)) - 1 <= pos
         < length (data f))%nat ->
        file_ReadAt f (Z.of_nat pos) = None ->
        (LoadLastLinksNum s fs).2 = 0) /\
     (stat_err f = false ->
      (forall pos,
         (length (data f) - length (last_line (data f)) - 1 <= pos
          < length (data f))%nat ->
         is_Some (file_ReadAt f (Z.of_nat pos))) ->
      Unmarshal (last_line (data f)) = None ->
      (LoadLastLinksNum s fs).2 = 0)).
Proof.
  split; [done |]. split; [apply LoadLastLinksNum_int64 |].
  split.
  { unfold LoadLastLinksNum, LoadLastLinksNum_cost. cbn [snd]. by intros ->. }
  intros f Hf. repeat split.
  - unfold LoadLastLinksNum, LoadLastLinksNum_cost, file_Size. cbn [snd].
    rewrite Hf. by intros ->.
  - unfold LoadLastLinksNum, LoadLastLinksNum_cost, file_Size. cbn [snd].
    rewrite Hf. intros ->. by destruct (stat_err f).
  - intros pos Hpos Hfail. by apply (LoadLastLinksNum_read_fails s fs f pos).
  - intros Hstat Hread Hdec.
    destruct (decide (data f = [])) as [E | E].
    + unfold LoadLastLinksNum, LoadLastLinksNum_cost, file_Size. cbn [snd].
      by rewrite Hf, Hstat, E.
    + destruct (LoadLastLinksNum_work_last_line s fs f Hf Hstat E) as [Hc _].
      { intros pos Hpos. by apply file_ReadAt_Some_ok, Hread. }
      unfold LoadLastLinksNum. cbn [snd]. rewrite Hc.
      unfold decode_ID. cbn [fst]. by rewrite Hdec.
Qed.

(** X16. The two policies for an entry that does not decode, for lines
    shorter than the scanner's limit.  A lookup never fails with a decoding
    error; a line that does not decode changes nothing in its result, be it
    a closed line anywhere in the log or a torn line at its end, and the
    record on the line after it is found.  Loading the staged records fails
    as a whole, with no records, as soon as the decoder rejects an entry. *)
Theorem decode_failure_policies :
  (forall s id fs, (GetRecord s id fs).2 <> inl ErrDecode) /\
  (forall s id (fs : FS) ls bad d r rest,
     fs !! path s = Some (plain_file (join_lines (ls ++ [bad; d]) ++ rest)) ->
     Forall no_LF ls -> Forall (fun l => fits l = true) ls ->
     (forall l r0, l ∈ ls -> Unmarshal (dropCR l) = Some r0 -> ID r0 <> id) ->
     no_LF bad -> fits bad = true -> Unmarshal (dropCR bad) = None ->
     no_LF d -> fits d = true -> Unmarshal (dropCR d) = Some r -> ID r = id ->
     (GetRecord s id fs).2 = inr r) /\
  (forall s id (fs1 fs2 : FS) ls bad rest,
     fs1 !! path s = Some (plain_file (join_lines ls ++ bad ++ LF :: rest)) ->
     fs2 !! path s = Some (plain_file (join_lines ls ++ rest)) ->
     Forall no_LF ls -> no_LF bad -> fits bad = true ->
     Unmarshal (dropCR bad) = None ->
     (GetRecord s id fs1).2 = (GetRecord s id fs2).2) /\
  (forall s id (fs1 fs2 : FS) ls bad,
     fs1 !! path s = Some (plain_file (join_lines ls ++ bad)) ->
     fs2 !! path s = Some (plain_file (join_lines ls)) ->
     Forall no_LF ls -> no_LF bad -> fits bad = true ->
     Unmarshal (dropCR bad) = None ->
     (GetRecord s id fs1).2 = (GetRecord s id fs2).2) /\
  (forall s (fs : FS) f,
     os_Open fs (tempPath s) = Some f -> hits_unparsable (stream f) ->
     LoadTempRecords s fs = (fs, inl ErrDecode)).
Proof.
  split; [| split; [| split; [| split]]].
  - intros s id fs E. apply GetRecord_errors in E as [E | [E | E]]; done.
  - intros s id fs ls bad d r rest Hfs Hls Hfits Huniq Hbad Hfb Hdec
      Hd Hfd Hu Hid.
    rewrite (GetRecord_plain s id fs _ Hfs). cbn [snd].
    rewrite Scanner_join.
    + cbn [fst snd]. rewrite !map_app, <- app_assoc, scan_loop_app.
      rewrite scan_loop_None.
      * cbn [map app scan_loop]. rewrite Hdec, Hu.
        by rewrite (proj2 (Z.eqb_eq _ _) Hid).
      * intros tok r0 Hin. apply list_elem_of_fmap in Hin as (l & -> & Hin).
        by apply Huniq.
    + apply Forall_app. split; [done | by repeat constructor].
    + apply Forall_app. split; [done | by repeat constructor].
  - intros s id fs1 fs2 ls bad rest H1 H2 Hls Hbad Hfit Hdec.
    rewrite (GetRecord_plain s id fs1 _ H1), (GetRecord_plain s id fs2 _ H2).
    cbn [snd]. rewrite !Scanner_closed by done.
    destruct (scan_closed ls) as [toks [|]]; cbn [fst snd]; [done |].
    rewrite Scanner_line by done. cbn [fst snd].
    by rewrite scan_loop_skip.
  - intros s id fs1 fs2 ls bad H1 H2 Hls Hbad Hfit Hdec.
    rewrite (GetRecord_plain s id fs1 _ H1), (GetRecord_plain s id fs2 _ H2).
    cbn [snd].
    assert (Hs2 : Scanner (join_lines ls) =
                  if (scan_closed ls).2 then ((scan_closed ls).1, true)
                  else ((scan_closed ls).1, false)).
    { rewrite <- (app_nil_r (join_lines ls)) at 1.
      rewrite Scanner_closed by done. rewrite Scanner_nil. cbn [fst snd].
      by rewrite app_nil_r. }
    assert (Hs1 : Scanner bad = ([dropCR bad], false) \/ bad = []).
    { destruct bad as [|c bad]; [by right | left].
      unfold Scanner. rewrite split_lines_last by done.
      cbn [scan_tokens]. by rewrite Hfit. }
    rewrite Hs2, Scanner_closed by done.
    destruct (scan_closed ls) as [toks [|]]; cbn [fst snd]; [done |].
    destruct Hs1 as [-> | ->].
    + cbn [fst snd].
      rewrite (scan_loop_skip toks (dropCR bad) []) by done.
      by rewrite app_nil_r.
    + rewrite Scanner_nil. cbn [fst snd]. by rewrite app_nil_r.
  - intros s fs f Hf Hbad.
    eapply (LoadTempRecords_loop s fs f (S (length (stream f)))); [done | lia |].
    apply decode_loop_unparsable; [done | lia].
Qed.

(** C6. Loading the staged records changes no file, so loading twice gives
    the same result twice; and after staging faithful records [rs] and then
    [r] on an empty staging log, both loads return [rs ++ [r]], in the order
    of the file. *)
Theorem C6_load_staged_idempotent :
  (forall s fs,
     (LoadTempRecords s fs).1 = fs /\
     LoadTempRecords s (LoadTempRecords s fs).1 = LoadTempRecords s fs) /\
  (forall s (fs : FS) rs r,
     fs !! tempPath s = Some (plain_file []) ->
     Forall json_faithful (rs ++ [r]) ->
     let fs' := stage_all s (rs ++ [r]) fs in
     LoadTempRecords s fs' = (fs', inr (rs ++ [r])) /\
     LoadTempRecords s (LoadTempRecords s fs').1 = (fs', inr (rs ++ [r]))).
Proof.
  split.
  - intros s fs. split; [apply LoadTempRecords_fs |].
    by rewrite LoadTempRecords_fs.
  - intros s fs rs r Hf Hrs fs'.
    pose proof (stage_then_load s fs (rs ++ [r]) Hf Hrs) as Hload.
    fold fs' in Hload.
    split; [done |]. by rewrite LoadTempRecords_fs.
Qed.

(** C7. [ClearTempFile] succeeds on every staging file that can be opened,
    whatever it holds; whenever it succeeds the staging file is empty and
    [LoadTempRecords] then returns the empty sequence; and loading any empty
    staging file returns the empty sequence. *)
Theorem C7_clear_then_load :
  (forall s (fs : FS) f,
     os_Open fs (tempPath s) = Some f -> (ClearTempFile s fs).2 = None) /\
  (forall s (fs : FS),
     (ClearTempFile s fs).2 = None ->
     let fs' := (ClearTempFile s fs).1 in
     (exists f', fs' !! tempPath s = Some f' /\ data f' = []) /\
     LoadTempRecords s fs' = (fs', inr [])) /\
  (forall s (fs : FS) f,
     os_Open fs (tempPath s) = Some f -> data f = [] ->
     LoadTempRecords s fs = (fs, inr [])).
Proof.
  assert (Hempty : forall s (fs : FS) f,
    os_Open fs (tempPath s) = Some f -> data f = [] ->
    LoadTempRecords s fs = (fs, inr [])).
  { intros s fs f Hf Hd.
    assert (Hst : stream f = []).
    { unfold stream. rewrite Hd. destruct (read_err f); [| done].
      by rewrite take_nil. }
    assert (Hsf : stream_fails f = false).
    { unfold stream_fails. rewrite Hd. by destruct (read_err f). }
    eapply (LoadTempRecords_loop s fs f 1); [done | rewrite Hst; simpl; lia |].
    rewrite Hst, Hsf. simpl. by rewrite Decode_nil. }
  split; [| split; [| exact Hempty]].
  - intros s fs f. unfold os_Open, ClearTempFile, os_WriteFile_empty.
    destruct (fs !! tempPath s) as [f0|]; [| done].
    by destruct (open_err f0).
  - intros s fs. unfold ClearTempFile, os_WriteFile_empty.
    destruct (fs !! tempPath s) as [f0|] eqn:Hfs.
    + destruct (open_err f0) eqn:Hopen; [done |]. intros _. cbn [fst].
      split.
      * exists (with_data f0 [] (write_room f0)).
        split; [apply lookup_insert_eq | done].
      * apply (Hempty s _ (with_data f0 [] (write_room f0))); [| done].
        unfold os_Open. rewrite lookup_insert_eq. simpl. by rewrite Hopen.
    + intros _. cbn [fst]. split.
      * exists (plain_file []). split; [apply lookup_insert_eq | done].
      * apply (Hempty s _ (plain_file [])); [| done].
        unfold os_Open. by rewrite lookup_insert_eq.
Qed.

(** C8. On a log that can be opened and measured and whose last line can
    be read, with the newline before it, [LoadLastLinksNum] returns 0 for an
    empty log and otherwise the identifier decoded from the last line, which
    is the end of the file after the last newline that is not the final
    byte; it reads that line and at most one byte more, and in no state of
    the file does it read more.  Each byte read is put in front of a copy of
    the line read so far: for a last line of [m] bytes that is [m (m + 1) / 2]
    bytes copied, and in no state of the file more.  So the reads grow with
    the length of the last line and the copying with its square, neither
    with the size of the file. *)
Theorem C8_tail_scan s (fs : FS) f :
  fs !! path s = Some f ->
  ((LoadLastLinksNum_cost s fs).2 <= length (last_line (data f)) + 1)%nat /\
  (2 * LoadLastLinksNum_copied s fs <=
   length (last_line (data f)) * (length (last_line (data f)) + 1))%nat /\
  (open_err f = false -> stat_err f = false ->
   (forall pos,
      (length (data f) - length (last_line (data f)) - 1 <= pos
       < length (data f))%nat ->
      is_Some (file_ReadAt f (Z.of_nat pos))) ->
   (data f = [] ->
    LoadLastLinksNum_cost s fs = (0, O) /\ LoadLastLinksNum_copied s fs = O) /\
   (data f <> [] ->
    LoadLastLinksNum_cost s fs =
      (decode_ID (last_line (data f)),
       (length (last_line (data f)) +
        Nat.min 1 (length (data f) - length (last_line (data f))))%nat) /\
    (2 * LoadLastLinksNum_copied s fs =
     length (last_line (data f)) * (length (last_line (data f)) + 1))%nat /\
    exists pre body b,
      data f = pre ++ last_line (data f) /\
      last_line (data f) = body ++ [b] /\ no_LF body /\
      (pre = [] \/ exists pre', pre = pre' ++ [LF]))).
Proof.
  intros Hf. split; [by apply LoadLastLinksNum_cost_bound |].
  split; [by apply LoadLastLinksNum_copied_bound |].
  intros Hopen Hstat Hread. split.
  - intros Hd.
    unfold LoadLastLinksNum_cost, LoadLastLinksNum_copied, os_Open, file_Size.
    by rewrite Hf, Hopen, Hstat, Hd.
  - intros Hd.
    destruct (LoadLastLinksNum_work_last_line s fs f) as [Hcost Hcopied];
      [| done | done | |].
    { unfold os_Open. by rewrite Hf, Hopen. }
    { intros pos Hpos. by apply file_ReadAt_Some_ok, Hread. }
    split; [done |]. split; [done |].
    destruct (last_line_split (data f) Hd)
      as (pre & body & b & Hdata & Hll & Hno & Hpre).
    exists pre, body, b. rewrite Hll. done.
Qed.

(** C10. Each operation writes at its own path only: the staging
    operations change no file but the one at [tempPath], the operations of
    the record log no file but the one at [path], and the reading ones none
    at all.  So, the paths being distinct, no staging operation changes the
    record log and no operation of the record log changes the staging
    log. *)
Theorem C10_logs_framed s (fs : FS) :
  (forall p, p <> tempPath s ->
     (forall r, (SaveTempRecord s r fs).1 !! p = fs !! p) /\
     (ClearTempFile s fs).1 !! p = fs !! p) /\
  (forall p, p <> path s ->
     forall r, (SaveRecord s r fs).1 !! p = fs !! p) /\
  (LoadTempRecords s fs).1 = fs /\
  (forall id, (GetRecord s id fs).1 = fs) /\
  (LoadLastLinksNum s fs).1 = fs /\
  (path s <> tempPath s ->
   (forall r, (SaveTempRecord s r fs).1 !! path s = fs !! path s) /\
   (LoadTempRecords s fs).1 !! path s = fs !! path s /\
   (ClearTempFile s fs).1 !! path s = fs !! path s /\
   (forall r, (SaveRecord s r fs).1 !! tempPath s = fs !! tempPath s) /\
   (forall id, (GetRecord s id fs).1 !! tempPath s = fs !! tempPath s) /\
   (LoadLastLinksNum s fs).1 !! tempPath s = fs !! tempPath s).
Proof.
  split; [| split; [| split; [| split; [| split]]]].
  - intros p Hp. split.
    + intros r. by apply append_record_frame.
    + by apply ClearTempFile_frame.
  - intros p Hp r. by apply append_record_frame.
  - apply LoadTempRecords_fs.
  - intros id. apply GetRecord_fs.
  - done.
  - intros Hne. repeat split.
    + intros r. by apply append_record_frame.
    + by rewrite LoadTempRecords_fs.
    + by apply ClearTempFile_frame.
    + intros r. by apply append_record_frame.
    + intros id. by rewrite GetRecord_fs.
Qed.

Lemma Scanner_lines ls last :
  Forall no_LF ls -> no_LF last ->
  Forall (fun l => fits l = true) (ls ++ [last]) ->
  Scanner (join_lines ls ++ last) = (map dropCR (log_lines ls last), false).
Proof.
  intros Hls Hlast Hfit. apply Forall_app in Hfit as [Hfit Hfl].
  apply Forall_cons in Hfl as [Hfl _].
  rewrite Scanner_join by done. unfold Scanner at 1 2, log_lines.
  rewrite split_lines_last by done.
  destruct last as [|c last].
  - cbn [scan_tokens fst snd]. by rewrite !app_nil_r.
  - cbn [scan_tokens]. rewrite Hfl. cbn [fst snd]. by rewrite map_app.
Qed.

(** X6. When the log is opened and read without failure and each of its
    lines is shorter than the scanner's limit, [GetRecord] returns
    the first record in the order of the file that decodes and has the
    requested identifier, and the not-found error when there is none; a
    record it returns always has the requested identifier; on an empty log
    it returns the not-found error. *)
Theorem GetRecord_first_match_or_not_found :
  (forall s id (fs : FS) f ls last,
     os_Open fs (path s) = Some f -> stream_fails f = false ->
     stream f = join_lines ls ++ last ->
     Forall no_LF ls -> no_LF last ->
     Forall (fun l => fits l = true) (ls ++ [last]) ->
     (GetRecord s id fs).2 =
       match first_match (map dropCR (log_lines ls last)) id with
       | Some r => inr r
       | None => inl ErrNotFound
       end) /\
  (forall s id fs r, (GetRecord s id fs).2 = inr r -> ID r = id) /\
  (forall s id (fs : FS) f,
     os_Open fs (path s) = Some f -> data f = [] ->
     (GetRecord s id fs).2 = inl ErrNotFound).
Proof.
  assert (Hmain : forall s id (fs : FS) f ls last,
     os_Open fs (path s) = Some f -> stream_fails f = false ->
     stream f = join_lines ls ++ last ->
     Forall no_LF ls -> no_LF last ->
     Forall (fun l => fits l = true) (ls ++ [last]) ->
     (GetRecord s id fs).2 =
       match first_match (map dropCR (log_lines ls last)) id with
       | Some r => inr r
       | None => inl ErrNotFound
       end).
  { intros s id fs f ls last Hf Hfail Hst Hls Hlast Hfit.
    pose proof (Scanner_lines ls last Hls Hlast Hfit) as Hscan.
    rewrite <- Hst in Hscan.
    rewrite (GetRecord_complete_scan s id fs f Hf); [| by rewrite Hscan | done].
    by rewrite Hscan. }
  split; [exact Hmain |]. split.
  - intros s id fs r. unfold GetRecord.
    destruct (os_Open fs (path s)) as [f|]; [| done].
    destruct (Scanner (stream f)) as [tokens long].
    destruct (scan_loop tokens id) as [r'|] eqn:E.
    + intros [= <-]. by apply scan_loop_Some in E as [? _].
    + by destruct (long || stream_fails f).
  - intros s id fs f Hf Hd.
    rewrite (Hmain s id fs f [] [] Hf); [done | | | | |].
    + unfold stream_fails. rewrite Hd. by destruct (read_err f).
    + unfold stream. rewrite Hd. destruct (read_err f); [| done].
      by rewrite take_nil.
    + constructor.
    + constructor.
    + by repeat constructor.
Qed.

End StorageProperties.

(** A pairing of two lists follows a permutation of the first. *)
Lemma Forall2_perm_l {A B} (P : A -> B -> Prop) (l l' : list A) (k : list B) :
  l ≡ₚ l' -> Forall2 P l k -> exists k', k ≡ₚ k' /\ Forall2 P l' k'.
Proof.
  intros Hp. revert k.
  induction Hp as [|x l l' Hp IH|x y l|l l' l'' Hp1 IH1 Hp2 IH2]; intros k Hk.
  - inversion Hk; subst. by exists [].
  - inversion Hk as [|? b ? k0 Hb Hk0]; subst.
    destruct (IH k0 Hk0) as (k' & Hk' & HF).
    exists (b :: k'). split; [by constructor | by constructor].
  - inversion Hk as [|? b1 ? k1 Hb1 Hk1]; subst.
    inversion Hk1 as [|? b2 ? k2 Hb2 Hk2]; subst.
    exists (b2 :: b1 :: k2). split; [apply Permutation_swap |].
    by repeat constructor.
  - destruct (IH1 k Hk) as (k1 & Hk1 & HF1).
    destruct (IH2 k1 HF1) as (k2 & Hk2 & HF2).
    exists k2. split; [by etransitivity | done].
Qed.

(** ** Concurrent callers *)

Section ConcurrentProperties.
Context {J : JSON} {L : JSONLaws J}.

Lemma holders_insert gs :
  forall i g g',
    gs !! i = Some g ->
    (holders (<[i:=g']> gs) + Nat.b2n (holds_lock g) =
     holders gs + Nat.b2n (holds_lock g'))%nat.
Proof.
  induction gs as [|g0 gs IH]; intros [|i] g g' Hi; simplify_eq/=.
  - destruct (holds_lock g), (holds_lock g'); simpl; lia.
  - specialize (IH i g g' Hi). lia.
Qed.

Lemma holders_one gs i g :
  gs !! i = Some g -> holds_lock g = true -> (1 <= holders gs)%nat.
Proof.
  revert i. induction gs as [|g0 gs IH]; intros [|i] Hi Hg; simplify_eq/=.
  - rewrite Hg. lia.
  - specialize (IH i Hi Hg). lia.
Qed.

Lemma holders_two gs i j gi gj :
  gs !! i = Some gi -> gs !! j = Some gj -> i <> j ->
  holds_lock gi = true -> holds_lock gj = true -> (2 <= holders gs)%nat.
Proof.
  revert i j. induction gs as [|g0 gs IH]; intros [|i] [|j] Hi Hj Hne Hgi Hgj;
    simplify_eq/=.
  - rewrite Hgi. pose proof (holders_one gs j gj Hj Hgj). lia.
  - rewrite Hgj. pose proof (holders_one gs i gi Hi Hgi). lia.
  - assert (i <> j) by congruence.
    specialize (IH i j Hi Hj ltac:(done) Hgi Hgj). lia.
Qed.

Lemma holders_start calls :
  holders (map (fun c => mkGoroutine c AtLock) calls) = O.
Proof. induction calls as [|c calls IH]; simpl; [done | by rewrite IH]. Qed.

Lemma begin_append_holds name r fs c :
  holds_lock (mkGoroutine c (begin_append name r fs)) = true.
Proof.
  unfold begin_append. destruct (os_Open fs name); [| done].
  by destruct (Marshal r).
Qed.

Lemma run_body_holds s c fs fs' pc' :
  run_body s c fs = (fs', pc') -> holds_lock (mkGoroutine c pc') = true.
Proof.
  destruct c; simpl.
  - intros [= <- <-]. apply begin_append_holds.
  - intros [= <- <-]. apply begin_append_holds.
  - destruct (LoadTempRecords s fs). by intros [= <- <-].
  - destruct (GetRecord s id fs). by intros [= <- <-].
  - destruct (ClearTempFile s fs). by intros [= <- <-].
  - by intros [= <- <-].
Qed.

(** A step keeps the call, and changes the mutex as it changes who holds
    it. *)
Lemma goroutine_step_lock s fs l g fs' l' g' :
  goroutine_step s (fs, l, g) (fs', l', g') ->
  call g' = call g /\
  (Nat.b2n l' + Nat.b2n (holds_lock g) =
   Nat.b2n l + Nat.b2n (holds_lock g'))%nat.
Proof.
  inversion 1; subst; simpl; split; try done.
  - match goal with
    | Hb : run_body _ _ _ = _ |- _ => by rewrite (run_body_holds _ _ _ _ _ Hb)
    end.
  - by destruct ok.
Qed.

(** Every step but the taking of the lock is made holding the lock, and the
    taking of the lock finds it free and touches no file. *)
Lemma goroutine_step_holds s fs l g fs' l' g' :
  goroutine_step s (fs, l, g) (fs', l', g') ->
  (holds_lock g = true /\ l = true) \/
  (pc g = AtLock /\ l = false /\ fs' = fs).
Proof. inversion 1; subst; simpl; auto. Qed.

Lemma mutex_inv_step s c c' : mutex_inv c -> step s c c' -> mutex_inv c'.
Proof.
  unfold mutex_inv. intros Hinv Hstep. inversion Hstep as [? i g fs' l' g' Hi Hg];
    subst. simpl.
  pose proof (holders_insert _ i g g' Hi) as Hh.
  apply goroutine_step_lock in Hg as [_ Hl]. lia.
Qed.

Lemma mutex_inv_reachable s fs calls c :
  rtc (step s) (start fs calls) c -> mutex_inv c.
Proof.
  intros Hrun.
  apply (rtc_ind_r (R := step s) (fun c => mutex_inv c) (start fs calls));
    [| | done].
  - unfold mutex_inv. simpl. apply holders_start.
  - intros c1 c2 _ Hstep IH. by eapply mutex_inv_step.
Qed.

(** At most one goroutine holds the lock. *)
Lemma mutex_inv_exclusive c i j gi gj :
  mutex_inv c ->
  goroutines c !! i = Some gi -> goroutines c !! j = Some gj ->
  holds_lock gi = true -> holds_lock gj = true -> i = j.
Proof.
  unfold mutex_inv. intros Hinv Hi Hj Hgi Hgj.
  destruct (decide (i = j)) as [| Hne]; [done |].
  pose proof (holders_two _ i j gi gj Hi Hj Hne Hgi Hgj).
  destruct (locked c); simpl in *; lia.
Qed.

Lemma mutex_inv_locked c :
  mutex_inv c ->
  (locked c = true <->
   exists i g, goroutines c !! i = Some g /\ holds_lock g = true).
Proof.
  unfold mutex_inv. intros Hinv. split.
  - intros Hl. rewrite Hl in Hinv. simpl in Hinv.
    revert Hinv. generalize (goroutines c). intros gs.
    induction gs as [|g gs IH]; simpl; [done |].
    destruct (holds_lock g) eqn:Hg.
    + intros _. exists O, g. done.
    + intros Hgs. destruct (IH Hgs) as (i & g' & Hi & Hg').
      exists (S i), g'. done.
  - intros (i & g & Hi & Hg). pose proof (holders_one _ i g Hi Hg).
    destruct (locked c); simpl in *; [done | lia].
Qed.

(** *** Programs of saves *)

Lemma written_insert_same gs :
  forall i g g',
    gs !! i = Some g ->
    (if wrote g' then line_of g' else None) =
    (if wrote g then line_of g else None) ->
    written (<[i:=g']> gs) = written gs.
Proof.
  unfold written.
  induction gs as [|g0 gs IH]; intros [|i] g g' Hi Heq; simplify_eq/=.
  - by rewrite Heq.
  - by rewrite (IH i g g' Hi Heq).
Qed.

Lemma written_insert_new gs :
  forall i g g' d,
    gs !! i = Some g -> wrote g = false ->
    wrote g' = true -> line_of g' = Some d ->
    written (<[i:=g']> gs) ≡ₚ d :: written gs.
Proof.
  unfold written.
  induction gs as [|g0 gs IH]; intros [|i] g g' d Hi Hg Hg' Hd; simplify_eq/=.
  - by rewrite Hg, Hg', Hd.
  - specialize (IH i g g' d Hi Hg Hg' Hd).
    destruct (if wrote g0 then line_of g0 else None) as [d0|]; [| done].
    rewrite IH. apply Permutation_swap.
Qed.

Lemma writing_holds g : writing g -> holds_lock g = true.
Proof. intros (name & pending & Hw). unfold holds_lock. by rewrite Hw. Qed.

Lemma good_irrel s p p' g : ~ writing g -> good s p g -> good s p' g.
Proof.
  intros Hw [Hcall Hpc]. split; [done |].
  destruct (pc g) eqn:E; try done. exfalso. apply Hw. by eexists _, _.
Qed.

Lemma good_insert s p p' gs i g g' :
  Forall (good s p) gs -> gs !! i = Some g ->
  (forall j gj, gs !! j = Some gj -> j <> i -> ~ writing gj) ->
  good s p' g' ->
  Forall (good s p') (<[i:=g']> gs).
Proof.
  intros Hgood Hi Hidle Hg'. apply Forall_lookup. intros j gj Hj.
  apply list_lookup_insert_Some in Hj as [(-> & -> & _) | [Hne Hj]]; [done |].
  apply (good_irrel s p); [by eapply Hidle |].
  by eapply (proj1 (Forall_lookup _ _) Hgood).
Qed.

Lemma nobody_writing (gs : list Goroutine) (p : bytes) :
  (forall j gj, gs !! j = Some gj -> ~ writing gj) ->
  p = [] \/ Exists writing gs -> p = [].
Proof.
  intros Hnone [-> | Hex]; [done |].
  apply Exists_exists in Hex as (g & Hin & Hw).
  apply list_elem_of_lookup in Hin as [j Hj]. by destruct (Hnone j g Hj).
Qed.

Lemma saves_inv_step s c c' : saves_inv s c -> step s c c' -> saves_inv s c'.
Proof.
  intros [Hmu (ds & partial & Hfile & Hperm & Hgood & Hpart)] Hstep.
  split; [by eapply mutex_inv_step |].
  inversion Hstep as [? i g fs' l' g' Hi Hg]; subst. cbn [files goroutines].
  destruct (proj1 (Forall_lookup _ _) Hgood i g Hi) as [[r Hcall] Hpc].
  assert (Hidle : forall j gj,
             goroutines c !! j = Some gj -> j <> i -> ~ writing gj).
  { intros j gj Hj Hne Hw. apply writing_holds in Hw.
    destruct (goroutine_step_holds _ _ _ _ _ _ _ Hg)
      as [[Hh Hl] | (Hat & Hl & _)].
    - apply Hne. by eapply (mutex_inv_exclusive c j i gj g).
    - pose proof (holders_one _ j gj Hj Hw) as H1.
      unfold mutex_inv in Hmu. rewrite Hl in Hmu. simpl in Hmu. lia. }
  assert (Hnone : ~ writing g -> partial = []).
  { intros Hg0. apply (nobody_writing (goroutines c)); [| done].
    intros j gj Hj. destruct (decide (j = i)) as [-> | Hne].
    - by simplify_eq.
    - by eapply Hidle. }
  assert (Hlt : (i < length (goroutines c))%nat) by by eapply lookup_lt_Some.
  inversion Hg; subst; cbn [call pc] in *; subst.
  - (* Lock *)
    rewrite Hnone in * by (by intros (? & ? & ?)).
    exists ds, []. split; [done |]. split; [| split; [| by left]].
    + by rewrite (written_insert_same _ i _ _ Hi).
    + eapply good_insert; [done | done | done |]. split; [eauto | done].
  - (* the body up to Write *)
    rewrite Hnone in * by (by intros (? & ? & ?)).
    destruct (Marshal_total r) as [d Hd].
    match goal with Hb : run_body _ _ _ = _ |- _ =>
      cbn [run_body] in Hb; unfold begin_append, os_Open in Hb;
      rewrite Hfile, Hd in Hb; cbn [open_err plain_file] in Hb;
      injection Hb as <- <- end.
    exists ds, []. split; [done |]. split; [| split; [| by left]].
    + by rewrite (written_insert_same _ i _ _ Hi).
    + eapply good_insert; [done | done | done |]. split; [eauto |].
      split; [done |]. exists d. split; [exact Hd | done].
  - (* a piece of the line is written *)
    destruct Hpc as (-> & d & Hline & Hsplit).
    match goal with
    | Hf : files c !! path s = Some ?f, Hw : file_Write ?f _ = _ |- _ =>
        rewrite Hfile in Hf; injection Hf as <-;
        unfold file_Write in Hw; cbn in Hw; injection Hw as <- <-
    end.
    exists ds, (partial ++ chunk). split; [| split; [| split]].
    + rewrite lookup_insert_eq. unfold with_data, plain_file. cbn.
      by rewrite <- !app_assoc.
    + by rewrite (written_insert_same _ i _ _ Hi).
    + eapply good_insert; [done | done | done |]. split; [eauto |].
      split; [done |]. exists d. split; [exact Hline |].
      by rewrite <- app_assoc.
    + right. apply Exists_exists. eexists. split.
      * eapply list_elem_of_lookup_2. by apply list_lookup_insert_eq.
      * by eexists _, _.
  - (* the line is written *)
    destruct Hpc as (-> & d & Hline & Hsplit). rewrite app_nil_r in Hsplit.
    subst partial.
    exists (ds ++ [d]), []. split; [| split; [| split; [| by left]]].
    + by rewrite join_lines_snoc, app_nil_r.
    + rewrite (written_insert_new _ i _ _ d Hi); [| done | done | exact Hline].
      rewrite <- Hperm. symmetry. apply Permutation_cons_append.
    + eapply good_insert; [done | done | done |]. split; [eauto | done].
  - (* Unlock *)
    rewrite Hnone in * by (by intros (? & ? & ?)).
    exists ds, []. split; [done |]. split; [| split; [| by left]].
    + by rewrite (written_insert_same _ i _ _ Hi).
    + eapply good_insert; [done | done | done |]. split; [eauto | done].
Qed.

Lemma written_start calls :
  written (map (fun c => mkGoroutine c AtLock) calls) = [].
Proof. induction calls as [|c calls IH]; [done |]. exact IH. Qed.

Lemma saves_inv_start s (fs : FS) rs :
  fs !! path s = Some (plain_file []) ->
  saves_inv s (start fs (map CallSaveRecord rs)).
Proof.
  intros Hf. split.
  - unfold mutex_inv. simpl. apply holders_start.
  - exists [], []. simpl. split; [done |]. split; [| split; [| by left]].
    + by rewrite written_start.
    + apply Forall_forall. intros g Hg.
      apply list_elem_of_fmap in Hg as (c & -> & Hc).
      apply list_elem_of_fmap in Hc as (r & -> & _).
      split; [eauto | done].
Qed.

Lemma saves_inv_reachable s (fs : FS) rs c :
  fs !! path s = Some (plain_file []) ->
  rtc (step s) (start fs (map CallSaveRecord rs)) c -> saves_inv s c.
Proof.
  intros Hf Hrun.
  apply (rtc_ind_r (R := step s) (fun c => saves_inv s c)
           (start fs (map CallSaveRecord rs))); [| | done].
  - by apply saves_inv_start.
  - intros c1 c2 _ Hstep IH. by eapply saves_inv_step.
Qed.

(** The calls of the goroutines never change. *)
Lemma calls_reachable s fs calls c :
  rtc (step s) (start fs calls) c -> map call (goroutines c) = calls.
Proof.
  intros Hrun.
  apply (rtc_ind_r (R := step s) (fun c => map call (goroutines c) = calls)
           (start fs calls)); [| | done].
  - simpl. rewrite map_map. simpl. apply map_id.
  - intros c1 c2 _ Hstep IH. inversion Hstep as [? i g fs' l' g' Hi Hg]; subst.
    simpl. apply goroutine_step_lock in Hg as [Hcall _].
    clear Hstep. revert i Hi.
    generalize (goroutines c1). intros gs.
    induction gs as [|g0 gs IHgs]; intros [|i] Hi; simplify_eq/=.
    + by rewrite Hcall.
    + by rewrite (IHgs i Hi).
Qed.

(** When every goroutine has returned, each has written its line. *)
Lemma written_all_returned s gs rs :
  Forall has_returned gs -> Forall (good s []) gs ->
  map call gs = map CallSaveRecord rs ->
  Forall (fun g => pc g = Returned (RetError None)) gs /\
  Forall2 (fun r d => Marshal r = Some d) rs (written gs).
Proof.
  revert rs. induction gs as [|g gs IH]; intros [|r rs] Hret Hgood Hcalls;
    simplify_eq/=; [by split; constructor |].
  apply Forall_cons in Hret as [[res Hres] Hret].
  apply Forall_cons in Hgood as [[_ Hg] Hgood].
  rewrite Hres in Hg. subst res.
  destruct (IH rs Hret Hgood ltac:(done)) as [Hpcs Hlines].
  split; [by constructor |].
  unfold written in *. cbn [omap]. unfold wrote, line_of at 1.
  match goal with Hc : call g = _ |- _ => rewrite Hres, Hc end.
  destruct (Marshal_total r) as [d Hd]. rewrite Hd.
  by constructor.
Qed.

(** *** Schedules *)

Lemma goroutine_next_step s k x y :
  goroutine_next s k x = Some y -> goroutine_step s x y.
Proof.
  destruct x as [[fs l] [c p]]. unfold goroutine_next. cbn [pc call].
  destruct p as [| | name pending | res | res]; destruct l; try done.
  - intros [= <-]. constructor.
  - destruct (run_body s c fs) as [fs' pc'] eqn:E. intros [= <-].
    by constructor.
  - destruct pending as [|b pending]; [intros [= <-]; constructor |].
    destruct (fs !! name) as [f|] eqn:Ef; [| done].
    destruct (file_Write f (take (S k) (b :: pending))) as [f' ok] eqn:Ew.
    intros [= <-].
    rewrite <- (take_drop (S k) (b :: pending)) at 1.
    by eapply step_Write.
  - intros [= <-]. constructor.
Qed.

Lemma run_schedule_reaches s sched :
  forall c c', run_schedule s sched c = Some c' -> rtc (step s) c c'.
Proof.
  induction sched as [|[i k] sched IH]; intros c c'; cbn [run_schedule].
  - intros [= <-]. constructor.
  - destruct (goroutines c !! i) as [g|] eqn:Hi; [| done].
    destruct (goroutine_next s k (files c, locked c, g))
      as [[[fs' l'] g']|] eqn:Hn; [| done].
    intros Hrun. eapply rtc_l; [| by apply IH].
    apply (step_goroutine s c i g fs' l' g' Hi).
    eapply goroutine_next_step. exact Hn.
Qed.

Lemma solo_step s fs l g fs' l' g' :
  goroutine_step s (fs, l, g) (fs', l', g') ->
  step s (mkConfig fs l [g]) (mkConfig fs' l' [g']).
Proof. intros Hg. by apply (step_goroutine s (mkConfig fs l [g]) O g). Qed.

(** Run alone with the line written in one piece, a call of [SaveRecord] is
    the function [SaveRecord]. *)
Lemma solo_SaveRecord s r fs :
  rtc (step s) (start fs [CallSaveRecord r])
    (mkConfig (SaveRecord s r fs).1 false
       [mkGoroutine (CallSaveRecord r)
          (Returned (RetError (SaveRecord s r fs).2))]).
Proof.
  unfold start. cbn [map].
  eapply rtc_l; [apply solo_step, step_Lock |].
  eapply rtc_l; [apply solo_step, step_body; reflexivity |].
  unfold SaveRecord, append_record, begin_append.
  destruct (os_Open fs (path s)) as [f|] eqn:Hopen.
  - destruct (Marshal r) as [d|] eqn:Hd.
    + assert (Hf : fs !! path s = Some f).
      { unfold os_Open in Hopen. destruct (fs !! path s) as [f0|]; [| done].
        destruct (open_err f0); by simplify_eq. }
      destruct (file_Write f (d ++ [LF])) as [f' ok] eqn:Hw.
      rewrite <- (app_nil_r (d ++ [LF])).
      eapply rtc_l.
      { apply solo_step.
        apply (step_Write s fs _ (path s) (d ++ [LF]) [] f f' ok);
          [by destruct d | done | done]. }
      destruct ok; cbn [fst snd].
      * eapply rtc_l; [apply solo_step, step_Write_end |].
        eapply rtc_l; [apply solo_step, step_Unlock |]. constructor.
      * eapply rtc_l; [apply solo_step, step_Unlock |]. constructor.
    + cbn [fst snd].
      eapply rtc_l; [apply solo_step, step_Unlock |]. constructor.
  - cbn [fst snd].
    eapply rtc_l; [apply solo_step, step_Unlock |]. constructor.
Qed.

(** After a step a goroutine holds the lock, or has returned and released
    it. *)
Lemma goroutine_step_after s fs l g fs' l' g' :
  goroutine_step s (fs, l, g) (fs', l', g') ->
  (holds_lock g' = true /\ l' = true) \/
  (exists res, pc g' = Returned res /\ l' = false).
Proof.
  inversion 1; subst; simpl; eauto.
  - left. split; [| done].
    match goal with
    | Hb : run_body _ _ _ = _ |- _ => exact (run_body_holds _ _ _ _ _ Hb)
    end.
  - left. by destruct ok.
Qed.

(** Encoded lines decode, one by one, to records with the same
    identifiers. *)
Lemma lines_decode rs ls :
  Forall (fun r => int64 (ID r)) rs ->
  Forall2 (fun r d => Marshal r = Some d) rs ls ->
  Forall no_LF ls /\
  exists decoded,
    Forall2 (fun d r' => Unmarshal d = Some r') ls decoded /\
    map ID decoded = map ID rs.
Proof.
  intros Hids Hls. induction Hls as [|r d rs ls Hd Hls IH].
  - split; [constructor |]. exists []. split; [constructor | done].
  - apply Forall_cons in Hids as [Hid Hids].
    destruct (IH Hids) as (Hno & decoded & Hdec & Hmap).
    destruct (Unmarshal_Marshal_ID r d Hid Hd) as (r' & Hr' & Hidr).
    split.
    + constructor; [| done].
      eapply Forall_impl; [by apply (Marshal_one_line r) | by intros ? []].
    + exists (r' :: decoded). split; [by constructor |].
      simpl. by rewrite Hidr, Hmap.
Qed.

(** C9. Every step of every call but its first is taken holding the lock;
    the first takes the free lock and touches no file; a call keeps the
    lock until it returns.  So in every state that goroutines calling the
    six methods can reach, at most one of them is inside a method body.
    And when goroutines that each save a record, with distinct identifiers,
    have all returned, every call has succeeded, every line of the log
    decodes, and the identifiers in the log are those of the saved
    records. *)
Theorem C9_lock_serialises_callers :
  (forall s fs l g fs' l' g',
     goroutine_step s (fs, l, g) (fs', l', g') ->
     ((holds_lock g = true /\ l = true) \/
      (pc g = AtLock /\ l = false /\ fs' = fs)) /\
     ((holds_lock g' = true /\ l' = true) \/
      (exists res, pc g' = Returned res /\ l' = false))) /\
  (forall s fs calls c,
     rtc (step s) (start fs calls) c ->
     (forall i j gi gj,
        goroutines c !! i = Some gi -> goroutines c !! j = Some gj ->
        holds_lock gi = true -> holds_lock gj = true -> i = j) /\
     (locked c = true <->
      exists i g, goroutines c !! i = Some g /\ holds_lock g = true)) /\
  (forall s (fs : FS) rs c,
     fs !! path s = Some (plain_file []) ->
     Forall (fun r => int64 (ID r)) rs -> NoDup (map ID rs) ->
     rtc (step s) (start fs (map CallSaveRecord rs)) c ->
     all_returned c ->
     Forall (fun g => pc g = Returned (RetError None)) (goroutines c) /\
     exists ds decoded,
       files c !! path s = Some (plain_file (join_lines ds)) /\
       Forall no_LF ds /\
       Forall2 (fun d r' => Unmarshal d = Some r') ds decoded /\
       map ID decoded ≡ₚ map ID rs).
Proof.
  split; [| split].
  - intros s fs l g fs' l' g' Hg. split.
    + by eapply goroutine_step_holds.
    + by eapply goroutine_step_after.
  - intros s fs calls c Hrun.
    pose proof (mutex_inv_reachable s fs calls c Hrun) as Hmu. split.
    + intros i j gi gj. by apply mutex_inv_exclusive.
    + by apply mutex_inv_locked.
  - intros s fs rs c Hf Hids _ Hrun Hret.
    destruct (saves_inv_reachable s fs rs c Hf Hrun)
      as (Hmu & ds & partial & Hfile & Hperm & Hgood & Hpart).
    assert (Hp : partial = []).
    { apply (nobody_writing (goroutines c)); [| done].
      intros j gj Hj (name & pending & Hw).
      destruct (proj1 (Forall_lookup _ _) Hret j gj Hj) as [res Hres].
      congruence. }
    subst partial. rewrite app_nil_r in Hfile.
    destruct (written_all_returned s (goroutines c) rs Hret Hgood)
      as [Hpcs Hlines]; [by eapply calls_reachable |].
    split; [done |].
    destruct (lines_decode rs _ Hids Hlines) as (Hno & decoded & Hdec & Hmap).
    destruct (Forall2_perm_l _ _ ds _ (symmetry Hperm) Hdec)
      as (decoded' & Hpd & Hdec').
    exists ds, decoded'. split; [done |]. split; [| split; [done |]].
    + apply Forall_forall. intros d Hd. rewrite Hperm in Hd.
      by apply (proj1 (Forall_forall _ _) Hno).
    + rewrite <- Hmap. symmetry. by apply Permutation_map.
Qed.

End ConcurrentProperties.

(** ** Further behaviour of the storage, the constructor and the handler *)

Section StorageBehaviour.
Context {J : JSON} {L : JSONLaws J}.

Lemma scan_loop_None_inv tokens id :
  scan_loop tokens id = None ->
  forall tok r, tok ∈ tokens -> Unmarshal tok = Some r -> ID r <> id.
Proof.
  induction tokens as [|tok0 tokens IH]; intros Hnone tok r Hin Hu.
  - by apply elem_of_nil in Hin.
  - cbn [scan_loop] in Hnone. apply elem_of_cons in Hin as [-> | Hin].
    + rewrite Hu in Hnone. by destruct (Z.eqb_spec (ID r) id).
    + destruct (Unmarshal tok0) as [r0|]; [destruct (ID r0 =? id); [done |] |];
        by eapply IH.
Qed.

Lemma scan_closed_tokens ls tok :
  tok ∈ (scan_closed ls).1 ->
  exists l, l ∈ ls /\ fits l = true /\ tok = dropCR l.
Proof.
  induction ls as [|l ls IH]; cbn [scan_closed]; intros Hin.
  - by apply elem_of_nil in Hin.
  - destruct (fits l) eqn:Hfit; [| by apply elem_of_nil in Hin].
    destruct (scan_closed ls) as [toks long]. cbn [fst] in *.
    apply elem_of_cons in Hin as [-> | Hin].
    + exists l. split; [left | done].
    + destruct (IH Hin) as (l' & ? & ? & ?).
      exists l'. split; [by right | done].
Qed.

Lemma scan_closed_complete ls :
  (scan_closed ls).2 = false ->
  Forall (fun l => fits l = true) ls /\ (scan_closed ls).1 = map dropCR ls.
Proof.
  induction ls as [|l ls IH]; cbn [scan_closed]; [done |].
  destruct (fits l) eqn:Hfit; [| done].
  destruct (scan_closed ls) as [toks long]. cbn [fst snd] in *.
  intros Hlong. destruct (IH Hlong) as [Hfits ->].
  split; [by constructor | done].
Qed.

Lemma Scanner_last last :
  no_LF last ->
  Scanner last = match last with
                 | [] => ([], false)
                 | _ => if fits last then ([dropCR last], false) else ([], true)
                 end.
Proof.
  intros Hl. unfold Scanner. rewrite split_lines_last by done.
  by destruct last.
Qed.

Lemma Scanner_tokens ls last tok :
  Forall no_LF ls -> no_LF last ->
  tok ∈ (Scanner (join_lines ls ++ last)).1 ->
  exists l, l ∈ log_lines ls last /\ fits l = true /\ tok = dropCR l.
Proof.
  intros Hls Hlast. rewrite Scanner_closed by done.
  pose proof (scan_closed_tokens ls tok) as Htoks.
  assert (Hclosed : tok ∈ (scan_closed ls).1 ->
    exists l, l ∈ log_lines ls last /\ fits l = true /\ tok = dropCR l).
  { intros Hin. destruct (Htoks Hin) as (l & ? & ? & ?).
    exists l. split; [| done]. unfold log_lines. apply elem_of_app. by left. }
  destruct (scan_closed ls) as [toks long]. cbn [fst snd] in *.
  destruct long; cbn [fst]; [done |].
  rewrite Scanner_last by done. intros Hin.
  apply elem_of_app in Hin as [Hin | Hin]; [by apply Hclosed |].
  destruct last as [|b last]; [by apply elem_of_nil in Hin |].
  destruct (fits (b :: last)) eqn:Hf; cbn [fst] in Hin;
    [| by apply elem_of_nil in Hin].
  apply list_elem_of_singleton in Hin as ->.
  exists (b :: last). split; [| done].
  unfold log_lines. apply elem_of_app. right. left.
Qed.

Lemma Scanner_complete ls last :
  Forall no_LF ls -> no_LF last ->
  (Scanner (join_lines ls ++ last)).2 = false ->
  Forall (fun l => fits l = true) (log_lines ls last) /\
  (Scanner (join_lines ls ++ last)).1 = map dropCR (log_lines ls last).
Proof.
  intros Hls Hlast. rewrite Scanner_closed by done.
  pose proof (scan_closed_complete ls) as Hc.
  destruct (scan_closed ls) as [toks long]. cbn [fst snd] in *.
  destruct long; cbn [fst snd]; [done |].
  destruct (Hc eq_refl) as [Hfits ->].
  rewrite Scanner_last by done. unfold log_lines.
  destruct last as [|b last]; cbn [fst snd].
  - intros _. rewrite !app_nil_r. done.
  - destruct (fits (b :: last)) eqn:Hf; cbn [fst snd]; [| done].
    intros _. split.
    + apply Forall_app. split; [done | by constructor].
    + by rewrite map_app.
Qed.

(** ** What a lookup's result says about the log *)

(** X7. A record returned by [GetRecord] has the requested identifier and
    is decoded from a line of the log that fits the scanner; and the
    not-found error is definitive: it is returned only when the whole log
    was read, every line fits, and no line decodes to a record with the
    identifier. *)
Theorem GetRecord_sound s id (fs : FS) f ls last :
  os_Open fs (path s) = Some f ->
  stream f = join_lines ls ++ last ->
  Forall no_LF ls -> no_LF last ->
  (forall r, (GetRecord s id fs).2 = inr r ->
     ID r = id /\
     exists l, l ∈ log_lines ls last /\ fits l = true /\
               Unmarshal (dropCR l) = Some r) /\
  ((GetRecord s id fs).2 = inl ErrNotFound ->
     stream_fails f = false /\
     Forall (fun l => fits l = true) (log_lines ls last) /\
     forall l r, l ∈ log_lines ls last ->
                 Unmarshal (dropCR l) = Some r -> ID r <> id).
Proof.
  intros Hf Hst Hls Hlast. unfold GetRecord. rewrite Hf, Hst.
  pose proof (Scanner_tokens ls last) as Htoks.
  pose proof (Scanner_complete ls last Hls Hlast) as Hcomplete.
  destruct (Scanner (join_lines ls ++ last)) as [tokens long].
  cbn [fst snd] in *.
  destruct (scan_loop tokens id) as [r0|] eqn:Hloop.
  - split; [| done]. intros r [= <-].
    apply scan_loop_Some in Hloop as (Hid & tok & Hin & Hu).
    split; [done |].
    destruct (Htoks tok Hls Hlast Hin) as (l & Hl & Hfit & ->). eauto.
  - split; [by destruct (long || stream_fails f) |].
    destruct long; [done |]. cbn [orb].
    destruct (stream_fails f); [done |]. intros _.
    destruct (Hcomplete eq_refl) as [Hfits ->].
    split; [done |]. split; [done |].
    intros l r Hl Hu. eapply scan_loop_None_inv; [done | | done].
    apply list_elem_of_fmap. eauto.
Qed.

(** X8. A line of 65536 bytes or more hides everything after it: a lookup
    returns the first match among the lines before it, and the scan error
    when there is none, whatever follows the long line. *)
Theorem long_line_blocks_lookups s id (fs : FS) f ls long rest :
  os_Open fs (path s) = Some f ->
  stream f = join_lines ls ++ long ++ LF :: rest ->
  Forall no_LF ls -> Forall (fun l => fits l = true) ls ->
  no_LF long -> fits long = false ->
  (GetRecord s id fs).2 =
    match first_match (map dropCR ls) id with
    | Some r => inr r
    | None => inl ErrScan
    end.
Proof.
  intros Hf Hst Hls Hfits Hlong Hfit. unfold GetRecord. rewrite Hf, Hst.
  rewrite Scanner_join, Scanner_too_long by done. cbn [fst snd].
  rewrite app_nil_r, scan_loop_first_match.
  by destruct (first_match (map dropCR ls) id).
Qed.

(** X9. Saving never changes what a successful lookup returns: a record
    found in a log of closed lines is still the one found after any further
    save, whether the save succeeds or not; in particular a second record
    saved under the same identifier does not replace the first. *)
Theorem save_preserves_found s id (fs : FS) f ls r r' :
  fs !! path s = Some f -> read_err f = None ->
  data f = join_lines ls -> Forall no_LF ls ->
  (GetRecord s id fs).2 = inr r ->
  (GetRecord s id (SaveRecord s r' fs).1).2 = inr r.
Proof.
  intros Hfs Hread Hdata Hls Hget.
  assert (Hscan : forall f' piece,
    os_Open (<[path s := f']> fs) (path s) = Some f' ->
    stream f' = join_lines ls ++ piece ->
    (GetRecord s id (<[path s := f']> fs)).2 = inr r).
  { intros f' piece Hopen Hst. revert Hget. unfold GetRecord, os_Open.
    rewrite Hfs. destruct (open_err f) eqn:Hopen_f; [done |].
    unfold os_Open in Hopen. rewrite Hopen, Hst.
    unfold stream. rewrite Hread, Hdata.
    rewrite <- (app_nil_r (join_lines ls)) at 1.
    rewrite !Scanner_closed by done. rewrite Scanner_nil.
    destruct (scan_closed ls) as [toks long]. cbn [fst snd].
    destruct long; cbn [fst snd].
    - by destruct (scan_loop toks id).
    - rewrite app_nil_r, scan_loop_app.
      destruct (scan_loop toks id) as [r0|]; [done |].
      cbn [orb]. unfold stream_fails. by rewrite Hread. }
  unfold SaveRecord, append_record, os_Open. rewrite Hfs.
  destruct (open_err f) eqn:Hopen; [done |].
  destruct (Marshal r') as [d|]; [| done].
  destruct (file_Write f (d ++ [LF])) as [f' ok] eqn:Hw. cbn [fst].
  unfold file_Write in Hw.
  destruct (write_room f) as [k|].
  - destruct (length (d ++ [LF]) <=? k)%nat; injection Hw as <- <-.
    + apply (Hscan _ (d ++ [LF])).
      * unfold os_Open. rewrite lookup_insert_eq. cbn. by rewrite Hopen.
      * unfold stream. cbn. by rewrite Hread, Hdata.
    + apply (Hscan _ (take k (d ++ [LF]))).
      * unfold os_Open. rewrite lookup_insert_eq. cbn. by rewrite Hopen.
      * unfold stream. cbn. by rewrite Hread, Hdata.
  - injection Hw as <- <-. apply (Hscan _ (d ++ [LF])).
    + unfold os_Open. rewrite lookup_insert_eq. cbn. by rewrite Hopen.
    + unfold stream. cbn. by rewrite Hread, Hdata.
Qed.

(** ** Loading the staged records from a file that cannot be read *)

Lemma decode_loop_failing fuel :
  forall st acc res,
    decode_loop fuel st true acc = Some res -> res = inl ErrDecode.
Proof.
  induction fuel as [|fuel IH]; intros st acc res; cbn [decode_loop]; [done |].
  destruct (Decode st) as [rec rest | |]; [by apply IH | |];
    by intros [= <-].
Qed.

(** X10. [LoadTempRecords] is all or nothing: when a read of the staging
    file fails it returns the decoding error, not the records read before
    the failure; and when it returns records, the file was read to its end
    and the decoder rejected no entry. *)
Theorem LoadTempRecords_all_or_nothing s (fs : FS) f :
  os_Open fs (tempPath s) = Some f ->
  (stream_fails f = true -> LoadTempRecords s fs = (fs, inl ErrDecode)) /\
  (forall rs, (LoadTempRecords s fs).2 = inr rs ->
     stream_fails f = false /\ ~ hits_unparsable (stream f)).
Proof.
  intros Hf.
  destruct (LoadTempRecords_returns s fs f Hf) as (res & Hres & Hload).
  assert (Hfail : stream_fails f = true -> res = inl ErrDecode).
  { intros E. rewrite E in Hres. by apply decode_loop_failing in Hres. }
  split.
  - intros E. by rewrite Hload, (Hfail E).
  - intros rs. rewrite Hload. cbn [snd]. intros ->. split.
    + destruct (stream_fails f); [by specialize (Hfail eq_refl) | done].
    + intros Hbad.
      rewrite (decode_loop_unparsable _ Hbad) in Hres by lia. done.
Qed.
(** ** Operations one after the other *)

Lemma LoadTempRecords_ext s (fs fs' : FS) :
  fs !! tempPath s = fs' !! tempPath s ->
  (LoadTempRecords s fs).2 = (LoadTempRecords s fs').2.
Proof.
  intros E. unfold LoadTempRecords, os_Open. rewrite E.
  destruct (fs' !! tempPath s) as [f|]; [| done].
  destruct (open_err f); [done |].
  by destruct (decode_loop _ _ _ _).
Qed.

Lemma LoadLastLinksNum_ext s (fs fs' : FS) :
  fs !! path s = fs' !! path s ->
  (LoadLastLinksNum s fs).2 = (LoadLastLinksNum s fs').2.
Proof.
  intros E. unfold LoadLastLinksNum, LoadLastLinksNum_cost, os_Open.
  by rewrite E.
Qed.

Lemma stage_all_frame s rs :
  forall (fs : FS) p, p <> tempPath s -> stage_all s rs fs !! p = fs !! p.
Proof.
  induction rs as [|r rs IH]; intros fs p Hp; [done |].
  unfold stage_all in *. cbn [foldl]. rewrite IH by done.
  by apply append_record_frame.
Qed.

Lemma LoadTempRecords_empty s (fs : FS) f :
  os_Open fs (tempPath s) = Some f -> data f = [] ->
  LoadTempRecords s fs = (fs, inr []).
Proof.
  intros Hf Hd.
  assert (Hst : stream f = []).
  { unfold stream. rewrite Hd. destruct (read_err f); [| done].
    by rewrite take_nil. }
  assert (Hsf : stream_fails f = false).
  { unfold stream_fails. rewrite Hd. by destruct (read_err f). }
  eapply (LoadTempRecords_loop s fs f 1); [done | rewrite Hst; simpl; lia |].
  rewrite Hst, Hsf. simpl. by rewrite Decode_nil.
Qed.

(** The identifier of a record whose line closes the log is recovered. *)
Lemma LoadLastLinksNum_closing_line s (fs : FS) ls r d :
  fs !! path s = Some (plain_file (join_lines ls ++ d ++ [LF])) ->
  Marshal r = Some d -> int64 (ID r) ->
  (LoadLastLinksNum s fs).2 = ID r.
Proof.
  intros Hlog Hd Hid. unfold LoadLastLinksNum. cbn [snd].
  rewrite (LoadLastLinksNum_cost_readable s _ _ Hlog); [| done | done | done |].
  2: { cbn [data plain_file]. intros E.
       apply app_eq_nil in E as [_ E]. by apply app_eq_nil in E as [_ E]. }
  cbn [fst data plain_file].
  pose proof (Marshal_one_line r d Hd) as Hline.
  rewrite last_line_unique.
  - unfold decode_ID. rewrite (Unmarshal_Marshal_LF r d Hd).
    destruct (Unmarshal_Marshal_ID r d Hid Hd) as (r' & -> & Hr'). done.
  - eapply Forall_impl; [done | by intros ? []].
  - destruct (join_lines_end ls) as [-> | [pre ->]]; [by left | right; eauto].
Qed.

(** X2. The staging operations do not create the staging file: while it
    is missing, staging and loading fail with the open error and change
    nothing.  [ClearTempFile] does create it, and staging and loading then
    work. *)
Theorem clear_recreates_staging s (fs : FS) r :
  fs !! tempPath s = None -> json_faithful r ->
  SaveTempRecord s r fs = (fs, Some ErrOpen) /\
  LoadTempRecords s fs = (fs, inl ErrOpen) /\
  (ClearTempFile s fs).2 = None /\
  (SaveTempRecord s r (ClearTempFile s fs).1).2 = None /\
  (LoadTempRecords s (SaveTempRecord s r (ClearTempFile s fs).1).1).2
    = inr [r].
Proof.
  intros Hnone Hr.
  unfold SaveTempRecord at 1, append_record, LoadTempRecords at 1, os_Open.
  rewrite Hnone. split; [done |]. split; [done |].
  unfold ClearTempFile, os_WriteFile_empty. rewrite Hnone. cbn [fst snd].
  split; [done |].
  pose proof (stage_then_load s (<[tempPath s := plain_file []]> fs) [r])
    as Hload.
  unfold stage_all in Hload. cbn [foldl] in Hload.
  rewrite Hload; [| apply lookup_insert_eq | by constructor].
  split; [| done].
  destruct Hr as (d & Hd & _). unfold SaveTempRecord.
  by rewrite (append_record_plain _ _ _ [] d)
    by (apply lookup_insert_eq || done).
Qed.

(** X4. A write that fails part-way is not rolled back: the bytes written
    stay at the end of the log, without a newline.  The next save is
    appended to that torn line: it succeeds, and the record it saved is not
    found. *)
Theorem torn_write_loses_next_save :
  (forall s (fs : FS) f r d k,
     os_Open fs (path s) = Some f -> Marshal r = Some d ->
     write_room f = Some k -> (k <= length d)%nat ->
     SaveRecord s r fs =
       (<[path s := with_data f (data f ++ take k d) (Some 0%nat)]> fs,
        Some ErrWrite) /\
     no_LF (take k d)) /\
  (forall s (fs : FS) ls t r d,
     fs !! path s = Some (plain_file (join_lines ls ++ t)) ->
     Forall no_LF ls -> Forall (fun l => fits l = true) ls -> no_LF t ->
     (forall l r0, l ∈ ls -> Unmarshal (dropCR l) = Some r0 -> ID r0 <> ID r) ->
     Marshal r = Some d ->
     fits (t ++ d) = true -> Unmarshal (dropCR (t ++ d)) = None ->
     (SaveRecord s r fs).2 = None /\
     (GetRecord s (ID r) (SaveRecord s r fs).1).2 = inl ErrNotFound).
Proof.
  split.
  - intros s fs f r d k Hf Hd Hroom Hk.
    pose proof (Marshal_one_line r d Hd) as Hline. split.
    + unfold SaveRecord, append_record, file_Write.
      rewrite Hf, Hd, Hroom.
      rewrite (proj2 (Nat.leb_gt _ _))
        by (rewrite length_app; cbn [length]; lia).
      by rewrite take_app_le.
    + apply Forall_take. eapply Forall_impl; [done | by intros ? []].
  - intros s fs ls t r d Hfs Hls Hfits Ht Huniq Hd Hfit Hdec.
    pose proof (Marshal_one_line r d Hd) as Hline.
    assert (Hnod : no_LF d) by (eapply Forall_impl; [done | by intros ? []]).
    unfold SaveRecord. rewrite (append_record_plain _ _ _ _ _ Hfs Hd).
    split; [done |]. cbn [fst].
    rewrite (GetRecord_plain s (ID r) _
               (join_lines (ls ++ [t ++ d]) ++ [])).
    2: { rewrite lookup_insert_eq, join_lines_snoc, app_nil_r.
         by rewrite <- !app_assoc. }
    rewrite Scanner_join, Scanner_nil.
    + cbn [fst snd]. rewrite app_nil_r, map_app, scan_loop_app.
      rewrite scan_loop_None.
      * cbn [map scan_loop]. by rewrite Hdec.
      * intros tok r0 Hin. apply list_elem_of_fmap in Hin as (l & -> & Hin).
        by apply Huniq.
    + apply Forall_app. split; [done |]. constructor; [| done].
      by apply Forall_app.
    + apply Forall_app. split; [done | by constructor].
Qed.

(** X11. Staging, committing and clearing compose: after records are
    staged, a save to the record log leaves them staged; clearing the
    staging log then leaves the record log with the saved line at its end,
    so that no record is staged and the last identifier is that of the
    saved record. *)
Theorem stage_commit_clear s (fs : FS) ls rs r :
  path s <> tempPath s ->
  fs !! path s = Some (plain_file (join_lines ls)) ->
  fs !! tempPath s = Some (plain_file []) ->
  Forall json_faithful rs -> int64 (ID r) ->
  let fs1 := stage_all s rs fs in
  let fs2 := (SaveRecord s r fs1).1 in
  let fs3 := (ClearTempFile s fs2).1 in
  (SaveRecord s r fs1).2 = None /\
  (LoadTempRecords s fs2).2 = inr rs /\
  (ClearTempFile s fs2).2 = None /\
  (LoadTempRecords s fs3).2 = inr [] /\
  (LoadLastLinksNum s fs3).2 = ID r /\
  exists d, Marshal r = Some d /\
            fs3 !! path s = Some (plain_file (join_lines (ls ++ [d]))).
Proof.
  intros Hne Hlog Htemp Hrs Hid fs1 fs2 fs3.
  destruct (Marshal_total r) as [d Hd].
  assert (Hlog1 : fs1 !! path s = Some (plain_file (join_lines ls))).
  { unfold fs1. by rewrite stage_all_frame. }
  destruct (stage_all_log s rs fs [] Htemp Hrs) as (ds & Hds & Htemp1).
  fold fs1 in Htemp1. cbn [app] in Htemp1.
  assert (Hsave : SaveRecord s r fs1 =
    (<[path s := plain_file (join_lines ls ++ d ++ [LF])]> fs1, None)).
  { unfold SaveRecord. by apply append_record_plain. }
  assert (Hfs2 : fs2 = <[path s := plain_file (join_lines ls ++ d ++ [LF])]> fs1).
  { unfold fs2. by rewrite Hsave. }
  assert (Htemp2 : fs2 !! tempPath s = Some (plain_file (join_lines ds))).
  { rewrite Hfs2, lookup_insert_ne by done. done. }
  assert (Hfs3 : fs3 = <[tempPath s := plain_file []]> fs2).
  { unfold fs3, ClearTempFile, os_WriteFile_empty. by rewrite Htemp2. }
  assert (Hlog3 : fs3 !! path s =
                  Some (plain_file (join_lines ls ++ d ++ [LF]))).
  { rewrite Hfs3, lookup_insert_ne by done.
    rewrite Hfs2. apply lookup_insert_eq. }
  split; [by rewrite Hsave |]. split.
  { rewrite (LoadTempRecords_ext s fs2 fs1).
    - unfold fs1. by rewrite stage_then_load.
    - rewrite Hfs2. by apply lookup_insert_ne. }
  split.
  { unfold ClearTempFile, os_WriteFile_empty. by rewrite Htemp2. }
  split.
  { rewrite (LoadTempRecords_empty s fs3 (plain_file [])); [done | | done].
    apply os_Open_plain. rewrite Hfs3. apply lookup_insert_eq. }
  split.
  { by apply (LoadLastLinksNum_closing_line s fs3 ls r d). }
  exists d. split; [done |]. by rewrite join_lines_snoc.
Qed.
(** ** The record log under concurrent callers *)

(** One step of a goroutine adds bytes to the record log or leaves it as it
    is, and does not create it. *)
Lemma goroutine_step_log s (fs : FS) l g fs' l' g' :
  path s <> tempPath s ->
  goroutine_step s (fs, l, g) (fs', l', g') ->
  match fs !! path s with
  | Some f => exists f' more,
      fs' !! path s = Some f' /\ data f' = data f ++ more
  | None => fs' !! path s = None
  end.
Proof.
  intros Hne Hstep.
  assert (Hsame : forall fs1 : FS, fs1 !! path s = fs !! path s ->
    match fs !! path s with
    | Some f => exists f' more,
        fs1 !! path s = Some f' /\ data f' = data f ++ more
    | None => fs1 !! path s = None
    end).
  { intros fs1 ->. destruct (fs !! path s) as [f|]; [| done].
    exists f, []. by rewrite app_nil_r. }
  inversion Hstep as [? c | ? c ? pc' Hbody | ? c name chunk rest f f' ok
                      Hchunk Hname Hw | ? c name | ? c res]; subst.
  - by apply Hsame.
  - apply Hsame. destruct c as [r | r | | id | |]; cbn [run_body] in Hbody.
    + by injection Hbody as <- _.
    + by injection Hbody as <- _.
    + pose proof (LoadTempRecords_fs s fs) as Hfs.
      destruct (LoadTempRecords s fs) as [fs1 res].
      injection Hbody as <- _. cbn [fst] in Hfs. by rewrite Hfs.
    + pose proof (GetRecord_fs s id fs) as Hfs.
      destruct (GetRecord s id fs) as [fs1 res].
      injection Hbody as <- _. cbn [fst] in Hfs. by rewrite Hfs.
    + pose proof (ClearTempFile_frame s fs (path s) Hne) as Hfs.
      destruct (ClearTempFile s fs) as [fs1 res].
      injection Hbody as <- _. done.
    + cbn in Hbody. by injection Hbody as <- _.
  - destruct (decide (name = path s)) as [-> | Hother].
    + rewrite Hname, lookup_insert_eq. unfold file_Write in Hw.
      destruct (write_room f) as [k|].
      * destruct (length chunk <=? k)%nat; injection Hw as <- _; eauto.
      * injection Hw as <- _. eauto.
    + apply Hsame. by apply lookup_insert_ne.
  - by apply Hsame.
  - by apply Hsame.
Qed.

Lemma reachable_log s c c' :
  path s <> tempPath s -> rtc (step s) c c' ->
  match files c !! path s with
  | Some f => exists f' more,
      files c' !! path s = Some f' /\ data f' = data f ++ more
  | None => files c' !! path s = None
  end.
Proof.
  intros Hne Hrun. induction Hrun as [c | c c1 c2 Hstep Hrun IH].
  - destruct (files c !! path s) as [f|]; [| done].
    exists f, []. by rewrite app_nil_r.
  - inversion Hstep as [? i g fs' l' g' Hi Hg]; subst. cbn [files] in IH.
    pose proof (goroutine_step_log s _ _ _ _ _ _ Hne Hg) as Hlog.
    destruct (files c !! path s) as [f|].
    + destruct Hlog as (f1 & more1 & Hf1 & Hd1). rewrite Hf1 in IH.
      destruct IH as (f2 & more2 & Hf2 & Hd2).
      exists f2, (more1 ++ more2). split; [done |].
      by rewrite Hd2, Hd1, app_assoc.
    + by rewrite Hlog in IH.
Qed.

(** X1. The record log only grows: whatever calls run, and however their
    steps interleave, the log holds at every moment the bytes it held
    before, at the same place, followed by what has been written since.
    Nothing is overwritten or truncated. *)
Theorem log_only_grows s c c' f :
  path s <> tempPath s ->
  rtc (step s) c c' ->
  files c !! path s = Some f ->
  exists f' more, files c' !! path s = Some f' /\ data f' = data f ++ more.
Proof.
  intros Hne Hrun Hf.
  pose proof (reachable_log s c c' Hne Hrun) as Hlog.
  by rewrite Hf in Hlog.
Qed.

(** X3. No method creates the record log: when it is missing, it is
    missing after any calls, interleaved in any way, and every save and
    every lookup then fails with the open error, while the last identifier
    is reported as 0. *)
Theorem missing_log_is_not_created s c c' :
  path s <> tempPath s ->
  rtc (step s) c c' ->
  files c !! path s = None ->
  files c' !! path s = None /\
  (forall r, SaveRecord s r (files c') = (files c', Some ErrOpen)) /\
  (forall id, GetRecord s id (files c') = (files c', inl ErrOpen)) /\
  LoadLastLinksNum s (files c') = (files c', 0).
Proof.
  intros Hne Hrun Hf.
  pose proof (reachable_log s c c' Hne Hrun) as Hlog.
  rewrite Hf in Hlog. split; [done |].
  unfold SaveRecord, append_record, GetRecord, LoadLastLinksNum,
    LoadLastLinksNum_cost, os_Open.
  rewrite Hlog. done.
Qed.
(** ** The constructor *)

Lemma os_OpenFile_create_spec create_fails (fs fs1 : FS) name :
  os_OpenFile_create create_fails fs name = Some fs1 ->
  (forall p f, fs !! p = Some f -> fs1 !! p = Some f) /\
  (forall p f, fs1 !! p = Some f ->
     fs !! p = Some f \/ (fs !! p = None /\ p = name /\ f = plain_file [])) /\
  is_Some (os_Open fs1 name).
Proof.
  unfold os_OpenFile_create, os_Open.
  destruct (fs !! name) as [f0|] eqn:Hname.
  - destruct (open_err f0) eqn:Hopen; [done |]. intros [= <-].
    rewrite Hname, Hopen. eauto.
  - destruct create_fails; [done |]. intros [= <-].
    rewrite lookup_insert_eq. cbn. repeat split; [| | eauto].
    + intros p f Hp. rewrite lookup_insert_ne; [done |]. congruence.
    + intros p f. destruct (decide (p = name)) as [-> | Hp].
      * rewrite lookup_insert_eq. intros [= <-]. by right.
      * rewrite lookup_insert_ne by done. by left.
Qed.

Lemma os_Open_kept (fs fs1 : FS) name :
  (forall p f, fs !! p = Some f -> fs1 !! p = Some f) ->
  is_Some (os_Open fs name) -> is_Some (os_Open fs1 name).
Proof.
  unfold os_Open. intros Hkeep [f Hf].
  destruct (fs !! name) as [f0|] eqn:Hname; [| done].
  by rewrite (Hkeep _ _ Hname).
Qed.

(** X12. [New] changes no file that exists: it truncates nothing and
    rewrites nothing, also when it fails.  The only files it adds are the
    two logs, empty, where they were missing.  When it succeeds the storage
    it returns has the two joined paths, and both logs can be opened. *)
Theorem New_keeps_files Join cfg mkdir_fails create_fails (fs : FS) :
  let filePath := Join (DirPath cfg) (FileName cfg) in
  let tempFilePath := Join (DirPath cfg) (TempFileName cfg) in
  let fs' := (New Join cfg mkdir_fails create_fails fs).1 in
  (forall p f, fs !! p = Some f -> fs' !! p = Some f) /\
  (forall p f, fs' !! p = Some f ->
     fs !! p = Some f \/
     (fs !! p = None /\ (p = filePath \/ p = tempFilePath) /\
      f = plain_file [])) /\
  (forall s, (New Join cfg mkdir_fails create_fails fs).2 = inr s ->
     s = mkStorage filePath tempFilePath /\
     is_Some (os_Open fs' (path s)) /\ is_Some (os_Open fs' (tempPath s))).
Proof.
  intros filePath tempFilePath. unfold New. fold filePath tempFilePath.
  destruct mkdir_fails; cbn [fst snd].
  { split; [done |]. split; [by left | done]. }
  destruct (os_OpenFile_create (create_fails filePath) fs filePath)
    as [fs1|] eqn:H1; cbn [fst snd].
  2: { split; [done |]. split; [by left | done]. }
  destruct (os_OpenFile_create_spec _ _ _ _ H1) as (Hkeep1 & Hnew1 & Hopen1).
  destruct (os_OpenFile_create (create_fails tempFilePath) fs1 tempFilePath)
    as [fs2|] eqn:H2; cbn [fst snd].
  - destruct (os_OpenFile_create_spec _ _ _ _ H2) as (Hkeep2 & Hnew2 & Hopen2).
    split; [by eauto |]. split.
    + intros p f Hp. destruct (Hnew2 p f Hp) as [Hp1 | (Hp1 & -> & ->)].
      * destruct (Hnew1 p f Hp1) as [? | (? & -> & ->)]; [by left |].
        right. eauto.
      * destruct (fs !! tempFilePath) as [f0|] eqn:Hfs.
        { by rewrite (Hkeep1 _ _ Hfs) in Hp1. }
        right. eauto.
    + intros s [= <-]. cbn [path tempPath]. split; [done |].
      split; [by eapply os_Open_kept | done].
  - split; [done |]. split; [| done].
    intros p f Hp. destruct (Hnew1 p f Hp) as [? | (? & -> & ->)]; [by left |].
    right. eauto.
Qed.

(** X13. On a directory where neither log exists and files can be
    created, [New] succeeds and gives a storage with no last identifier, no
    staged record and no record to find.  Where both logs exist and can be
    opened, [New] succeeds and changes nothing: a restart keeps the
    records, the staged ones too. *)
Theorem New_start_and_restart Join cfg create_fails (fs : FS) :
  let filePath := Join (DirPath cfg) (FileName cfg) in
  let tempFilePath := Join (DirPath cfg) (TempFileName cfg) in
  (fs !! filePath = None -> fs !! tempFilePath = None ->
   create_fails filePath = false -> create_fails tempFilePath = false ->
   exists fs' s,
     New Join cfg false create_fails fs = (fs', inr s) /\
     (LoadLastLinksNum s fs').2 = 0 /\
     (LoadTempRecords s fs').2 = inr [] /\
     forall id, (GetRecord s id fs').2 = inl ErrNotFound) /\
  (forall f1 f2,
     os_Open fs filePath = Some f1 -> os_Open fs tempFilePath = Some f2 ->
     New Join cfg false create_fails fs
       = (fs, inr (mkStorage filePath tempFilePath))).
Proof.
  intros filePath tempFilePath. split.
  - intros Hfile Htemp Hc1 Hc2.
    assert (Hboth : exists fs' : FS,
      New Join cfg false create_fails fs
        = (fs', inr (mkStorage filePath tempFilePath)) /\
      fs' !! filePath = Some (plain_file []) /\
      fs' !! tempFilePath = Some (plain_file [])).
    { unfold New, os_OpenFile_create. fold filePath tempFilePath.
      rewrite Hfile, Hc1.
      destruct (decide (tempFilePath = filePath)) as [E | E].
      - rewrite E, lookup_insert_eq. cbn [open_err plain_file].
        eexists. split; [done |]. by rewrite lookup_insert_eq.
      - rewrite lookup_insert_ne, Htemp, Hc2 by done.
        eexists. split; [done |].
        rewrite lookup_insert_eq, lookup_insert_ne, lookup_insert_eq by done.
        done. }
    destruct Hboth as (fs' & Hnew & Hf & Ht).
    exists fs', (mkStorage filePath tempFilePath).
    split; [done |]. split; [| split].
    + unfold LoadLastLinksNum, LoadLastLinksNum_cost, os_Open.
      cbn [path]. by rewrite Hf.
    + rewrite (LoadTempRecords_empty _ fs' (plain_file [])); [done | | done].
      by apply os_Open_plain.
    + intros id.
      by rewrite (GetRecord_plain (mkStorage filePath tempFilePath) id fs' []).
  - intros f1 f2. unfold New, os_OpenFile_create, os_Open.
    fold filePath tempFilePath.
    destruct (fs !! filePath) as [g1|]; [| done].
    destruct (open_err g1); [done |]. intros _.
    destruct (fs !! tempFilePath) as [g2|]; [| done].
    by destruct (open_err g2).
Qed.

(** ** The handler *)

Lemma GetRecord_ID s id fs r : (GetRecord s id fs).2 = inr r -> ID r = id.
Proof.
  unfold GetRecord. destruct (os_Open fs (path s)) as [f|]; [| done].
  destruct (Scanner (stream f)) as [tokens long].
  destruct (scan_loop tokens id) as [r'|] eqn:E.
  - intros [= <-]. by apply scan_loop_Some in E as [? _].
  - by destruct (long || stream_fails f).
Qed.

Lemma titles_link_cells kvs : titles (map link_cell kvs) = [].
Proof. induction kvs as [|kv kvs IH]; [done |]. exact IH. Qed.

Lemma titles_app doc1 doc2 : titles (doc1 ++ doc2) = titles doc1 ++ titles doc2.
Proof. unfold titles. apply omap_app. Qed.

Lemma titles_record rec cells doc :
  links_cells (Links rec) cells ->
  titles (record_title rec :: cells ++ PdfLn 4 :: doc) =
    ("Record: " +:+ FormatInt (ID rec)) :: titles doc.
Proof.
  intros [kvs _].
  change (titles (record_title rec :: map link_cell kvs ++ PdfLn 4 :: doc))
    with (("Record: " +:+ FormatInt (ID rec)) ::
          titles (map link_cell kvs ++ PdfLn 4 :: doc)).
  by rewrite titles_app, titles_link_cells.
Qed.

Section Repository.
Context {R E : Type}.
Variable repo_GetRecord : Z -> R -> R * (E + domain_Record).

Lemma render_records_titles st ids doc st' :
  render_records repo_GetRecord st ids doc st' ->
  titles doc =
    map (fun rec => "Record: " +:+ FormatInt (ID rec))
      (found_records repo_GetRecord st ids).
Proof.
  induction 1 as [st | st id ids e st1 doc st2 Hget _ IH
                  | st id ids rec st1 cells doc st2 Hget Hcells _ IH];
    cbn [found_records]; [done | by rewrite Hget |].
  rewrite Hget. cbn [map]. rewrite <- IH. by apply titles_record.
Qed.

Lemma render_records_in_order st ids doc st' :
  render_records repo_GetRecord st ids doc st' ->
  doc ≡ₚ (render_in_order repo_GetRecord st ids).1 /\
  st' = (render_in_order repo_GetRecord st ids).2.
Proof.
  induction 1 as [st | st id ids e st1 doc st2 Hget _ IH
                  | st id ids rec st1 cells doc st2 Hget Hcells _ IH];
    cbn [render_in_order]; [done | by rewrite Hget |].
  rewrite Hget. destruct IH as [Hdoc ->].
  destruct (render_in_order repo_GetRecord st1 ids) as [doc' st'].
  cbn [fst snd] in *. split; [| done].
  destruct Hcells as [kvs Hkvs]. by rewrite Hkvs, Hdoc.
Qed.

Lemma render_in_order_renders st ids :
  render_records repo_GetRecord st ids
    (render_in_order repo_GetRecord st ids).1
    (render_in_order repo_GetRecord st ids).2.
Proof.
  revert st. induction ids as [|id ids IH]; intros st; cbn [render_in_order].
  - constructor.
  - destruct (repo_GetRecord id st) as [st1 [e | rec]] eqn:Hget.
    + eapply render_skip; [done | apply IH].
    + specialize (IH st1).
      destruct (render_in_order repo_GetRecord st1 ids) as [doc st2].
      cbn [fst snd] in *. eapply render_record; [done | | done].
      by constructor.
Qed.

(** The blocks of a document: one for each record found, its links in some
    order between its title and its line break. *)
Lemma render_records_blocks st ids doc st' :
  render_records repo_GetRecord st ids doc st' ->
  exists blocks,
    Forall2 (fun rec cells =>
               cells ≡ₚ map link_cell (map_to_list (Links rec)))
      (found_records repo_GetRecord st ids) blocks /\
    doc = concat (zip_with
                    (fun rec cells => record_title rec :: cells ++ [PdfLn 4])
                    (found_records repo_GetRecord st ids) blocks) /\
    st' = (render_in_order repo_GetRecord st ids).2.
Proof.
  induction 1 as [st | st id ids e st1 doc st2 Hget _ IH
                  | st id ids rec st1 cells doc st2 Hget Hcells _ IH];
    cbn [found_records render_in_order].
  - exists []. by repeat split.
  - by rewrite Hget.
  - rewrite Hget. destruct IH as (blocks & Hblocks & -> & ->).
    exists (cells :: blocks). split; [| split].
    + constructor; [| done]. destruct Hcells as [kvs Hkvs]. by rewrite Hkvs.
    + cbn [zip_with concat]. by rewrite <- app_comm_cons, <- app_assoc.
    + by destruct (render_in_order repo_GetRecord st1 ids).
Qed.

Lemma blocks_render ids :
  forall st blocks,
    Forall2 (fun rec cells =>
               cells ≡ₚ map link_cell (map_to_list (Links rec)))
      (found_records repo_GetRecord st ids) blocks ->
    render_records repo_GetRecord st ids
      (concat (zip_with
                 (fun rec cells => record_title rec :: cells ++ [PdfLn 4])
                 (found_records repo_GetRecord st ids) blocks))
      (render_in_order repo_GetRecord st ids).2.
Proof.
  induction ids as [|id ids IH]; intros st blocks;
    cbn [found_records render_in_order].
  - intros Hblocks. apply Forall2_nil_inv_l in Hblocks as ->. constructor.
  - destruct (repo_GetRecord id st) as [st1 [e | rec]] eqn:Hget.
    + intros Hblocks. eapply render_skip; [done | by apply IH].
    + intros Hblocks.
      apply Forall2_cons_inv_l in Hblocks as (cells & rest & Hcells & Hrest & ->).
      specialize (IH st1 rest Hrest).
      destruct (render_in_order repo_GetRecord st1 ids) as [doc0 st2].
      cbn [snd zip_with concat] in *.
      rewrite <- app_comm_cons, <- app_assoc. cbn [app].
      eapply render_record; [done | | done].
      apply Permutation_map_inv in Hcells as (kvs & -> & Hkvs).
      constructor. by symmetry.
Qed.

(** X15. The handler answers every request, and its responses are these.
    A body that does not decode gets the 400 response and the repository is
    left as it was.  Otherwise the response has the two PDF headers and a
    document that opens with the page and the font and then holds one block
    for each record found, in the order of the request: the title of the
    record, its own links in any order, and the line break.  A failed lookup
    adds nothing and does not stop the loop. *)
Theorem GetLinks_response DecodeRequest st body :
  (exists resp st', GetLinks repo_GetRecord DecodeRequest st body resp st') /\
  (forall resp st',
     GetLinks repo_GetRecord DecodeRequest st body resp st' <->
     match DecodeRequest body with
     | None => resp = RespError 400 "cannot decode body" /\ st' = st
     | Some ids =>
         exists blocks,
           Forall2 (fun rec cells =>
                      cells ≡ₚ map link_cell (map_to_list (Links rec)))
             (found_records repo_GetRecord st ids) blocks /\
           resp = RespPdf pdf_headers
                    (PdfAddPage :: PdfSetFont "Arial" "" 12 ::
                     concat (zip_with
                               (fun rec cells =>
                                  record_title rec :: cells ++ [PdfLn 4])
                               (found_records repo_GetRecord st ids) blocks)) /\
           st' = (render_in_order repo_GetRecord st ids).2
     end).
Proof.
  split.
  - destruct (DecodeRequest body) as [ids|] eqn:Hreq.
    + eexists _, _. eapply GetLinks_pdf; [done |].
      apply render_in_order_renders.
    + eexists _, _. by apply GetLinks_bad_body.
  - intros resp st'. split.
    + intros Hresp.
      inversion Hresp as [Hreq | ids doc st1 Hreq Hrender]; subst;
        rewrite Hreq; [done |].
      destruct (render_records_blocks _ _ _ _ Hrender)
        as (blocks & Hblocks & -> & ->).
      by exists blocks.
    + destruct (DecodeRequest body) as [ids|] eqn:Hreq.
      * intros (blocks & Hblocks & -> & ->).
        eapply GetLinks_pdf; [done | by apply blocks_render].
      * intros [-> ->]. by apply GetLinks_bad_body.
Qed.

End Repository.

Lemma found_records_GetRecord s (fs : FS) ids :
  map ID (found_records (GetRecord s) fs ids) =
    filter (fun id => is_found s fs id = true) ids.
Proof.
  induction ids as [|id ids IH]; [done |]. cbn [found_records].
  pose proof (GetRecord_fs s id fs) as Hfs.
  pose proof (GetRecord_ID s id fs) as Hid.
  assert (Hfound : is_found s fs id =
                   match (GetRecord s id fs).2 with
                   | inr _ => true
                   | inl _ => false
                   end) by done.
  destruct (GetRecord s id fs) as [fs1 [e | rec]]; cbn [fst snd] in *; subst.
  - rewrite filter_cons_False; [done |]. by rewrite Hfound.
  - rewrite filter_cons_True by done. cbn [map]. by rewrite IH, (Hid rec).
Qed.

Lemma render_in_order_GetRecord s (fs : FS) ids :
  (render_in_order (GetRecord s) fs ids).2 = fs.
Proof.
  induction ids as [|id ids IH]; [done |]. cbn [render_in_order].
  pose proof (GetRecord_fs s id fs) as Hfs.
  destruct (GetRecord s id fs) as [fs1 [e | rec]]; cbn [fst] in Hfs; subst;
    [done |].
  by destruct (render_in_order (GetRecord s) fs ids).
Qed.

(** X14. Served from the storage, the record titles of the document are
    those of the requested identifiers that [GetRecord] finds, in the order
    of the request and as often as they are requested; the identifiers
    whose lookup fails leave no trace.  The request changes no file. *)
Theorem GetLinks_titles s (fs : FS) DecodeRequest body hs doc fs' :
  GetLinks (GetRecord s) DecodeRequest fs body (RespPdf hs doc) fs' ->
  fs' = fs /\ hs = pdf_headers /\
  exists ids,
    DecodeRequest body = Some ids /\
    titles doc =
      map (fun id => "Record: " +:+ FormatInt id)
        (filter (fun id => is_found s fs id = true) ids).
Proof.
  intros Hresp.
  inversion Hresp as [| ids doc0 st1 Hreq Hrender]; subst.
  destruct (render_records_in_order _ _ _ _ _ Hrender) as [_ Hst].
  rewrite render_in_order_GetRecord in Hst.
  split; [done |]. split; [done |]. exists ids. split; [done |].
  change (titles (PdfAddPage :: PdfSetFont "Arial" "" 12 :: doc0))
    with (titles doc0).
  rewrite (render_records_titles _ _ _ _ _ Hrender).
  by rewrite <- found_records_GetRecord, map_map.
Qed.

End StorageBehaviour.

(** ** The reference codec meets the contract *)

Module RefJSONLaws.
Import RefJSON.

Lemma Forall_forallb {A} (p : A -> bool) (l : list A) :
  forallb p l = true <-> Forall (fun x => p x = true) l.
Proof.
  induction l as [|x l IH]; simpl.
  - split; [constructor | done].
  - rewrite andb_true_iff, IH, Forall_cons. done.
Qed.

Lemma printable_one_line b : printable b = true -> b <> LF /\ b <> CR.
Proof. intros Hb. split; intros ->; discriminate Hb. Qed.

Lemma byte_eqb_refl b : Byte.eqb b b = true.
Proof. by apply Byte.byte_dec_lb. Qed.

(** *** Literals *)

Lemma expect_app lit s : expect lit (lit ++ s) = Some s.
Proof.
  induction lit as [|c lit IH]; simpl; [done |]. by rewrite byte_eqb_refl.
Qed.

Lemma expect_length lit s s' :
  expect lit s = Some s' -> length s = (length lit + length s')%nat.
Proof.
  revert s. induction lit as [|c lit IH]; intros s; simpl.
  - by intros [= ->].
  - destruct s as [|b s]; [done |]. destruct (Byte.eqb b c); [| done].
    intros E. apply IH in E. simpl. lia.
Qed.

(** *** Strings *)

Lemma escape_byte_printable b : forallb printable (escape_byte b) = true.
Proof. destruct b; reflexivity. Qed.

Lemma parse_chars_escape b rest :
  parse_chars (escape_byte b ++ rest) =
    match parse_chars rest with
    | Some (cs, rest') => Some (b :: cs, rest')
    | None => None
    end.
Proof. destruct b; reflexivity. Qed.

Lemma parse_chars_encode cs rest :
  parse_chars (flat_map escape_byte cs ++ DQ :: rest) = Some (cs, rest).
Proof.
  induction cs as [|b cs IH]; [done |].
  cbn [flat_map]. rewrite <- app_assoc, parse_chars_escape. by rewrite IH.
Qed.

Lemma parse_string_encode s rest :
  parse_string (encode_string s ++ rest) = Some (s, rest).
Proof.
  unfold encode_string, parse_string. cbn [app]. rewrite byte_eqb_refl.
  rewrite <- app_assoc. cbn [app]. rewrite parse_chars_encode.
  by rewrite string_of_list_byte_of_string.
Qed.

Lemma encode_string_printable s :
  Forall (fun b => printable b = true) (encode_string s).
Proof.
  unfold encode_string. constructor; [done |].
  apply Forall_app. split; [| by repeat constructor].
  induction (list_byte_of_string s) as [|b cs IH]; [constructor |].
  cbn [flat_map]. apply Forall_app. split; [| done].
  apply Forall_forallb, escape_byte_printable.
Qed.

Lemma parse_chars_length s cs rest :
  parse_chars s = Some (cs, rest) -> (length rest < length s)%nat.
Proof.
  revert cs rest. induction s as [s IH] using (induction_ltof1 _ (@length _)).
  unfold ltof in IH. intros cs rest. destruct s as [|b s]; [done |].
  cbn [parse_chars]. destruct (Byte.eqb b DQ).
  { intros [= <- <-]. simpl. lia. }
  destruct (Byte.eqb b BS).
  { destruct s as [|u [|z1 [|z2 [|h [|l s]]]]]; try done.
    destruct (_ && _ && _); [| done].
    destruct (unescape h l); [| done].
    destruct (parse_chars s) as [[cs' rest']|] eqn:E; [| done].
    intros [= <- <-]. apply IH in E; simpl; lia. }
  destruct (printable b); [| done].
  destruct (parse_chars s) as [[cs' rest']|] eqn:E; [| done].
  intros [= <- <-]. apply IH in E; simpl; lia.
Qed.

Lemma parse_string_length s k rest :
  parse_string s = Some (k, rest) -> (length rest < length s)%nat.
Proof.
  unfold parse_string. destruct s as [|b s]; [done |].
  destruct (Byte.eqb b DQ); [| done].
  destruct (parse_chars s) as [[cs rest']|] eqn:E; [| done].
  intros [= <- <-]. apply parse_chars_length in E. simpl. lia.
Qed.

(** *** Integers *)

Lemma uint_digits u :
  Forall (fun b => is_digit b = true)
    (list_byte_of_string (NilEmpty.string_of_uint u)).
Proof. induction u; simpl; constructor; done. Qed.

Lemma nilzero_uint_digits u :
  exists b ds,
    list_byte_of_string (NilZero.string_of_uint u) = b :: ds /\
    Forall (fun b => is_digit b = true) (b :: ds).
Proof.
  pose proof (uint_digits u) as Hd.
  destruct u; simpl in *; eauto using Forall_cons.
Qed.

Lemma list_byte_of_string_cons c s :
  list_byte_of_string (String c s) =
    Ascii.byte_of_ascii c :: list_byte_of_string s.
Proof. reflexivity. Qed.

(** The decimal text of an integer: digits, after a minus sign or not. *)
Lemma int_bytes d :
  (exists b ds,
     list_byte_of_string (NilZero.string_of_int d) = b :: ds /\
     Forall (fun b => is_digit b = true) (b :: ds)) \/
  (exists b ds,
     list_byte_of_string (NilZero.string_of_int d) = MINUS :: b :: ds /\
     Forall (fun b => is_digit b = true) (b :: ds)).
Proof.
  destruct d as [u | u]; destruct (nilzero_uint_digits u) as (b & ds & Hu & Hds).
  - left. exists b, ds. split; [exact Hu | exact Hds].
  - right. exists b, ds. split; [| exact Hds].
    unfold NilZero.string_of_int.
    rewrite list_byte_of_string_cons, Hu. reflexivity.
Qed.

Lemma span_digits_app ds c rest :
  Forall (fun b => is_digit b = true) ds -> is_digit c = false ->
  span_digits (ds ++ c :: rest) = (ds, c :: rest).
Proof.
  intros Hds Hc. induction Hds as [|b ds Hb Hds IH]; simpl.
  - by rewrite Hc.
  - by rewrite Hb, IH.
Qed.

Lemma span_digits_length s :
  (length (span_digits s).2 <= length s)%nat.
Proof.
  induction s as [|b s IH]; simpl; [lia |].
  destruct (is_digit b); simpl; [| lia].
  destruct (span_digits s). simpl in *. lia.
Qed.

Lemma to_int_canonical z : Z.to_int z <> Decimal.Pos Decimal.Nil /\
                           Z.to_int z <> Decimal.Neg Decimal.Nil.
Proof.
  destruct z as [|p|p]; simpl; split; try done; intros [= E];
    by apply DecimalPos.Unsigned.to_uint_nonnil in E.
Qed.

Lemma parse_int_encode z c rest :
  is_digit c = false ->
  parse_int (encode_int z ++ c :: rest) =
    if int64b z then Some (z, c :: rest) else None.
Proof.
  intros Hc. unfold encode_int.
  assert (Hstr : NilZero.int_of_string (NilZero.string_of_int (Z.to_int z))
                 = Some (Z.to_int z)).
  { destruct (to_int_canonical z). by apply NilZero.isi. }
  assert (Hshape : exists sign b ds,
    list_byte_of_string (NilZero.string_of_int (Z.to_int z)) = sign ++ b :: ds /\
    (sign = [] \/ sign = [MINUS]) /\
    Forall (fun b => is_digit b = true) (b :: ds)).
  { destruct (int_bytes (Z.to_int z)) as [(b & ds & -> & Hds)
                                         | (b & ds & -> & Hds)].
    - exists [], b, ds. auto.
    - exists [MINUS], b, ds. auto. }
  destruct Hshape as (sign & b & ds & Hbytes & Hsign & Hds).
  assert (Hb : Byte.eqb b MINUS = false).
  { apply Forall_cons in Hds as [Hb _]. destruct b; done. }
  unfold parse_int. rewrite Hbytes.
  destruct Hsign as [-> | ->]; cbn [app].
  - rewrite Hb, (app_comm_cons ds (c :: rest) b).
    rewrite (span_digits_app (b :: ds)) by done.
    cbn [app] in Hbytes. cbn [app]. rewrite <- Hbytes.
    rewrite string_of_list_byte_of_string, Hstr.
    by rewrite DecimalZ.of_to.
  - rewrite byte_eqb_refl, (app_comm_cons ds (c :: rest) b).
    rewrite (span_digits_app (b :: ds)) by done.
    rewrite <- Hbytes.
    rewrite string_of_list_byte_of_string, Hstr.
    by rewrite DecimalZ.of_to.
Qed.

Lemma encode_int_printable z :
  Forall (fun b => printable b = true) (encode_int z).
Proof.
  unfold encode_int.
  destruct (int_bytes (Z.to_int z)) as [(b & ds & -> & Hds)
                                       | (b & ds & -> & Hds)].
  - eapply Forall_impl; [done |]. intros c Hc. destruct c; done.
  - constructor; [done |].
    eapply Forall_impl; [done |]. intros c Hc. destruct c; done.
Qed.

Lemma parse_int_length s z rest :
  parse_int s = Some (z, rest) -> (length rest <= length s)%nat.
Proof.
  unfold parse_int.
  set (p := match s with
            | [] => ([], s)
            | b :: s' => if Byte.eqb b MINUS then ([b], s') else ([], s)
            end).
  assert (Hp : (length p.2 <= length s)%nat).
  { subst p. destruct s as [|b s]; simpl; [lia |].
    destruct (Byte.eqb b MINUS); simpl; lia. }
  destruct p as [sign s1]. pose proof (span_digits_length s1) as Hs.
  destruct (span_digits s1) as [ds rest'].
  destruct (NilZero.int_of_string _); [| done].
  destruct (int64b _); [| done].
  intros [= <- <-]. simpl in *. lia.
Qed.

Lemma parse_int_int64 s z rest : parse_int s = Some (z, rest) -> int64 z.
Proof.
  unfold parse_int.
  destruct (match s with [] => _ | _ => _ end) as [sign s1].
  destruct (span_digits s1) as [ds rest'].
  destruct (NilZero.int_of_string _) as [d|]; [| done].
  destruct (int64b (Z.of_int d)) eqn:E; [| done].
  intros [= <- <-]. unfold int64b in E. unfold int64.
  apply andb_true_iff in E as [E1 E2]. lia.
Qed.

(** *** Objects *)

Lemma parse_entries_step fuel k v d s4 :
  parse_entries (S fuel) (encode_entry (k, v) ++ d :: s4) =
    if Byte.eqb d COMMA then
      match parse_entries fuel s4 with
      | Some (kvs, rest) => Some ((k, v) :: kvs, rest)
      | None => None
      end
    else if Byte.eqb d RBRACE then Some ([(k, v)], s4)
    else None.
Proof.
  unfold encode_entry. cbn [parse_entries fst snd].
  rewrite <- app_assoc, parse_string_encode. cbn [app].
  rewrite byte_eqb_refl, parse_string_encode. done.
Qed.

Lemma parse_entries_encode kvs :
  kvs <> [] ->
  forall fuel rest,
    (length kvs <= fuel)%nat ->
    parse_entries fuel (encode_entries kvs ++ RBRACE :: rest) = Some (kvs, rest).
Proof.
  induction kvs as [|[k v] kvs IH]; [done |]. intros _ fuel rest Hfuel.
  destruct fuel as [|fuel]; [simpl in Hfuel; lia |].
  destruct kvs as [|kv' kvs].
  - cbn [encode_entries]. by rewrite parse_entries_step.
  - change (encode_entries ((k, v) :: kv' :: kvs))
      with (encode_entry (k, v) ++ COMMA :: encode_entries (kv' :: kvs)).
    rewrite <- app_assoc. cbn [app]. rewrite parse_entries_step.
    cbn [Byte.eqb]. rewrite byte_eqb_refl, IH; [done | done |].
    simpl in *. lia.
Qed.

Lemma encode_entry_head kv : exists tl, encode_entry kv = DQ :: tl.
Proof. unfold encode_entry, encode_string. simpl. eauto. Qed.

Lemma encode_entries_head kv kvs :
  exists tl, encode_entries (kv :: kvs) = DQ :: tl.
Proof.
  destruct (encode_entry_head kv) as [tl Htl].
  destruct kvs; cbn [encode_entries]; rewrite Htl; simpl; eauto.
Qed.

Lemma encode_entries_length kvs :
  (length kvs <= length (encode_entries kvs))%nat.
Proof.
  induction kvs as [|kv kvs IH]; [done |].
  destruct (encode_entry_head kv) as [tl Htl].
  destruct kvs as [|kv' kvs].
  - cbn [encode_entries]. rewrite Htl. simpl. lia.
  - change (encode_entries (kv :: kv' :: kvs))
      with (encode_entry kv ++ COMMA :: encode_entries (kv' :: kvs)).
    rewrite Htl, length_app. simpl in *. lia.
Qed.

Lemma parse_object_encode kvs rest :
  parse_object (LBRACE :: encode_entries kvs ++ RBRACE :: rest)
    = Some (kvs, rest).
Proof.
  destruct kvs as [|kv kvs]; [done |].
  destruct (encode_entries_head kv kvs) as [tl Htl].
  unfold parse_object. rewrite Htl. cbn [app]. rewrite byte_eqb_refl.
  change (Byte.eqb DQ RBRACE) with false. cbv iota.
  rewrite (app_comm_cons tl _ DQ), <- Htl.
  apply parse_entries_encode; [done |].
  rewrite length_app. pose proof (encode_entries_length (kv :: kvs)). lia.
Qed.

Lemma encode_entries_printable kvs :
  Forall (fun b => printable b = true) (encode_entries kvs).
Proof.
  assert (He : forall kv, Forall (fun b => printable b = true) (encode_entry kv)).
  { intros kv. unfold encode_entry. apply Forall_app. split.
    - apply encode_string_printable.
    - constructor; [done | apply encode_string_printable]. }
  induction kvs as [|kv kvs IH]; [constructor |].
  destruct kvs as [|kv' kvs]; [apply He |].
  change (encode_entries (kv :: kv' :: kvs))
    with (encode_entry kv ++ COMMA :: encode_entries (kv' :: kvs)).
  apply Forall_app. split; [apply He |]. by constructor.
Qed.

Lemma parse_entries_length fuel :
  forall s kvs rest,
    parse_entries fuel s = Some (kvs, rest) -> (length rest < length s)%nat.
Proof.
  induction fuel as [|fuel IH]; intros s kvs rest; [done |].
  cbn [parse_entries].
  destruct (parse_string s) as [[k [|c s2]]|] eqn:Ek; try done.
  apply parse_string_length in Ek.
  destruct (Byte.eqb c COLON); [| done].
  destruct (parse_string s2) as [[v [|d s4]]|] eqn:Ev; try done.
  apply parse_string_length in Ev. simpl in *.
  destruct (Byte.eqb d COMMA).
  - destruct (parse_entries fuel s4) as [[kvs' rest']|] eqn:E; [| done].
    apply IH in E. intros [= <- <-]. lia.
  - destruct (Byte.eqb d RBRACE); [| done]. intros [= <- <-]. lia.
Qed.

Lemma parse_object_length s kvs rest :
  parse_object s = Some (kvs, rest) -> (length rest < length s)%nat.
Proof.
  unfold parse_object. destruct s as [|b [|c s]]; try done.
  destruct (Byte.eqb b LBRACE); [| done].
  destruct (Byte.eqb c RBRACE).
  - intros [= <- <-]. simpl. lia.
  - intros E. apply parse_entries_length in E. simpl in *. lia.
Qed.

(** *** Records *)

Lemma sorted_entries_map (m : gmap string string) :
  list_to_map (reverse (sorted_entries m)) = m.
Proof.
  symmetry. apply list_to_map_flip. unfold sorted_entries.
  by rewrite reverse_Permutation, merge_sort_Permutation.
Qed.

Lemma encode_record_head r : exists tl, encode_record r = LBRACE :: tl.
Proof. unfold encode_record, lit_id. simpl. eauto. Qed.

Lemma parse_record_encode r rest :
  parse_record (encode_record r ++ rest) =
    if int64b (ID r) then Some (r, rest) else None.
Proof.
  unfold encode_record, parse_record.
  rewrite <- !app_assoc, expect_app.
  change (lit_links ++ ?x) with (COMMA :: (tail lit_links ++ x)).
  rewrite parse_int_encode by done.
  destruct (int64b (ID r)); [| done].
  change (COMMA :: (tail lit_links ++ ?x)) with (lit_links ++ x).
  rewrite expect_app. cbn [app]. rewrite <- app_assoc. cbn [app].
  rewrite parse_object_encode. cbn [expect]. rewrite byte_eqb_refl.
  rewrite sorted_entries_map. by destruct r.
Qed.

Lemma encode_record_printable r :
  Forall (fun b => printable b = true) (encode_record r).
Proof.
  unfold encode_record. repeat (apply Forall_app; split).
  - by repeat constructor.
  - apply encode_int_printable.
  - by repeat constructor.
  - constructor; [done |]. apply Forall_app. split.
    + apply encode_entries_printable.
    + by repeat constructor.
Qed.

Lemma parse_record_length s r rest :
  parse_record s = Some (r, rest) -> (length rest < length s)%nat.
Proof.
  unfold parse_record.
  destruct (expect lit_id s) as [s1|] eqn:E1; [| done].
  destruct (parse_int s1) as [[id s2]|] eqn:E2; [| done].
  destruct (expect lit_links s2) as [s3|] eqn:E3; [| done].
  destruct (parse_object s3) as [[kvs s4]|] eqn:E4; [| done].
  destruct (expect [RBRACE] s4) as [s5|] eqn:E5; [| done].
  intros [= <- <-].
  apply expect_length in E1, E3, E5. apply parse_int_length in E2.
  apply parse_object_length in E4. simpl in *. lia.
Qed.

Lemma parse_record_int64 s r rest :
  parse_record s = Some (r, rest) -> int64 (ID r).
Proof.
  unfold parse_record.
  destruct (expect lit_id s) as [s1|]; [| done].
  destruct (parse_int s1) as [[id s2]|] eqn:E2; [| done].
  destruct (expect lit_links s2) as [s3|]; [| done].
  destruct (parse_object s3) as [[kvs s4]|]; [| done].
  destruct (expect [RBRACE] s4) as [s5|]; [| done].
  intros [= <- <-]. simpl. by apply parse_int_int64 in E2.
Qed.

Lemma skip_ws_length s : (length (skip_ws s) <= length s)%nat.
Proof.
  induction s as [|b s IH]; simpl; [lia |]. destruct (is_ws b); simpl; lia.
Qed.

Lemma skip_ws_record r rest :
  skip_ws (encode_record r ++ rest) = encode_record r ++ rest.
Proof. destruct (encode_record_head r) as [tl ->]. reflexivity. Qed.

Lemma unmarshal_encode r :
  unmarshal (encode_record r) = if int64b (ID r) then Some r else None.
Proof.
  unfold unmarshal. rewrite <- (app_nil_r (encode_record r)).
  rewrite skip_ws_record, parse_record_encode.
  by destruct (int64b (ID r)).
Qed.

(** *** The contract *)

Lemma marshal_total r : is_Some (marshal r).
Proof. by eexists. Qed.

Lemma marshal_one_line r d :
  marshal r = Some d -> Forall (fun b => b <> LF /\ b <> CR) d.
Proof.
  intros [= <-]. eapply Forall_impl; [apply encode_record_printable |].
  apply printable_one_line.
Qed.

Lemma unmarshal_marshal_ID r d :
  int64 (ID r) -> marshal r = Some d ->
  exists r', unmarshal d = Some r' /\ ID r' = ID r.
Proof.
  intros Hid [= <-]. exists r. split; [| done].
  rewrite unmarshal_encode. unfold int64 in Hid. unfold int64b.
  rewrite (proj2 (Z.leb_le _ _)), (proj2 (Z.ltb_lt _ _)) by lia. done.
Qed.

Lemma unmarshal_marshal_LF r d :
  marshal r = Some d -> unmarshal (d ++ [LF]) = unmarshal d.
Proof.
  intros [= <-]. rewrite unmarshal_encode. unfold unmarshal.
  rewrite skip_ws_record, parse_record_encode.
  by destruct (int64b (ID r)).
Qed.

Lemma unmarshal_int64 s r : unmarshal s = Some r -> int64 (ID r).
Proof.
  unfold unmarshal.
  destruct (parse_record (skip_ws s)) as [[r' rest]|] eqn:E; [| done].
  destruct (forallb is_ws rest); [| done].
  intros [= <-]. by apply parse_record_int64 in E.
Qed.

Lemma decode_nil : decode [] = DecodeEOF.
Proof. reflexivity. Qed.

Lemma decode_LF s : decode (LF :: s) = decode s.
Proof. reflexivity. Qed.

Lemma decode_shrinks s r rest :
  decode s = DecodeOk r rest -> (length rest < length s)%nat.
Proof.
  unfold decode. pose proof (skip_ws_length s) as Hs.
  destruct (skip_ws s) as [|b s'] eqn:E; [done |].
  destruct (parse_record (b :: s')) as [[r' rest']|] eqn:Ep; [| done].
  intros [= <- <-]. apply parse_record_length in Ep. lia.
Qed.

Lemma decode_marshal r d r' rest :
  marshal r = Some d -> unmarshal d = Some r' ->
  decode (d ++ LF :: rest) = DecodeOk r' (LF :: rest).
Proof.
  intros [= <-]. rewrite unmarshal_encode. unfold decode.
  rewrite skip_ws_record.
  pose proof (parse_record_encode r (LF :: rest)) as Hp.
  destruct (encode_record_head r) as [tl Htl]. rewrite Htl in *.
  cbn [app] in *. rewrite Hp.
  destruct (int64b (ID r)); [| done]. by intros [= <-].
Qed.

(** A record with an int64 identifier is represented exactly. *)
Lemma unmarshal_marshal r :
  int64 (ID r) -> unmarshal (encode_record r) = Some r.
Proof.
  intros Hid. destruct (unmarshal_marshal_ID r _ Hid eq_refl)
    as (r' & Hr' & _).
  rewrite unmarshal_encode in *. by destruct (int64b (ID r)).
Qed.

End RefJSONLaws.

(** The reference codec meets the contract of the library. *)
#[export] Instance RefCodec_laws : JSONLaws RefCodec.
Proof.
  constructor.
  - exact RefJSONLaws.marshal_total.
  - exact RefJSONLaws.marshal_one_line.
  - exact RefJSONLaws.unmarshal_marshal_ID.
  - exact RefJSONLaws.unmarshal_marshal_LF.
  - exact RefJSONLaws.unmarshal_int64.
  - exact RefJSONLaws.decode_nil.
  - exact RefJSONLaws.decode_LF.
  - exact RefJSONLaws.decode_shrinks.
  - exact RefJSONLaws.decode_marshal.
Qed.

(** * Checks on the reference codec *)

Module Checks.
Import RefJSON Scenario.

Lemma no_LF_check l : forallb (fun b => negb (is_LF b)) l = true -> no_LF l.
Proof.
  intros Hl. apply RefJSONLaws.Forall_forallb in Hl.
  eapply Forall_impl; [exact Hl |]. intros b Hb.
  apply is_LF_false. cbv beta in Hb. by destruct (is_LF b).
Qed.

Ltac lines_no_LF :=
  repeat (apply Forall_cons_2; [apply no_LF_check; vm_compute; reflexivity |]);
  apply Forall_nil_2.

Lemma faithful_int64 r : int64 (ID r) -> json_faithful r.
Proof.
  intros Hid. exists (encode_record r). split; [reflexivity |].
  by apply RefJSONLaws.unmarshal_marshal.
Qed.

Lemma int64_small z : -1000 <= z <= 1000 -> int64 z.
Proof. unfold int64. lia. Qed.

(** The end-to-end example of the specification. *)
Example end_to_end :
  (LoadLastLinksNum st fs0).2 = 0 /\
  let fs1 := (SaveRecord st rec1 fs0).1 in
  (GetRecord st 1 fs1).2 = inr rec1 /\
  (LoadLastLinksNum st fs1).2 = 1 /\
  let fs2 := (SaveTempRecord st rec2 fs1).1 in
  (LoadTempRecords st fs2).2 = inr [rec2] /\
  let fs3 := (ClearTempFile st fs2).1 in
  (LoadTempRecords st fs3).2 = inr [].
Proof. vm_compute. repeat split; reflexivity. Qed.

(** Round trips of a record with no link, with several links, and with a
    URL that is not ASCII, each after the ones before. *)
Example round_trips :
  let fs1 := (SaveRecord st rec2 fs0).1 in
  let fs2 := (SaveRecord st rec3 fs1).1 in
  let fs3 := (SaveRecord st rec4 fs2).1 in
  (GetRecord st 2 fs3).2 = inr rec2 /\
  (GetRecord st (-7) fs3).2 = inr rec3 /\
  (GetRecord st 4 fs3).2 = inr rec4 /\
  (GetRecord st 5 fs3).2 = inl ErrNotFound.
Proof. vm_compute. repeat split; reflexivity. Qed.

(** C2. A record whose line is 65536 bytes or longer is saved without error
    and is not found again: the scanner of [GetRecord] stops with its
    token-too-long error, while [LoadLastLinksNum] and [LoadTempRecords]
    read the same line. *)
Theorem C2_long_record_is_not_found_again :
  json_faithful long_rec /\
  (SaveRecord st long_rec fs0).2 = None /\
  (GetRecord st (ID long_rec) (SaveRecord st long_rec fs0).1).2 = inl ErrScan /\
  (LoadLastLinksNum st (SaveRecord st long_rec fs0).1).2 = ID long_rec /\
  LoadTempRecords st (SaveTempRecord st long_rec fs0).1
    = ((SaveTempRecord st long_rec fs0).1, inr [long_rec]).
Proof.
  assert (Hf : json_faithful long_rec).
  { apply faithful_int64, int64_small. simpl. lia. }
  split; [exact Hf |].
  destruct (save_get_too_long st fs0 [] long_rec (encode_record long_rec))
    as [Hsave Hget].
  { reflexivity. }
  { constructor. }
  { constructor. }
  { intros l r0 Hin. by apply elem_of_nil in Hin. }
  { reflexivity. }
  { vm_compute. reflexivity. }
  split; [exact Hsave |]. split; [exact Hget |]. split.
  - apply (recover_after_saves st fs0 [OpSave long_rec] [] long_rec);
      [done | done |]. apply int64_small. simpl. lia.
  - apply (stage_then_load st fs0 [long_rec]); [done |]. by constructor.
Qed.

(** C5. After [long_rec] and then [rec2] are saved, record 2 is the last
    line of the log, and yet looking it up fails; and looking up an
    identifier that was never saved fails with the scan error, not with the
    not-found error. *)
Theorem C5_long_line_hides_the_rest :
  (LoadLastLinksNum st fs_long2).2 = 2 /\
  (GetRecord st 2 fs_long2).2 = inl ErrScan /\
  (GetRecord st 3 fs_long2).2 = inl ErrScan.
Proof.
  split; [| split].
  - apply (recover_after_saves st fs0 [OpSave long_rec; OpSave rec2]
             [long_rec] rec2); [done | done |].
    apply int64_small. simpl. lia.
  - vm_compute. reflexivity.
  - vm_compute. reflexivity.
Qed.

(** C4. A line that does not decode and is 65536 bytes long is not passed
    over: with record 1, that line and record 2 in the log, the lookup of
    record 2 fails with the scan error, although record 2 is the last line
    of the log; with a short line that does not decode in the same place
    record 2 is found. *)
Theorem C4_long_unparsable_line_fails_lookup :
  Unmarshal long_line = None /\
  (GetRecord st 2 (log_fs hidden_log)).2 = inl ErrScan /\
  (LoadLastLinksNum st (log_fs hidden_log)).2 = 2 /\
  Unmarshal garbage = None /\
  (GetRecord st 2 (log_fs mixed_log)).2 = inr rec2.
Proof.
  split; [vm_compute; reflexivity |].
  split; [vm_compute; reflexivity |].
  split; [vm_compute; reflexivity |].
  split; vm_compute; reflexivity.
Qed.

(** ** Witnesses *)

Lemma C1_witness :
  (LoadLastLinksNum st
     (run_ops st [OpSave rec1; OpGet 1; OpSave rec2; OpGet 5] fs0)).2 = 2.
Proof.
  apply (C1_monotonic_recovery st fs0 _ [rec1] rec2).
  - reflexivity.
  - reflexivity.
  - repeat constructor; apply int64_small; simpl; lia.
  - simpl. repeat constructor.
Defined.

Lemma C3_witness :
  (LoadLastLinksNum st fs0).2 = 0 /\
  (LoadLastLinksNum st (log_fs garbage)).2 = 0 /\
  (LoadLastLinksNum st fs_unreadable_log).2 = 0.
Proof.
  split; [| split].
  - destruct (C3_recover_collapses_failures st fs0) as (_ & _ & _ & Hf).
    destruct (Hf (plain_file []) eq_refl) as (_ & Hempty & _).
    apply Hempty. reflexivity.
  - destruct (C3_recover_collapses_failures st (log_fs garbage))
      as (_ & _ & _ & Hf).
    destruct (Hf (plain_file garbage) eq_refl) as (_ & _ & _ & Hdec).
    apply Hdec; [reflexivity | | reflexivity].
    intros pos Hpos. apply file_ReadAt_is_Some; [reflexivity |].
    exact (proj2 Hpos).
  - destruct (C3_recover_collapses_failures st fs_unreadable_log)
      as (_ & _ & _ & Hf).
    destruct (Hf unreadable_log eq_refl) as (_ & _ & Hread & _).
    apply (Hread (length two_lines - 3)%nat).
    + vm_compute. lia.
    + vm_compute. reflexivity.
Defined.

Lemma decode_failure_policies_witness :
  (GetRecord st 2 (log_fs mixed_log)).2 = inr rec2 /\
  (GetRecord st 2 (log_fs mixed_log)).2 = (GetRecord st 2 (log_fs clean_log)).2 /\
  LoadTempRecords st (temp_fs mixed_log) = (temp_fs mixed_log, inl ErrDecode).
Proof.
  destruct decode_failure_policies as (_ & Hfound & Hskip & _ & Hload).
  split; [| split].
  - apply (Hfound st 2 (log_fs mixed_log) [encode_record rec1] garbage
             (encode_record rec2) rec2 []).
    + vm_compute. reflexivity.
    + lines_no_LF.
    + repeat (apply Forall_cons_2; [vm_compute; reflexivity |]).
      apply Forall_nil_2.
    + intros l r0 Hin Hu. apply list_elem_of_singleton in Hin as ->.
      vm_compute in Hu. injection Hu as <-. vm_compute. discriminate.
    + apply no_LF_check. vm_compute. reflexivity.
    + vm_compute. reflexivity.
    + vm_compute. reflexivity.
    + apply no_LF_check. vm_compute. reflexivity.
    + vm_compute. reflexivity.
    + vm_compute. reflexivity.
    + reflexivity.
  - apply (Hskip st 2 (log_fs mixed_log) (log_fs clean_log)
             [encode_record rec1] garbage (join_lines [encode_record rec2])).
    + reflexivity.
    + reflexivity.
    + lines_no_LF.
    + apply no_LF_check. vm_compute. reflexivity.
    + vm_compute. reflexivity.
    + vm_compute. reflexivity.
  - apply (Hload st (temp_fs mixed_log) (plain_file mixed_log)).
    + reflexivity.
    + eapply unparsable_later; [vm_compute; reflexivity |].
      apply unparsable_here. vm_compute. reflexivity.
Defined.

Example first_match_example :
  (GetRecord st 2 (log_fs (mixed_log ++ garbage))).2 = inr rec2.
Proof.
  destruct GetRecord_first_match_or_not_found as (Hfirst & _ & _).
  rewrite (Hfirst st 2 (log_fs (mixed_log ++ garbage))
             (plain_file (mixed_log ++ garbage))
             [encode_record rec1; garbage; encode_record rec2] garbage).
  - vm_compute. reflexivity.
  - reflexivity.
  - reflexivity.
  - vm_compute. reflexivity.
  - lines_no_LF.
  - apply no_LF_check. vm_compute. reflexivity.
  - repeat (apply Forall_cons_2; [vm_compute; reflexivity |]).
    apply Forall_nil_2.
Defined.

Lemma C6_witness :
  LoadTempRecords st (stage_all st [rec1; rec2] fs0)
    = (stage_all st [rec1; rec2] fs0, inr [rec1; rec2]).
Proof.
  destruct C6_load_staged_idempotent as (_ & Hstage).
  apply (Hstage st fs0 [rec1] rec2).
  - reflexivity.
  - repeat constructor; apply faithful_int64, int64_small; simpl; lia.
Defined.

Lemma C7_witness :
  (ClearTempFile st fs_bad_temp).2 = None /\
  LoadTempRecords st (ClearTempFile st fs_bad_temp).1
    = ((ClearTempFile st fs_bad_temp).1, inr []).
Proof.
  destruct C7_clear_then_load as (Hok & Hclear & _).
  pose proof (Hok st fs_bad_temp bad_temp eq_refl) as Hnil.
  destruct (Hclear st fs_bad_temp Hnil) as (_ & Hload).
  split; [exact Hnil | exact Hload].
Defined.

Lemma C8_witness :
  LoadLastLinksNum_cost st fs_scratched_log
    = (2, S (length (encode_record rec2 ++ [LF]))) /\
  (2 * LoadLastLinksNum_copied st fs_scratched_log =
   length (encode_record rec2 ++ [LF]) *
   (length (encode_record rec2 ++ [LF]) + 1))%nat.
Proof.
  destruct (C8_tail_scan st fs_scratched_log scratched_log eq_refl)
    as (_ & _ & Hread).
  destruct (Hread eq_refl eq_refl) as (_ & Hcost).
  { intros pos Hpos.
    assert (Hlow : (4 <= length (data scratched_log) -
                         length (last_line (data scratched_log)) - 1)%nat)
      by (vm_compute; lia).
    apply file_ReadAt_is_Some; [| exact (proj2 Hpos)].
    unfold read_fails_at. cbn [read_err read_err_later scratched_log].
    rewrite andb_false_r, orb_false_r. apply Nat.eqb_neq. lia. }
  destruct Hcost as (Hcost & Hcopied & _); [vm_compute; discriminate |].
  split.
  - rewrite Hcost. vm_compute. reflexivity.
  - rewrite Hcopied. vm_compute. reflexivity.
Defined.

(** The copying is not in proportion to the last line: a last line of 10
    bytes costs 10 reads and 55 bytes copied, one of 100 bytes 100 reads and
    5050 bytes copied. *)
Lemma C8_copying_is_not_linear :
  LoadLastLinksNum_cost st (log_fs line10) = (0, 10%nat) /\
  Z.of_nat (LoadLastLinksNum_copied st (log_fs line10)) = 55 /\
  LoadLastLinksNum_cost st (log_fs line100) = (0, 100%nat) /\
  Z.of_nat (LoadLastLinksNum_copied st (log_fs line100)) = 5050.
Proof. vm_compute. repeat split; reflexivity. Qed.

Lemma C10_witness :
  (SaveTempRecord st rec1 fs0).1 !! path st = fs0 !! path st /\
  (SaveRecord st rec1 fs0).1 !! tempPath st = fs0 !! tempPath st.
Proof.
  destruct (C10_logs_framed st fs0) as (_ & _ & _ & _ & _ & Hframed).
  destruct Hframed as (Hstage & _ & _ & Hsave & _).
  - discriminate.
  - split; [apply Hstage | apply Hsave].
Defined.

(** While one goroutine holds the lock, another cannot take it. *)
Example lock_blocks :
  run_schedule st [(1, 0); (1, 0); (1, 4); (0, 0)]%nat (start fs0 two_saves)
    = None.
Proof. vm_compute. reflexivity. Qed.

Example after_two_saves_log :
  files after_two_saves !! path st
    = Some (plain_file (join_lines [encode_record rec2; encode_record rec1])).
Proof. vm_compute. reflexivity. Qed.

Lemma C9_witness :
  Forall (fun g => pc g = Returned (RetError None))
    (goroutines after_two_saves) /\
  exists ds decoded,
    files after_two_saves !! path st = Some (plain_file (join_lines ds)) /\
    Forall no_LF ds /\
    Forall2 (fun d r' => Unmarshal d = Some r') ds decoded /\
    map ID decoded ≡ₚ map ID [rec1; rec2].
Proof.
  destruct C9_lock_serialises_callers as (_ & _ & Hsaves).
  apply (Hsaves st fs0 [rec1; rec2] after_two_saves).
  - reflexivity.
  - repeat constructor; apply int64_small; simpl; lia.
  - simpl. apply NoDup_cons_2.
    { intros Hin. inversion Hin as [| ? ? ? Hin']; subst. inversion Hin'. }
    apply NoDup_cons_2; [intros Hin; inversion Hin |]. apply NoDup_nil_2.
  - apply (run_schedule_reaches st sched2). vm_compute. reflexivity.
  - unfold all_returned.
    let gs := eval vm_compute in (goroutines after_two_saves) in
    change (Forall has_returned gs).
    apply Forall_cons_2; [by eexists |].
    apply Forall_cons_2; [by eexists |]. apply Forall_nil_2.
Defined.

(** ** Witnesses of the further properties *)

Ltac lines_fit :=
  repeat (apply Forall_cons_2; [vm_compute; reflexivity |]);
  apply Forall_nil_2.

(** No line of a short list decodes to a record with the identifier. *)
Ltac other_ids :=
  let l := fresh "l" in
  let r0 := fresh "r0" in
  let Hin := fresh "Hin" in
  let Hu := fresh "Hu" in
  intros l r0 Hin Hu;
  repeat (apply elem_of_cons in Hin as [-> | Hin];
          [vm_compute in Hu; injection Hu as <-; vm_compute; discriminate |]);
  by apply elem_of_nil in Hin.

Lemma log_only_grows_witness :
  exists f' more,
    files after_two_more !! path st = Some f' /\ data f' = log3 ++ more.
Proof.
  apply (log_only_grows st (start (log_fs log3) two_saves) after_two_more
           (plain_file log3)).
  - discriminate.
  - apply (run_schedule_reaches st sched2). vm_compute. reflexivity.
  - reflexivity.
Defined.

Lemma clear_recreates_staging_witness :
  SaveTempRecord st rec1 fs_no_temp = (fs_no_temp, Some ErrOpen) /\
  (LoadTempRecords st
     (SaveTempRecord st rec1 (ClearTempFile st fs_no_temp).1).1).2
    = inr [rec1].
Proof.
  destruct (clear_recreates_staging st fs_no_temp rec1)
    as (Hsave & _ & _ & _ & Hload).
  - reflexivity.
  - apply faithful_int64, int64_small. simpl. lia.
  - split; [exact Hsave | exact Hload].
Defined.

Lemma missing_log_is_not_created_witness :
  files after_clear_and_save !! path st = None /\
  files after_clear_and_save !! tempPath st = Some (plain_file []) /\
  GetRecord st 1 (files after_clear_and_save)
    = (files after_clear_and_save, inl ErrOpen).
Proof.
  destruct (missing_log_is_not_created st (start fs_no_log clear_and_save)
              after_clear_and_save) as (Hnone & _ & Hget & _).
  - discriminate.
  - apply (run_schedule_reaches st sched3). vm_compute. reflexivity.
  - reflexivity.
  - split; [exact Hnone |]. split; [vm_compute; reflexivity | apply Hget].
Defined.

Lemma torn_write_loses_next_save_witness :
  SaveRecord st rec2 fs_full =
    (<[path st := with_data full_log
                    (data full_log ++ take 5 (encode_record rec2))
                    (Some 0%nat)]> fs_full,
     Some ErrWrite) /\
  (SaveRecord st rec2 (log_fs torn_log)).2 = None /\
  (GetRecord st 2 (SaveRecord st rec2 (log_fs torn_log)).1).2
    = inl ErrNotFound.
Proof.
  destruct torn_write_loses_next_save as [Htorn Hnext]. split.
  - apply (Htorn st fs_full full_log rec2 (encode_record rec2) 5%nat).
    + reflexivity.
    + reflexivity.
    + reflexivity.
    + apply Nat.leb_le. vm_compute. reflexivity.
  - apply (Hnext st (log_fs torn_log) [encode_record rec1]
             (take 5 (encode_record rec2)) rec2 (encode_record rec2)).
    + reflexivity.
    + lines_no_LF.
    + lines_fit.
    + apply no_LF_check. vm_compute. reflexivity.
    + other_ids.
    + reflexivity.
    + vm_compute. reflexivity.
    + vm_compute. reflexivity.
Defined.

Lemma save_get_fits_witness :
  (SaveRecord st rec3 (log_fs two_lines)).2 = None /\
  (GetRecord st (-7) (SaveRecord st rec3 (log_fs two_lines)).1).2 = inr rec3.
Proof.
  apply (save_get_fits st (log_fs two_lines)
           [encode_record rec1; encode_record rec2] rec3 (encode_record rec3)).
  - reflexivity.
  - lines_no_LF.
  - lines_fit.
  - other_ids.
  - reflexivity.
  - vm_compute. reflexivity.
  - vm_compute. reflexivity.
Defined.

Lemma GetRecord_sound_witness :
  (ID rec2 = 2 /\
   exists l, l ∈ log_lines [encode_record rec1; garbage; encode_record rec2] []
             /\ fits l = true /\ Unmarshal (dropCR l) = Some rec2) /\
  Forall (fun l => fits l = true)
    (log_lines [encode_record rec1; garbage; encode_record rec2] []).
Proof.
  split.
  - destruct (GetRecord_sound st 2 (log_fs mixed_log) (plain_file mixed_log)
                [encode_record rec1; garbage; encode_record rec2] [])
      as [Hfound _].
    + reflexivity.
    + vm_compute. reflexivity.
    + lines_no_LF.
    + constructor.
    + apply Hfound. vm_compute. reflexivity.
  - destruct (GetRecord_sound st 5 (log_fs mixed_log) (plain_file mixed_log)
                [encode_record rec1; garbage; encode_record rec2] [])
      as [_ Hnone].
    + reflexivity.
    + vm_compute. reflexivity.
    + lines_no_LF.
    + constructor.
    + destruct Hnone as (_ & Hfits & _); [vm_compute; reflexivity |].
      exact Hfits.
Defined.

Lemma long_line_blocks_lookups_witness :
  (GetRecord st 2 (log_fs hidden_log)).2 = inl ErrScan /\
  (GetRecord st 1 (log_fs hidden_log)).2 = inr rec1.
Proof.
  split.
  - rewrite (long_line_blocks_lookups st 2 (log_fs hidden_log)
               (plain_file hidden_log) [encode_record rec1] long_line
               (join_lines [encode_record rec2])).
    + vm_compute. reflexivity.
    + reflexivity.
    + reflexivity.
    + lines_no_LF.
    + lines_fit.
    + apply no_LF_check. vm_compute. reflexivity.
    + vm_compute. reflexivity.
  - rewrite (long_line_blocks_lookups st 1 (log_fs hidden_log)
               (plain_file hidden_log) [encode_record rec1] long_line
               (join_lines [encode_record rec2])).
    + vm_compute. reflexivity.
    + reflexivity.
    + reflexivity.
    + lines_no_LF.
    + lines_fit.
    + apply no_LF_check. vm_compute. reflexivity.
    + vm_compute. reflexivity.
Defined.

Lemma save_preserves_found_witness :
  (SaveRecord st rec1b (log_fs two_lines)).2 = None /\
  (GetRecord st 1 (SaveRecord st rec1b (log_fs two_lines)).1).2 = inr rec1.
Proof.
  split; [vm_compute; reflexivity |].
  apply (save_preserves_found st 1 (log_fs two_lines) (plain_file two_lines)
           [encode_record rec1; encode_record rec2] rec1 rec1b).
  - reflexivity.
  - reflexivity.
  - reflexivity.
  - lines_no_LF.
  - vm_compute. reflexivity.
Defined.

Lemma LoadTempRecords_all_or_nothing_witness :
  LoadTempRecords st fs_unreadable_temp = (fs_unreadable_temp, inl ErrDecode).
Proof.
  destruct (LoadTempRecords_all_or_nothing st fs_unreadable_temp
              unreadable_temp) as [Hfail _].
  - reflexivity.
  - apply Hfail. vm_compute. reflexivity.
Defined.

Lemma stage_commit_clear_witness :
  (LoadTempRecords st
     (SaveRecord st rec4 (stage_all st [rec3] (log_fs two_lines))).1).2
    = inr [rec3] /\
  (LoadTempRecords st
     (ClearTempFile st
        (SaveRecord st rec4 (stage_all st [rec3] (log_fs two_lines))).1).1).2
    = inr [] /\
  (LoadLastLinksNum st
     (ClearTempFile st
        (SaveRecord st rec4 (stage_all st [rec3] (log_fs two_lines))).1).1).2
    = 4.
Proof.
  destruct (stage_commit_clear st (log_fs two_lines)
              [encode_record rec1; encode_record rec2] [rec3] rec4)
    as (_ & Hstaged & _ & Hcleared & Hlast & _).
  - discriminate.
  - reflexivity.
  - reflexivity.
  - repeat constructor. apply faithful_int64, int64_small. simpl. lia.
  - apply int64_small. simpl. lia.
  - split; [exact Hstaged |]. split; [exact Hcleared | exact Hlast].
Defined.

Lemma New_start_and_restart_witness :
  (exists fs' s,
     New Join cfg0 false (fun _ => false) fs_other = (fs', inr s) /\
     (LoadLastLinksNum s fs').2 = 0 /\
     (LoadTempRecords s fs').2 = inr []) /\
  New Join cfg0 false (fun _ => false) fs_used = (fs_used, inr st0).
Proof.
  split.
  - destruct (New_start_and_restart Join cfg0 (fun _ => false) fs_other)
      as [Hfresh _].
    destruct Hfresh as (fs' & s & Hnew & Hlast & Hload & _);
      [reflexivity | reflexivity | reflexivity | reflexivity |].
    exists fs', s. split; [exact Hnew |]. split; [exact Hlast | exact Hload].
  - destruct (New_start_and_restart Join cfg0 (fun _ => false) fs_used)
      as [_ Hrestart].
    apply (Hrestart (plain_file two_lines) (plain_file log3)); reflexivity.
Defined.

Lemma GetLinks_titles_witness :
  titles
    (PdfAddPage :: PdfSetFont "Arial" "" 12 ::
     (render_in_order (GetRecord st) (log_fs two_lines) [2; 9; 1; 2]).1)
    = ["Record: 2"; "Record: 1"; "Record: 2"]%string.
Proof.
  destruct (GetLinks_titles st (log_fs two_lines) request_ids request_body
              pdf_headers
              (PdfAddPage :: PdfSetFont "Arial" "" 12 ::
               (render_in_order (GetRecord st) (log_fs two_lines)
                  [2; 9; 1; 2]).1)
              (render_in_order (GetRecord st) (log_fs two_lines)
                 [2; 9; 1; 2]).2)
    as (_ & _ & ids & Hids & Htitles).
  - apply (GetLinks_pdf _ _ _ _ [2; 9; 1; 2]); [vm_compute; reflexivity |].
    apply render_in_order_renders.
  - assert (Hreq : request_ids request_body = Some [2; 9; 1; 2])
      by (vm_compute; reflexivity).
    rewrite Hreq in Hids. injection Hids as <-.
    rewrite Htitles. vm_compute. reflexivity.
Defined.

End Checks.
